(** * GENCAD pin resolver: a shallow embedding of [gencad_parser.py] and
    [swap_diode_pins.py]

    The development follows the two Python modules of [PCB/export]:

    - the PIN line of the SHAPES section ([_parse_shapes]),
    - the pin position resolver ([_calculate_pin_positions], [_rotate_point],
      [_find_signal]),
    - the tabular exporters ([export_connections_to_csv],
      [export_netlist_to_csv], [export_houdini_csv]),
    - the stand-alone coordinate exchange of [swap_diode_pins.py].

    Modelling conventions.
    - A Python [dict] is an association list in insertion order (iteration
      order of [dict.items()]); its keys are pairwise distinct.
    - A Python [float] is a real number: coordinates are the exact values the
      double-precision computation approximates; [math.cos], [math.sin] and
      [math.pi] are [cos], [sin] and [PI].
    - A Python [int] is in [Z]; list indices and [enumerate] counters are in
      [nat].
    - Text is ASCII: the character classes [\s], [\w] and [\d] of the regular
      expressions are their ASCII ranges.
    - An exception is a value [Raise e] of the [result] type.
    - Objects that are mutated through several references (the pin
      dictionaries of [export_houdini_csv], the rows of [swap_diode_pins]) live
      in a store, a list, and are referred to by their index.
    - Reading and writing files is not modelled: an exporter is the list of
      rows it hands to the CSV writer. *)

From Stdlib Require Import String Ascii ZArith Reals Lra Lia Bool Arith.
From Stdlib Require Import DecimalString Decimal List Permutation.
Import ListNotations.
Local Open Scope string_scope.
Local Open Scope list_scope.

(** ** Python values and control *)

Inductive exn : Type :=
| KeyError (key : string)
| ValueError (msg : string).

Inductive result (A : Type) : Type :=
| Ok (a : A)
| Raise (e : exn).
Arguments Ok {A} a.
Arguments Raise {A} e.

Definition bind {A B : Type} (r : result A) (k : A -> result B) : result B :=
  match r with
  | Ok a => k a
  | Raise e => Raise e
  end.

Notation "x <- r ;; k" := (bind r (fun x => k))
  (at level 61, r at next level, right associativity).

(** [d[key]] on an entry that may be absent. *)
Definition getitem {A : Type} (key : string) (o : option A) : result A :=
  match o with
  | Some a => Ok a
  | None => Raise (KeyError key)
  end.

(** [d.get(key, default)]. *)
Definition get_default {A : Type} (o : option A) (default : A) : A :=
  match o with
  | Some a => a
  | None => default
  end.

(** A [for] loop whose body may raise: the state is threaded through the
    iterations and the first exception leaves the loop. *)
Fixpoint for_each {A S : Type} (body : S -> A -> result S) (l : list A) (s : S)
  : result S :=
  match l with
  | [] => Ok s
  | a :: l' =>
      match body s a with
      | Ok s' => for_each body l' s'
      | Raise e => Raise e
      end
  end.

Definition range (start stop : nat) : list nat := seq start (stop - start).

Definition enumerate_from {A : Type} (start : nat) (l : list A) : list (nat * A) :=
  combine (seq start (length l)) l.

Definition enumerate {A : Type} (l : list A) : list (nat * A) :=
  enumerate_from 0 l.

(** [str(n)] for a non-negative [int]. *)
Definition str_of_nat (n : nat) : string :=
  NilEmpty.string_of_uint (Nat.to_uint n).

(** [sep.join(l)]. *)
Definition join (sep : string) (l : list string) : string := String.concat sep l.

Definition startswith (s pre : string) : bool := String.prefix pre s.

Definition pair_eqb (a b : string * string) : bool :=
  (fst a =? fst b) && (snd a =? snd b).

(** ** Dictionaries in insertion order *)

Section Dict.
Context {K V : Type}.
Variable eqb : K -> K -> bool.

Fixpoint dict_get (d : list (K * V)) (k : K) : option V :=
    match d with
    | [] => None
    | (k', v) :: d' => if eqb k k' then Some v else dict_get d' k
    end.

  (** [d[k] = v]: an existing key keeps its place. *)
Fixpoint dict_set (d : list (K * V)) (k : K) (v : V) : list (K * V) :=
    match d with
    | [] => [(k, v)]
    | (k', v') :: d' =>
        if eqb k k' then (k', v) :: d' else (k', v') :: dict_set d' k v
    end.
End Dict.

(** [d[k].append(v)] on a [defaultdict(list)], and the idiom
    [if k not in d: d[k] = []] followed by [d[k].append(v)]. *)
Fixpoint dict_append {V : Type} (d : list (string * list V)) (k : string) (v : V)
  : list (string * list V) :=
  match d with
  | [] => [(k, [v])]
  | (k', vs) :: d' =>
      if k =? k' then (k', vs ++ [v]) :: d' else (k', vs) :: dict_append d' k v
  end.

(** [l.sort(key=...)] with string keys: Python's sort is stable and compares
    with [<] only. *)
Section Sort.
Context {A : Type}.
Variable key : A -> string.

Fixpoint sort_insert (a : A) (l : list A) : list A :=
    match l with
    | [] => [a]
    | b :: l' => if String.ltb (key b) (key a) then b :: sort_insert a l' else a :: l
    end.

Fixpoint sort_by (l : list A) : list A :=
    match l with
    | [] => []
    | a :: l' => sort_insert a (sort_by l')
    end.
End Sort.

(** Replacing the object at a store index. *)
Fixpoint update {A : Type} (l : list A) (i : nat) (f : A -> A) : list A :=
  match l, i with
  | [], _ => []
  | a :: l', O => f a :: l'
  | a :: l', S i' => a :: update l' i' f
  end.

(** ** Data model *)

Module ShapePin.
Record t : Type := mk
    { name : string;
      pad : string;
      x : R;
      y : R;
      layer : string;
      rotation : Z }.
End ShapePin.

(** A component record is the dictionary the COMPONENTS section builds: the
    three flags are always present, every other key only after its directive
    was read. *)
Module Component.
Record t : Type := mk
    { mirror_x : bool;
      mirror_y : bool;
      flip : bool;
      device : option string;
      x : option R;
      y : option R;
      layer : option string;
      rotation : option Z;
      shape : option string }.
End Component.

Module Pin.
Record t : Type := mk
    { component : string;
      pin_name : string;
      x : R;
      y : R;
      layer : string;
      signal : string }.

Definition set_xy (p : t) (x' y' : R) : t :=
    mk (component p) (pin_name p) x' y' (layer p) (signal p).

Definition key (p : t) : string * string := (component p, pin_name p).
End Pin.

Definition shapes_t : Type := list (string * list ShapePin.t).
Definition components_t : Type := list (string * Component.t).
Definition signals_t : Type := list (string * list (string * string)).

(** ** Pin position resolver *)

Definition radians (angle_deg : Z) : R := (IZR angle_deg * (PI / 180))%R.

Definition _rotate_point (x y : R) (angle_deg : Z) : R * R :=
  let angle_rad := radians angle_deg in
  let cos_a := cos angle_rad in
  let sin_a := sin angle_rad in
  let new_x := (x * cos_a - y * sin_a)%R in
  let new_y := (x * sin_a + y * cos_a)%R in
  (new_x, new_y).

(** [(component, pin) in connections]. *)
Definition endpoint_in (component pin : string) (connections : list (string * string))
  : bool :=
  existsb (pair_eqb (component, pin)) connections.

Fixpoint _find_signal (signals : signals_t) (component pin : string) : string :=
  match signals with
  | [] => "unconnected"
  | (signal_name, connections) :: rest =>
      if endpoint_in component pin connections then signal_name
      else _find_signal rest component pin
  end.

(** The body of the loop over the pins of the shape, up to the dictionary
    [pin_data]. *)
Definition pin_data (signals : signals_t) (comp_name : string) (comp_x comp_y : R)
    (rotation : Z) (mirror_x mirror_y flip : bool) (pin : ShapePin.t) : Pin.t :=
  let pin_x := ShapePin.x pin in
  let pin_y := ShapePin.y pin in
  let pin_x := if mirror_x then (- pin_x)%R else pin_x in
  let pin_y := if mirror_y then (- pin_y)%R else pin_y in
  let '(pin_x, pin_y) := _rotate_point pin_x pin_y rotation in
  let abs_x := (comp_x + pin_x)%R in
  let abs_y := (comp_y + pin_y)%R in
  let pin_layer := ShapePin.layer pin in
  let pin_layer :=
    if flip then (if pin_layer =? "TOP" then "BOTTOM" else "TOP") else pin_layer in
  Pin.mk comp_name (ShapePin.name pin) abs_x abs_y pin_layer
         (_find_signal signals comp_name (ShapePin.name pin)).

(** The loop over the pins of the shape: the state is [self.pins] and
    [diode_pins]. *)
Definition shape_pins_loop (signals : signals_t) (comp_name : string)
    (comp_x comp_y : R) (rotation : Z) (mirror_x mirror_y flip is_diode : bool)
    (shape_pins : list ShapePin.t) (pins diode_pins : list Pin.t)
  : list Pin.t * list Pin.t :=
  fold_left
    (fun (st : list Pin.t * list Pin.t) pin =>
       let '(pins, diode_pins) := st in
       let pd := pin_data signals comp_name comp_x comp_y rotation
                          mirror_x mirror_y flip pin in
       if is_diode then (pins, diode_pins ++ [pd]) else (pins ++ [pd], diode_pins))
    shape_pins (pins, diode_pins).

(** The exchange of the coordinates of [diode_pins[0]] and [diode_pins[1]]. *)
Definition swap_coordinates (diode_pins : list Pin.t) : list Pin.t :=
  match diode_pins with
  | p0 :: p1 :: rest =>
      let '(x1, y1) := (Pin.x p0, Pin.y p0) in
      let '(x2, y2) := (Pin.x p1, Pin.y p1) in
      Pin.set_xy p0 x2 y2 :: Pin.set_xy p1 x1 y1 :: rest
  | _ => diode_pins
  end.

(** One iteration of the loop over [self.components.items()].  The layer of
    the component, [comp_layer], is read there and never used; reading it
    cannot fail and it is left out. *)
Definition component_step (signals : signals_t) (shapes : shapes_t)
    (pins : list Pin.t) (entry : string * Component.t) : result (list Pin.t) :=
  let '(comp_name, comp_data) := entry in
  match Component.shape comp_data with
  | None => Ok pins
  | Some shape_name =>
      match dict_get String.eqb shapes shape_name with
      | None => Ok pins
      | Some shape_pins =>
          comp_x <- getitem "x" (Component.x comp_data) ;;
          comp_y <- getitem "y" (Component.y comp_data) ;;
          let rotation := get_default (Component.rotation comp_data) 0%Z in
          let mirror_x := Component.mirror_x comp_data in
          let mirror_y := Component.mirror_y comp_data in
          let flip := Component.flip comp_data in
          let is_diode := startswith comp_name "L-D" in
          let '(pins, diode_pins) :=
            shape_pins_loop signals comp_name comp_x comp_y rotation
                            mirror_x mirror_y flip is_diode shape_pins pins [] in
          if is_diode && (length diode_pins =? 2)%nat then
            Ok (pins ++ swap_coordinates (sort_by Pin.pin_name diode_pins))
          else if is_diode then Ok (pins ++ diode_pins)
          else Ok pins
      end
  end.

Definition _calculate_pin_positions (signals : signals_t) (shapes : shapes_t)
    (components : components_t) : result (list Pin.t) :=
  for_each (component_step signals shapes) components [].

(** ** Connection table *)

Module Connection.
Record t : Type := mk
    { signal : string;
      component1 : string;
      pin1 : string;
      x1 : R;
      y1 : R;
      layer1 : string;
      component2 : string;
      pin2 : string;
      x2 : R;
      y2 : R;
      layer2 : string }.
End Connection.

(** [signal_pins]: the pins grouped by their signal, the unconnected ones left
    out. *)
Definition group_by_signal (pins : list Pin.t) : list (string * list Pin.t) :=
  fold_left
    (fun signal_pins pin =>
       let signal := Pin.signal pin in
       if negb (signal =? "unconnected") then dict_append signal_pins signal pin
       else signal_pins)
    pins [].

Definition connection (signal : string) (pin1 pin2 : Pin.t) : Connection.t :=
  Connection.mk signal
    (Pin.component pin1) (Pin.pin_name pin1) (Pin.x pin1) (Pin.y pin1) (Pin.layer pin1)
    (Pin.component pin2) (Pin.pin_name pin2) (Pin.x pin2) (Pin.y pin2) (Pin.layer pin2).

(** The two nested loops over [range(len(pins))] and [range(i+1, len(pins))]. *)
Definition signal_connections (signal : string) (pins : list Pin.t)
  : list Connection.t :=
  flat_map
    (fun i =>
       flat_map
         (fun j =>
            match nth_error pins i, nth_error pins j with
            | Some pin1, Some pin2 => [connection signal pin1 pin2]
            | _, _ => []
            end)
         (range (i + 1) (length pins)))
    (range 0 (length pins)).

Definition export_connections_to_csv (pins : list Pin.t) : list Connection.t :=
  flat_map (fun '(signal, pins) => signal_connections signal pins)
           (group_by_signal pins).

(** ** Netlist summary *)

Module NetPin.
Record t : Type := mk
    { component : string;
      pin : string;
      x : R;
      y : R;
      layer : string }.
End NetPin.

Module Net.
Record t : Type := mk
    { signal : string;
      pin_count : nat;
      pins : list NetPin.t }.
End Net.

Module NetRow.
Record t : Type := mk
    { signal : string;
      pin_count : nat;
      components : string }.
End NetRow.

(** The inner search [for p in self.pins: if ...: pin_data = p; break]. *)
Definition find_pin_data (pins : list Pin.t) (component pin : string) : option Pin.t :=
  find (fun p => (Pin.component p =? component) && (Pin.pin_name p =? pin)) pins.

Definition netlist_signal_pins (pins : list Pin.t)
    (connections : list (string * string)) : list NetPin.t :=
  flat_map
    (fun '(component, pin) =>
       match find_pin_data pins component pin with
       | Some pin_data =>
           [NetPin.mk component pin (Pin.x pin_data) (Pin.y pin_data)
                      (Pin.layer pin_data)]
       | None => []
       end)
    connections.

Definition netlist (signals : signals_t) (pins : list Pin.t) : list Net.t :=
  map (fun '(signal_name, connections) =>
         let signal_pins := netlist_signal_pins pins connections in
         Net.mk signal_name (length signal_pins) signal_pins)
      signals.

Definition endpoint_label (component pin : string) : string :=
  (component ++ ":" ++ pin)%string.

Definition export_netlist_to_csv (signals : signals_t) (pins : list Pin.t)
  : list NetRow.t :=
  map (fun net =>
         let components :=
           join ", " (map (fun p => endpoint_label (NetPin.component p) (NetPin.pin p))
                          (Net.pins net)) in
         NetRow.mk (Net.signal net) (Net.pin_count net) components)
      (netlist signals pins).

(** ** Combined graph table *)

(** The two connection fields start as the empty list and are later replaced
    by a string. *)
Inductive field : Type :=
| EmptyList
| Str (s : string).

Module HPin.
Record t : Type := mk
    { pin : Pin.t;
      id : nat;
      z : R;
      connected_to : field;
      connected_ids : field }.

Definition set_connected (p : t) (to ids : field) : t :=
    mk (pin p) (id p) (z p) to ids.

Definition set_connected_ids (p : t) (ids : field) : t :=
    mk (pin p) (id p) (z p) (connected_to p) ids.
End HPin.

Definition bracketed (ids : list nat) : string :=
  ("[" ++ join "," (map str_of_nat ids) ++ "]")%string.

(** The first loop: id, z and the empty connection fields. *)
Definition init_pins (pins : list Pin.t) : list HPin.t :=
  map (fun '(i, pin) =>
         HPin.mk pin i (if Pin.layer pin =? "TOP" then 0.0%R else (-0.1)%R)
                 EmptyList EmptyList)
      (enumerate pins).

(** [pin_lookup]: the key [(component, pin_name)] to the pin object, here its
    index in the store. *)
Definition make_pin_lookup (store : list HPin.t) : list ((string * string) * nat) :=
  fold_left (fun pin_lookup '(i, p) => dict_set pair_eqb pin_lookup (Pin.key (HPin.pin p)) i)
            (enumerate store) [].

(** [signal_pins]: the pin objects of the endpoints found in [pin_lookup]. *)
Definition lookup_signal_pins (pin_lookup : list ((string * string) * nat))
    (connections_list : list (string * string)) : list nat :=
  flat_map
    (fun key =>
       match dict_get pair_eqb pin_lookup key with
       | Some ref => [ref]
       | None => []
       end)
    connections_list.

(** The peers of the [i]-th entry of [signal_pins]: every entry at another
    position. *)
Definition other_pins (store : list HPin.t) (signal_pins : list nat) (i : nat)
  : list HPin.t :=
  flat_map
    (fun '(j, ref2) =>
       if negb (i =? j)%nat then
         match nth_error store ref2 with
         | Some pin2 => [pin2]
         | None => []
         end
       else [])
    (enumerate signal_pins).

Definition pin_label (p : HPin.t) : string :=
  endpoint_label (Pin.component (HPin.pin p)) (Pin.pin_name (HPin.pin p)).

(** The loop [for i, pin1 in enumerate(signal_pins)]. *)
Definition annotate_signal (store : list HPin.t) (signal_pins : list nat)
  : list HPin.t :=
  fold_left
    (fun store '(i, ref1) =>
       let others := other_pins store signal_pins i in
       let connected_to := map pin_label others in
       let connected_ids := map HPin.id others in
       update store ref1
              (fun pin1 =>
                 HPin.set_connected pin1 (Str (join "|" connected_to))
                                    (Str (bracketed connected_ids))))
    (enumerate signal_pins) store.

(** The loop over [self.signals.items()]. *)
Definition annotate_signals (signals : signals_t)
    (pin_lookup : list ((string * string) * nat)) (store : list HPin.t)
  : list HPin.t :=
  fold_left
    (fun store '(signal_name, connections_list) =>
       if signal_name =? "unconnected" then store
       else annotate_signal store (lookup_signal_pins pin_lookup connections_list))
    signals store.

(** The rows handed to the writer: a connection-id field that is still a list
    is formatted first. *)
Definition format_ids (p : HPin.t) : HPin.t :=
  match HPin.connected_ids p with
  | EmptyList => HPin.set_connected_ids p (Str (bracketed []))
  | Str _ => p
  end.

Definition export_houdini_csv (signals : signals_t) (pins : list Pin.t)
  : list HPin.t :=
  let store := init_pins pins in
  let pin_lookup := make_pin_lookup store in
  let store := annotate_signals signals pin_lookup store in
  map format_ids store.

(** ** The rows of the combined graph file, as [swap_diode_pins.py] reads them *)

Module Row.
Record t : Type := mk
    { id : string;
      x : string;
      y : string;
      z : string;
      component : string;
      pin_name : string;
      layer : string;
      signal : string;
      connected_to : string;
      connected_ids : string }.

Definition set_xy (r : t) (x' y' : string) : t :=
    mk (id r) x' y' (z r) (component r) (pin_name r) (layer r) (signal r)
       (connected_to r) (connected_ids r).
End Row.

Definition str_of_field (f : field) : string :=
  match f with
  | EmptyList => "[]"
  | Str s => s
  end.

(** The cells the CSV writer produces for one pin; [str_of_float] is the
    writer's rendering of a float. *)
Definition csv_row (str_of_float : R -> string) (p : HPin.t) : Row.t :=
  Row.mk (str_of_nat (HPin.id p))
         (str_of_float (Pin.x (HPin.pin p)))
         (str_of_float (Pin.y (HPin.pin p)))
         (str_of_float (HPin.z p))
         (Pin.component (HPin.pin p))
         (Pin.pin_name (HPin.pin p))
         (Pin.layer (HPin.pin p))
         (Pin.signal (HPin.pin p))
         (str_of_field (HPin.connected_to p))
         (str_of_field (HPin.connected_ids p)).

(** [components]: the rows grouped by component; a group holds the row
    objects, here their indices in [rows]. *)
Definition group_components_from (start : nat) (rows : list Row.t)
    (components : list (string * list nat)) : list (string * list nat) :=
  fold_left (fun components '(i, row) => dict_append components (Row.component row) i)
            (enumerate_from start rows) components.

Definition group_by_component (rows : list Row.t) : list (string * list nat) :=
  group_components_from 0 rows [].

Definition row_pin_name (rows : list Row.t) (ref : nat) : string :=
  match nth_error rows ref with
  | Some row => Row.pin_name row
  | None => ""
  end.

(** One iteration of the loop over [components.items()]. *)
Definition swap_step (rows : list Row.t) (entry : string * list nat) : list Row.t :=
  let '(component, pins) := entry in
  if startswith component "L-D" && (length pins =? 2)%nat then
    match sort_by (row_pin_name rows) pins with
    | ref0 :: ref1 :: _ =>
        match nth_error rows ref0, nth_error rows ref1 with
        | Some pin0, Some pin1 =>
            let '(x1, y1) := (Row.x pin0, Row.y pin0) in
            let '(x2, y2) := (Row.x pin1, Row.y pin1) in
            update (update rows ref0 (fun r => Row.set_xy r x2 y2))
                   ref1 (fun r => Row.set_xy r x1 y1)
        | _, _ => rows
        end
    | _ => rows
    end
  else rows.

Definition swap_diode_pins (rows : list Row.t) : list Row.t :=
  fold_left swap_step (group_by_component rows) rows.

(** ** The SHAPES section: regular expressions of [_parse_shapes] *)

Definition dquote : ascii := "034"%char.

Definition in_range (lo hi : nat) (c : ascii) : bool :=
  let n := nat_of_ascii c in (lo <=? n)%nat && (n <=? hi)%nat.

(** [\s], [\d] and [\w] on ASCII text. *)
Definition is_space (c : ascii) : bool :=
  in_range 9 13 c || in_range 28 32 c.

Definition is_digit (c : ascii) : bool := in_range 48 57 c.

Definition is_word (c : ascii) : bool :=
  is_digit c || in_range 65 90 c || in_range 97 122 c || Ascii.eqb c "_"%char.

(** The class [[-\d\.]]. *)
Definition is_num (c : ascii) : bool :=
  is_digit c || Ascii.eqb c "-"%char || Ascii.eqb c "."%char.

(** The class of every character but the double quote. *)
Definition not_dquote (c : ascii) : bool := negb (Ascii.eqb c dquote).

(** The longest prefix in a class and what follows it. *)
Fixpoint span (p : ascii -> bool) (s : string) : string * string :=
  match s with
  | EmptyString => (EmptyString, EmptyString)
  | String c s' =>
      if p c then let '(a, b) := span p s' in (String c a, b)
      else (EmptyString, s)
  end.

(** [(cls+)]: greedy, at least one character.  Every use of it in the two
    patterns is followed by something its class excludes or by optional
    parts only, so the greedy run is the one a match has. *)
Definition many1 (p : ascii -> bool) (s : string) : option (string * string) :=
  match span p s with
  | (EmptyString, _) => None
  | (a, b) => Some (a, b)
  end.

Fixpoint literal (pat s : string) : option string :=
  match pat, s with
  | EmptyString, _ => Some s
  | String a pat', String b s' => if Ascii.eqb a b then literal pat' s' else None
  | String _ _, EmptyString => None
  end.

Definition spaces1 (s : string) : option string :=
  option_map snd (many1 is_space s).

Definition obind {A B : Type} (o : option A) (k : A -> option B) : option B :=
  match o with
  | Some a => k a
  | None => None
  end.

Notation "x <~ o ;; k" := (obind o (fun x => k))
  (at level 61, o at next level, right associativity).

(** An optional group [(?:\s+(cls+))?]: the group and the rest of the line. *)
Definition optional_field (p : ascii -> bool) (s : string) : option string * string :=
  match spaces1 s with
  | Some s' =>
      match many1 p s' with
      | Some (g, rest) => (Some g, rest)
      | None => (None, s)
      end
  | None => (None, s)
  end.

(** [re.match] of the SHAPE pattern (the keyword, spaces and a quoted,
    non-empty name): the group. *)
Definition shape_match (line : string) : option string :=
  s <~ literal "SHAPE" line ;;
  s <~ spaces1 s ;;
  s <~ literal (String dquote EmptyString) s ;;
  g <~ many1 not_dquote s ;;
  _ <~ literal (String dquote EmptyString) (snd g) ;;
  Some (fst g).

Module PinGroups.
Record t : Type := mk
    { g0 : string;
      g1 : string;
      g2 : string;
      g3 : string;
      g4 : option string;
      g5 : option string;
      g6 : option string }.
End PinGroups.

(** [re.match] of the PIN pattern: [pin_match.groups()]. *)
Definition pin_match (line : string) : option PinGroups.t :=
  s <~ literal "PIN" line ;;
  s <~ spaces1 s ;;
  s <~ literal (String dquote EmptyString) s ;;
  n <~ many1 not_dquote s ;;
  s <~ literal (String dquote EmptyString) (snd n) ;;
  s <~ spaces1 s ;;
  p <~ many1 is_word s ;;
  s <~ spaces1 (snd p) ;;
  x <~ many1 is_num s ;;
  s <~ spaces1 (snd x) ;;
  y <~ many1 is_num s ;;
  let '(l, s) := optional_field is_word (snd y) in
  let '(r, s) := optional_field is_digit s in
  let '(e, _) := optional_field is_digit s in
  Some (PinGroups.mk (fst n) (fst p) (fst x) (fst y) l r e).

Definition digit_value (c : ascii) : Z := Z.of_nat (nat_of_ascii c - 48).

(** [int(s)] on a run of decimal digits. *)
Definition int (s : string) : Z :=
  fold_left (fun acc c => (acc * 10 + digit_value c)%Z) (list_ascii_of_string s) 0%Z.

(** [float(s)] on a lexeme of the class [[-\d\.]]: an optional sign, digits
    with at most one point and at least one digit; anything else is a
    [ValueError]. *)
Definition float (s : string) : result R :=
  let '(negative, body) :=
    match s with
    | String "-"%char s' => (true, s')
    | _ => (false, s)
    end in
  let '(ip, rest) := span is_digit body in
  let '(fp, rest) :=
    match rest with
    | String "."%char rest' => span is_digit rest'
    | _ => (EmptyString, rest)
    end in
  if (rest =? "") && negb ((ip =? "") && (fp =? "")) then
    let magnitude :=
      (IZR (int (ip ++ fp)) / IZR (10 ^ Z.of_nat (String.length fp)))%R in
    Ok (if negative then (- magnitude)%R else magnitude)
  else Raise (ValueError "could not convert string to float").

(** The body of the loop of [_parse_shapes] on a stripped line: the state is
    [current_shape] and [self.shapes]. *)
Definition parse_shapes_line (st : option string * shapes_t) (line : string)
  : result (option string * shapes_t) :=
  let '(current_shape, shapes) := st in
  if line =? "" then Ok st
  else
    match shape_match line with
    | Some name => Ok (Some name, dict_set String.eqb shapes name [])
    | None =>
        match pin_match line, current_shape with
        | Some groups, Some shape =>
            let pin_name := PinGroups.g0 groups in
            let pad_type := PinGroups.g1 groups in
            let layer := get_default (PinGroups.g4 groups) "TOP" in
            let rotation :=
              match PinGroups.g5 groups with
              | Some digits => int digits
              | None => 0%Z
              end in
            x <- float (PinGroups.g2 groups) ;;
            y <- float (PinGroups.g3 groups) ;;
            Ok (current_shape,
                dict_append shapes shape
                            (ShapePin.mk pin_name pad_type x y layer rotation))
        | _, _ => Ok st
        end
    end.

Definition lstrip (l : list ascii) : list ascii :=
  (fix drop (l : list ascii) : list ascii :=
     match l with
     | c :: l' => if is_space c then drop l' else l
     | [] => []
     end) l.

(** [line.strip()]. *)
Definition strip (s : string) : string :=
  string_of_list_ascii (rev (lstrip (rev (lstrip (list_ascii_of_string s))))).

(** [section.split('\n')]. *)
Fixpoint split_lines (s : string) : list string :=
  match s with
  | EmptyString => [EmptyString]
  | String c s' =>
      if Ascii.eqb c "010"%char then EmptyString :: split_lines s'
      else
        match split_lines s' with
        | line :: lines => String c line :: lines
        | [] => [String c EmptyString]
        end
  end.

Definition _parse_shapes (shapes_section : string) : result shapes_t :=
  st <- for_each parse_shapes_line (map strip (split_lines shapes_section)) (None, []) ;;
  Ok (snd st).

(** ** Reference definition for the diode exchange

    The pins in the order the resolver emits them, each with the coordinates
    its own shape pin gives: the resolver with the exchange of coordinates
    left out. *)

Definition direct_component_pins (signals : signals_t) (shapes : shapes_t)
    (entry : string * Component.t) : list Pin.t :=
  let '(comp_name, comp_data) := entry in
  match Component.shape comp_data with
  | None => []
  | Some shape_name =>
      match dict_get String.eqb shapes shape_name,
            Component.x comp_data, Component.y comp_data with
      | Some shape_pins, Some comp_x, Some comp_y =>
          let computed :=
            map (pin_data signals comp_name comp_x comp_y
                          (get_default (Component.rotation comp_data) 0%Z)
                          (Component.mirror_x comp_data)
                          (Component.mirror_y comp_data)
                          (Component.flip comp_data))
                shape_pins in
          if startswith comp_name "L-D" && (length computed =? 2)%nat
          then sort_by Pin.pin_name computed
          else computed
      | _, _, _ => []
      end
  end.

Definition direct_pin_positions (signals : signals_t) (shapes : shapes_t)
    (components : components_t) : list Pin.t :=
  flat_map (direct_component_pins signals shapes) components.

(** The rows with the coordinate cells taken from the given pins. *)
Definition with_coordinates (str_of_float : R -> string) (rows : list Row.t)
    (pins : list Pin.t) : list Row.t :=
  map (fun '(row, p) =>
         Row.set_xy row (str_of_float (Pin.x p)) (str_of_float (Pin.y p)))
      (combine rows pins).

(** ** The transform of one pin, as the specification words it

    Mirror, then rotate counter-clockwise about the origin, then translate. *)

Definition spec_mirror (mirror_x mirror_y : bool) (p : R * R) : R * R :=
  ((if mirror_x then - fst p else fst p)%R, (if mirror_y then - snd p else snd p)%R).

Definition spec_rotate (degrees : Z) (p : R * R) : R * R :=
  let th := (IZR degrees * PI / 180)%R in
  ((fst p * cos th - snd p * sin th)%R, (fst p * sin th + snd p * cos th)%R).

Definition spec_translate (placement : R * R) (p : R * R) : R * R :=
  ((fst p + fst placement)%R, (snd p + snd placement)%R).

Definition spec_position (mirror_x mirror_y : bool) (degrees : Z) (placement : R * R)
    (offset : R * R) : R * R :=
  spec_translate placement (spec_rotate degrees (spec_mirror mirror_x mirror_y offset)).

(** The pin dictionary the resolver computes for a shape pin of a component
    placed at [(comp_x, comp_y)]. *)
Definition component_pin_data (signals : signals_t) (comp_name : string)
    (comp_data : Component.t) (comp_x comp_y : R) : ShapePin.t -> Pin.t :=
  pin_data signals comp_name comp_x comp_y
           (get_default (Component.rotation comp_data) 0%Z)
           (Component.mirror_x comp_data) (Component.mirror_y comp_data)
           (Component.flip comp_data).

(** The gate of the exchange: a diode prefix and exactly two pins. *)
Definition is_swapped (comp_name : string) (n_pins : nat) : bool :=
  startswith comp_name "L-D" && (n_pins =? 2)%nat.

(** The pins one component adds to [self.pins]. *)
Definition component_pins (signals : signals_t) (shapes : shapes_t)
    (entry : string * Component.t) : result (list Pin.t) :=
  component_step signals shapes [] entry.

(** ** Example tables *)

Definition shape_pin (name : string) (x y : R) (layer : string) : ShapePin.t :=
  ShapePin.mk name "PAD" x y layer 0.

Definition placed (x y : R) (flip : bool) (shape : string) : Component.t :=
  Component.mk false false flip None (Some x) (Some y) None None (Some shape).

(** A component with a SHAPE line and no PLACE line. *)
Definition unplaced (shape : string) : Component.t :=
  Component.mk false false false None None None None None (Some shape).

Definition ex_shapes : shapes_t :=
  [ ("D2", [shape_pin "1" 0 0 "TOP"; shape_pin "2" 1 0 "BOTTOM"]);
    ("T3", [shape_pin "1" 0 0 "TOP"; shape_pin "2" 1 0 "TOP"; shape_pin "3" 2 0 "TOP"]);
    ("VIA", [shape_pin "1" 0 0 "INNER"]) ].

Definition ex_signals : signals_t :=
  [ ("GND", [("L-D1", "1"); ("Q1", "3")]);
    ("VCC", [("L-D1", "2"); ("Q1", "1"); ("X9", "1")]) ].

Definition ex_diode : components_t := [ ("L-D1", placed 10 10 false "D2") ].

Definition ex_components : components_t :=
  [ ("L-D1", placed 10 10 false "D2");
    ("Q1", placed 20 5 false "T3");
    ("R7", placed 1 1 false "MISSING") ].

Definition ex_flipped : components_t := [ ("V1", placed 3 4 true "VIA") ].

Definition ex_unplaced : components_t :=
  [ ("Q1", placed 20 5 false "T3"); ("U2", unplaced "D2") ].

(** Every unordered pair of positions of a list, the earlier element first. *)
Fixpoint unordered_pairs {A : Type} (l : list A) : list (A * A) :=
  match l with
  | [] => []
  | a :: l' => map (pair a) l' ++ unordered_pairs l'
  end.

(** The pins assigned a given net. *)
Definition pins_of_signal (signal : string) (pins : list Pin.t) : list Pin.t :=
  filter (fun p => Pin.signal p =? signal) pins.

(** The endpoints of a net for which a resolved pin exists. *)
Definition resolved_endpoints (pins : list Pin.t)
    (connections : list (string * string)) : list (string * string) :=
  filter (fun '(component, pin) =>
            existsb (fun p => (Pin.component p =? component) && (Pin.pin_name p =? pin))
                    pins)
         connections.

Definition ex_pins : list Pin.t :=
  [ Pin.mk "L-D1" "1" 11 10 "TOP" "GND";
    Pin.mk "L-D1" "2" 10 10 "BOTTOM" "VCC";
    Pin.mk "Q1" "1" 20 5 "TOP" "VCC";
    Pin.mk "Q1" "2" 21 5 "TOP" "unconnected";
    Pin.mk "Q1" "3" 22 5 "TOP" "GND" ].

(** ** PIN lines, field by field

    A PIN line is the keyword, the quoted name, the pad type, the two
    coordinates and what follows them, with blanks in between. *)

Fixpoint all_chars (p : ascii -> bool) (s : string) : bool :=
  match s with
  | EmptyString => true
  | String c s' => p c && all_chars p s'
  end.

(** A non-empty run of characters of one class. *)
Definition run (p : ascii -> bool) (s : string) : bool :=
  negb (s =? "") && all_chars p s.

(** The text is empty or starts outside the class. *)
Definition stops (p : ascii -> bool) (s : string) : bool :=
  match s with
  | EmptyString => true
  | String c _ => negb (p c)
  end.

(** The text starts with blanks followed by a character of the class. *)
Definition starts_field (p : ascii -> bool) (s : string) : bool :=
  match span is_space s with
  | (EmptyString, _) => false
  | (_, String c _) => p c
  | (_, EmptyString) => false
  end.

(** What follows the y coordinate: no layer field, a layer field and no
    rotation field, or both.  A layer field is a run of word characters after
    blanks; a rotation field is a run of digits after the blanks that follow
    the layer field. *)
Inductive trailing : Type :=
| NoLayer (rest : string)
| LayerOnly (ws layer rest : string)
| LayerRotation (ws layer ws' rotation rest : string).

Definition render_trailing (t : trailing) : string :=
  match t with
  | NoLayer rest => rest
  | LayerOnly ws layer rest => ws ++ layer ++ rest
  | LayerRotation ws layer ws' rotation rest => ws ++ layer ++ ws' ++ rotation ++ rest
  end%string.

Definition wf_trailing (t : trailing) : bool :=
  match t with
  | NoLayer rest => stops is_num rest && negb (starts_field is_word rest)
  | LayerOnly ws layer rest =>
      run is_space ws && run is_word layer && stops is_word rest
      && negb (starts_field is_digit rest)
  | LayerRotation ws layer ws' rotation rest =>
      run is_space ws && run is_word layer && run is_space ws'
      && run is_digit rotation && stops is_digit rest
  end.

Definition layer_field (t : trailing) : option string :=
  match t with
  | NoLayer _ => None
  | LayerOnly _ layer _ | LayerRotation _ layer _ _ _ => Some layer
  end.

Definition rotation_field (t : trailing) : option string :=
  match t with
  | NoLayer _ | LayerOnly _ _ _ => None
  | LayerRotation _ _ _ rotation _ => Some rotation
  end.

Module PinLine.
Record t : Type := mk
  { ws1 : string;
    name : string;
    ws2 : string;
    pad : string;
    ws3 : string;
    x : string;
    ws4 : string;
    y : string;
    tail : trailing }.

Definition render (l : t) : string :=
  ("PIN" ++ ws1 l ++ String dquote (name l ++ String dquote (ws2 l ++ pad l ++ ws3 l
     ++ x l ++ ws4 l ++ y l ++ render_trailing (tail l))))%string.

Definition wf (l : t) : bool :=
  run is_space (ws1 l) && run not_dquote (name l) && run is_space (ws2 l)
  && run is_word (pad l) && run is_space (ws3 l) && run is_num (x l)
  && run is_space (ws4 l) && run is_num (y l) && wf_trailing (tail l).
End PinLine.



(** What [swap_diode_pins] does to the rows of one component. *)
Definition swap_block (block : list Row.t) : list Row.t :=
  match block with
  | [row0; row1] =>
      if startswith (Row.component row0) "L-D"
      then [ Row.set_xy row0 (Row.x row1) (Row.y row1);
             Row.set_xy row1 (Row.x row0) (Row.y row0) ]
      else block
  | _ => block
  end.

(** The fields of a pin object that the annotation of the combined graph table
    never assigns. *)
Definition HPin_core (p : HPin.t) : Pin.t * nat * R := (HPin.pin p, HPin.id p, HPin.z p).

(** ** The annotation of the combined graph table, event by event *)

(** The entries of [signal_pins] at the positions other than [i]. *)
Definition peer_refs (signal_pins : list nat) (i : nat) : list nat :=
  flat_map (fun '(j, ref2) => if negb (i =? j)%nat then [ref2] else [])
           (enumerate signal_pins).

(** The label "component:pin_name" of the pin at an index of the pin list. *)
Definition label_at (pins : list Pin.t) (ref : nat) : string :=
  match nth_error pins ref with
  | Some q => endpoint_label (Pin.component q) (Pin.pin_name q)
  | None => ""
  end.

(** An assignment of the two connection fields of the pin object [ref]. *)
Definition assign (store : list HPin.t) (event : nat * (field * field)) : list HPin.t :=
  update store (fst event)
         (fun pin1 => HPin.set_connected pin1 (fst (snd event)) (snd (snd event))).

(** The assignments the loop over [signal_pins] makes. *)
Definition signal_events (pins : list Pin.t) (signal_pins : list nat)
  : list (nat * (field * field)) :=
  map (fun '(i, ref1) =>
         (ref1, (Str (join "|" (map (label_at pins) (peer_refs signal_pins i))),
                 Str (bracketed (peer_refs signal_pins i)))))
      (enumerate signal_pins).

(** ** More examples *)


(** The pins resolved from the example tables. *)
Definition ex_resolved : list Pin.t :=
  match _calculate_pin_positions ex_signals ex_shapes ex_components with
  | Ok pins => pins
  | Raise _ => []
  end.

(** A rendering of floats that tells the two abscissas of the example diode
    apart. *)
Definition ex_str_of_float (r : R) : string :=
  if Req_dec_T r 10 then "10.0" else if Req_dec_T r 11 then "11.0" else "other".

(** Every assignment of the loop over the signal table. *)
Definition annotation_events (signals : signals_t) (pins : list Pin.t)
  : list (nat * (field * field)) :=
  let pin_lookup := make_pin_lookup (init_pins pins) in
  flat_map
    (fun '(signal_name, connections_list) =>
       if signal_name =? "unconnected" then []
       else signal_events pins (lookup_signal_pins pin_lookup connections_list))
    signals.

(** The store agrees with the first loop on the fields the annotation never
    assigns. *)
Definition core_kept (pins : list Pin.t) (store : list HPin.t) : Prop :=
  map HPin_core store = map HPin_core (init_pins pins).

(** A signal table that lists the endpoint ("R1", "1") in two nets, and the
    pins resolved against it. *)
Definition ex_shared_signals : signals_t :=
  [ ("A", [("R1", "1"); ("R2", "1")]);
    ("B", [("R1", "1"); ("R3", "1")]) ].

Definition ex_shared_pins : list Pin.t :=
  [ Pin.mk "R1" "1" 0 0 "TOP" "A";
    Pin.mk "R2" "1" 1 0 "TOP" "A";
    Pin.mk "R3" "1" 2 0 "TOP" "B" ].

(** A SHAPES section: a shape with two PIN lines and a line that matches no
    pattern. *)
Definition ex_section : string :=
  let q := String dquote EmptyString in
  let nl := String "010"%char EmptyString in
  ("SHAPE " ++ q ++ "S" ++ q ++ nl
   ++ "  PIN " ++ q ++ "1" ++ q ++ " PAD 0 0 BOTTOM 90  " ++ nl
   ++ "PIN " ++ q ++ "2" ++ q ++ " PAD 1.5 -2" ++ nl
   ++ "ARTWORK 7")%string.

(** The names, layers and rotations of the pins of every shape. *)
Definition shape_table_summary (shapes : shapes_t)
  : list (string * list (string * string * Z)) :=
  map (fun '(name, pins) =>
         (name, map (fun pin => (ShapePin.name pin, ShapePin.layer pin,
                                 ShapePin.rotation pin)) pins))
      shapes.

(** * The rest of the parser

    The section extractor, the four other table builders and [parse], with
    the same conventions.  The markers and keywords of the patterns are plain
    letters, so a pattern is a sequence of literal text, blanks and runs of
    one character class. *)

(** ** Searching text *)

(** The text before the first occurrence of [pat] and the text after it. *)
Fixpoint find_sub (pat s : string) {struct s} : option (string * string) :=
  match literal pat s with
  | Some rest => Some (EmptyString, rest)
  | None =>
      match s with
      | EmptyString => None
      | String c s' =>
          match find_sub pat s' with
          | Some (before, after) => Some (String c before, after)
          | None => None
          end
      end
  end.

(** [pat in s]. *)
Definition contains (pat s : string) : bool :=
  match find_sub pat s with
  | Some _ => true
  | None => false
  end.

(** [re.search] of "$start(.*?)$end" with [re.DOTALL]: the first start
    marker and the first end marker after it; then [group(1).strip()], or the
    empty text when there is no match. *)
Definition _extract_section (content start_marker end_marker : string) : string :=
  match find_sub (String "$" start_marker) content with
  | Some (_, rest) =>
      match find_sub (String "$" end_marker) rest with
      | Some (body, _) => strip body
      | None => ""
      end
  | None => ""
  end.

(** ** HEADER *)

(** [s.split()]: the maximal runs of non-blank characters. *)
Fixpoint words (s : string) : list string :=
  match s with
  | EmptyString => []
  | String c s' =>
      if is_space c then words s'
      else
        match s' with
        | EmptyString => [String c EmptyString]
        | String c' _ =>
            if is_space c' then String c EmptyString :: words s'
            else
              match words s' with
              | w :: ws => String c w :: ws
              | [] => [String c EmptyString]
              end
        end
  end.

(** The loop of [_parse_header], which leaves at the first UNITS line that
    has a second word. *)
Fixpoint parse_header_lines (lines : list string) (units : string) : string :=
  match lines with
  | [] => units
  | line :: rest =>
      let line := strip line in
      if startswith line "UNITS" then
        match words line with
        | _ :: unit :: _ => unit
        | _ => parse_header_lines rest units
        end
      else parse_header_lines rest units
  end.

Definition _parse_header (header_section units : string) : string :=
  parse_header_lines (split_lines header_section) units.

(** ** BOARD *)

(** [re.match] of the LINE pattern: the four groups. *)
Definition line_match (line : string) : option (string * string * string * string) :=
  s <~ literal "LINE" line ;;
  s <~ spaces1 s ;;
  a <~ many1 is_num s ;;
  s <~ spaces1 (snd a) ;;
  b <~ many1 is_num s ;;
  s <~ spaces1 (snd b) ;;
  c <~ many1 is_num s ;;
  s <~ spaces1 (snd c) ;;
  d <~ many1 is_num s ;;
  Some (fst a, fst b, fst c, fst d).

Definition segment : Type := (R * R * R * R)%type.

(** The body of the loop of [_parse_board] on a stripped line. *)
Definition parse_board_line (board_outline : list segment) (line : string)
  : result (list segment) :=
  if line =? "" then Ok board_outline
  else
    match line_match line with
    | Some (a, b, c, d) =>
        x1 <- float a ;;
        y1 <- float b ;;
        x2 <- float c ;;
        y2 <- float d ;;
        Ok (board_outline ++ [(x1, y1, x2, y2)])
    | None => Ok board_outline
    end.

Definition _parse_board (board_section : string) (board_outline : list segment)
  : result (list segment) :=
  for_each parse_board_line (map strip (split_lines board_section)) board_outline.

(** ** COMPONENTS *)

(** [re.match] of a keyword, blanks and a quoted, non-empty name: the
    patterns of COMPONENT, DEVICE, SHAPE and SIGNAL lines. *)
Definition quoted_match (keyword line : string) : option string :=
  s <~ literal keyword line ;;
  s <~ spaces1 s ;;
  s <~ literal (String dquote EmptyString) s ;;
  g <~ many1 not_dquote s ;;
  _ <~ literal (String dquote EmptyString) (snd g) ;;
  Some (fst g).

(** [re.match] of the PLACE pattern. *)
Definition place_match (line : string) : option (string * string) :=
  s <~ literal "PLACE" line ;;
  s <~ spaces1 s ;;
  x <~ many1 is_num s ;;
  s <~ spaces1 (snd x) ;;
  y <~ many1 is_num s ;;
  Some (fst x, fst y).

(** [re.match] of the LAYER pattern. *)
Definition layer_match (line : string) : option string :=
  s <~ literal "LAYER" line ;;
  s <~ spaces1 s ;;
  g <~ many1 is_word s ;;
  Some (fst g).

(** [re.match] of the ROTATION pattern. *)
Definition rot_match (line : string) : option string :=
  s <~ literal "ROTATION" line ;;
  s <~ spaces1 s ;;
  g <~ many1 is_num s ;;
  Some (fst g).

(** [int(r)] on a float: truncation toward zero. *)
Definition int_of_float (r : R) : Z :=
  if Rle_dec 0 r then Int_part r else (- Int_part (- r))%Z.

(** [d[k][field] = v] on a dictionary of records: the key must be there. *)
Fixpoint dict_modify {V : Type} (d : list (string * V)) (k : string) (f : V -> V)
  : result (list (string * V)) :=
  match d with
  | [] => Raise (KeyError k)
  | (k', v) :: d' =>
      if k =? k' then Ok ((k', f v) :: d')
      else d'' <- dict_modify d' k f ;; Ok ((k', v) :: d'')
  end.

Module ComponentUpdate.
Import Component.

Definition fresh : t := mk false false false None None None None None None.

Definition set_device (v : string) (c : t) : t :=
  mk (mirror_x c) (mirror_y c) (flip c) (Some v) (x c) (y c) (layer c) (rotation c)
     (shape c).

Definition set_x (v : R) (c : t) : t :=
  mk (mirror_x c) (mirror_y c) (flip c) (device c) (Some v) (y c) (layer c)
     (rotation c) (shape c).

Definition set_y (v : R) (c : t) : t :=
  mk (mirror_x c) (mirror_y c) (flip c) (device c) (x c) (Some v) (layer c)
     (rotation c) (shape c).

Definition set_layer (v : string) (c : t) : t :=
  mk (mirror_x c) (mirror_y c) (flip c) (device c) (x c) (y c) (Some v) (rotation c)
     (shape c).

Definition set_rotation (v : Z) (c : t) : t :=
  mk (mirror_x c) (mirror_y c) (flip c) (device c) (x c) (y c) (layer c) (Some v)
     (shape c).

Definition set_shape (v : string) (c : t) : t :=
  mk (mirror_x c) (mirror_y c) (flip c) (device c) (x c) (y c) (layer c) (rotation c)
     (Some v).

Definition set_mirror_x (c : t) : t :=
  mk true (mirror_y c) (flip c) (device c) (x c) (y c) (layer c) (rotation c) (shape c).

Definition set_mirror_y (c : t) : t :=
  mk (mirror_x c) true (flip c) (device c) (x c) (y c) (layer c) (rotation c) (shape c).

Definition set_flip (c : t) : t :=
  mk (mirror_x c) (mirror_y c) true (device c) (x c) (y c) (layer c) (rotation c)
     (shape c).
End ComponentUpdate.

(** One of the three tests [if TOKEN in line and current_component]. *)
Definition flag_step (token : string) (set : Component.t -> Component.t)
    (line : string) (current_component : option string) (components : components_t)
  : result components_t :=
  match current_component with
  | Some name => if contains token line then dict_modify components name set
                 else Ok components
  | None => Ok components
  end.

(** The body of the loop of [_parse_components] on a stripped line: the state
    is [current_component] and [self.components].  Each test is written as in
    the source, a pattern that matches without a current component falling
    through to the tests below it. *)
Definition parse_components_line (st : option string * components_t) (line : string)
  : result (option string * components_t) :=
  let '(current_component, components) := st in
  if line =? "" then Ok st
  else
    match quoted_match "COMPONENT" line with
    | Some name =>
        Ok (Some name, dict_set String.eqb components name ComponentUpdate.fresh)
    | None =>
        match quoted_match "DEVICE" line, current_component with
        | Some device, Some name =>
            components <- dict_modify components name (ComponentUpdate.set_device device) ;;
            Ok (current_component, components)
        | _, _ =>
        match place_match line, current_component with
        | Some (x, y), Some name =>
            x <- float x ;;
            components <- dict_modify components name (ComponentUpdate.set_x x) ;;
            y <- float y ;;
            components <- dict_modify components name (ComponentUpdate.set_y y) ;;
            Ok (current_component, components)
        | _, _ =>
        match layer_match line, current_component with
        | Some layer, Some name =>
            components <- dict_modify components name (ComponentUpdate.set_layer layer) ;;
            Ok (current_component, components)
        | _, _ =>
        match rot_match line, current_component with
        | Some rotation, Some name =>
            let value :=
              match float rotation with
              | Ok r => int_of_float r
              | Raise _ => 0%Z
              end in
            components <- dict_modify components name (ComponentUpdate.set_rotation value) ;;
            Ok (current_component, components)
        | _, _ =>
        match quoted_match "SHAPE" line, current_component with
        | Some shape, Some name =>
            components <- dict_modify components name (ComponentUpdate.set_shape shape) ;;
            Ok (current_component, components)
        | _, _ =>
            components <- flag_step "MIRRORX" ComponentUpdate.set_mirror_x line
                                    current_component components ;;
            components <- flag_step "MIRRORY" ComponentUpdate.set_mirror_y line
                                    current_component components ;;
            components <- flag_step "FLIP" ComponentUpdate.set_flip line
                                    current_component components ;;
            Ok (current_component, components)
        end end end end end
    end.

Definition _parse_components (components_section : string) (components : components_t)
  : result components_t :=
  st <- for_each parse_components_line (map strip (split_lines components_section))
                 (None, components) ;;
  Ok (snd st).

(** ** SIGNALS *)

(** [re.match] of the NODE pattern: the two groups. *)
Definition node_match (line : string) : option (string * string) :=
  s <~ literal "NODE" line ;;
  s <~ spaces1 s ;;
  s <~ literal (String dquote EmptyString) s ;;
  c <~ many1 not_dquote s ;;
  s <~ literal (String dquote EmptyString) (snd c) ;;
  s <~ spaces1 s ;;
  s <~ literal (String dquote EmptyString) s ;;
  p <~ many1 not_dquote s ;;
  _ <~ literal (String dquote EmptyString) (snd p) ;;
  Some (fst c, fst p).

(** The body of the loop of [_parse_signals] on a stripped line: the state is
    [current_signal] and [self.signals], a [defaultdict(list)]. *)
Definition parse_signals_line (st : option string * signals_t) (line : string)
  : option string * signals_t :=
  let '(current_signal, signals) := st in
  if line =? "" then st
  else
    match quoted_match "SIGNAL" line with
    | Some name => (Some name, signals)
    | None =>
        match node_match line, current_signal with
        | Some node, Some name => (current_signal, dict_append signals name node)
        | _, _ => st
        end
    end.

Definition parse_signals_lines (lines : list string) (st : option string * signals_t)
  : option string * signals_t :=
  fold_left parse_signals_line lines st.

Definition _parse_signals (signals_section : string) (signals : signals_t) : signals_t :=
  snd (parse_signals_lines (map strip (split_lines signals_section)) (None, signals)).

(** ** [parse]: from the text of the document to the resolved pins *)

Module Parser.
Record t : Type := mk
  { units : string;
    board_outline : list segment;
    shapes : shapes_t;
    components : components_t;
    signals : signals_t;
    pins : list Pin.t }.
End Parser.

(** [GencadParser(file_path).parse()] on the text read from the file: the
    attributes of the parser object afterwards, or the exception [parse] logs
    and raises again. *)
Definition parse (content : string) : result Parser.t :=
  let units := _parse_header (_extract_section content "HEADER" "ENDHEADER") "INCH" in
  board_outline <- _parse_board (_extract_section content "BOARD" "ENDBOARD") [] ;;
  shapes <- _parse_shapes (_extract_section content "SHAPES" "ENDSHAPES") ;;
  components <- _parse_components
                  (_extract_section content "COMPONENTS" "ENDCOMPONENTS") [] ;;
  let signals := _parse_signals (_extract_section content "SIGNALS" "ENDSIGNALS") [] in
  pins <- _calculate_pin_positions signals shapes components ;;
  Ok (Parser.mk units board_outline shapes components signals pins).

(** ** Counting resolved pins *)

(** The number of pins a component contributes: the pins of its shape when
    the shape is known, none otherwise. *)
Definition resolved_pin_count (shapes : shapes_t) (entry : string * Component.t) : nat :=
  match Component.shape (snd entry) with
  | Some shape_name =>
      match dict_get String.eqb shapes shape_name with
      | Some shape_pins => length shape_pins
      | None => 0
      end
  | None => 0
  end.

(** ** More example lines *)

(** A PIN line whose x coordinate has two points. *)
Definition ex_bad_line : PinLine.t :=
  PinLine.mk " " "1" " " "PAD" " " "1.2.3" " " "0" (NoLayer "").

(** ** The SIGNALS section, line by line *)

(** The NODE lines that count, each with the net it is read under: the
    argument [current] is the net of the last SIGNAL line so far. *)
Fixpoint tagged_nodes (lines : list string) (current : option string)
  : list (string * (string * string)) :=
  match lines with
  | [] => []
  | line :: rest =>
      if line =? "" then tagged_nodes rest current
      else
        match quoted_match "SIGNAL" line with
        | Some name => tagged_nodes rest (Some name)
        | None =>
            match node_match line, current with
            | Some node, Some name => (name, node) :: tagged_nodes rest current
            | _, _ => tagged_nodes rest current
            end
        end
  end.

(** The nodes read under a given net, in the order of the lines. *)
Definition nodes_of {V : Type} (name : string) (tagged : list (string * V)) : list V :=
  map snd (filter (fun entry => fst entry =? name) tagged).

(** The text of a signal table. *)
Definition newline : ascii := "010"%char.

Definition signal_line (name : string) : string :=
  ("SIGNAL " ++ String dquote (name ++ String dquote ""))%string.

Definition node_line (node : string * string) : string :=
  ("NODE " ++ String dquote (fst node ++ String dquote (" " ++ String dquote (snd node
     ++ String dquote ""))))%string.

Definition render_signal_lines (signals : signals_t) : list string :=
  flat_map (fun '(name, nodes) => signal_line name :: map node_line nodes) signals.

Definition render_signals (signals : signals_t) : string :=
  join (String newline "") (render_signal_lines signals).

(** A character of a name: anything but the double quote and the newline. *)
Definition is_name_char (c : ascii) : bool :=
  not_dquote c && negb (Ascii.eqb c newline).

(** A signal table that a SIGNALS section can hold: non-empty names without
    double quote or newline, and at least one node for each net. *)
Definition wf_signals (signals : signals_t) : bool :=
  forallb (fun '(name, nodes) =>
             run is_name_char name
             && negb (match nodes with [] => true | _ => false end)
             && forallb (fun node => run is_name_char (fst node)
                                     && run is_name_char (snd node)) nodes)
          signals.
Definition not_newline (c : ascii) : bool := negb (Ascii.eqb c newline).

(** ** The lines of a COMPONENTS section *)

Definition matched {A : Type} (o : option A) : bool :=
  match o with
  | Some _ => true
  | None => false
  end.

(** The line matches one of the six patterns of [_parse_components]: under a
    current component such a line ends its iteration with [continue]. *)
Definition is_directive (line : string) : bool :=
  matched (quoted_match "COMPONENT" line)
  || matched (quoted_match "DEVICE" line)
  || matched (place_match line)
  || matched (layer_match line)
  || matched (rot_match line)
  || matched (quoted_match "SHAPE" line).

(** What one line does to the component table. *)
Inductive line_effect (line : string) (current : option string)
    (components : components_t) : option string -> components_t -> Prop :=
| effect_none : line_effect line current components current components
| effect_component name :
    quoted_match "COMPONENT" line = Some name ->
    line_effect line current components (Some name)
                (dict_set String.eqb components name ComponentUpdate.fresh)
| effect_field name f components' :
    current = Some name ->
    dict_modify components name f = Ok components' ->
    (exists v, f = ComponentUpdate.set_device v)
    \/ (exists x y, f = fun c => ComponentUpdate.set_y y (ComponentUpdate.set_x x c))
    \/ (exists v, f = ComponentUpdate.set_layer v)
    \/ (exists v, f = ComponentUpdate.set_rotation v)
    \/ (exists v, f = ComponentUpdate.set_shape v) ->
    line_effect line current components current components'
| effect_flags name c1 c2 components' :
    current = Some name ->
    is_directive line = false ->
    flag_step "MIRRORX" ComponentUpdate.set_mirror_x line current components = Ok c1 ->
    flag_step "MIRRORY" ComponentUpdate.set_mirror_y line current c1 = Ok c2 ->
    flag_step "FLIP" ComponentUpdate.set_flip line current c2 = Ok components' ->
    line_effect line current components current components'.

(** The names of the table stay distinct, and the current component is one
    of them. *)
Definition components_state_ok (st : option string * components_t) : Prop :=
  (forall name, fst st = Some name -> In name (map fst (snd st)))
  /\ NoDup (map fst (snd st)).

(** A COMPONENTS section in which a directive carries a flag word. *)
Definition ex_flag_section : string :=
  join (String newline "")
       ["COMPONENT " ++ String dquote ("U1" ++ String dquote "");
        "DEVICE " ++ String dquote ("FLIPFLOP" ++ String dquote "");
        "LAYER TOP MIRRORX";
        "MIRRORY"]%string.


(** A COMPONENTS section with a placed and an unplaced component. *)
Definition ex_place_section : string :=
  join (String newline "")
       ["COMPONENT " ++ String dquote ("U1" ++ String dquote "");
        "PLACE 1.5 -2";
        "COMPONENT " ++ String dquote ("U2" ++ String dquote "")]%string.

(** The flags of a component that are set, each with a line that sets it: a
    line of the section that matches no directive and contains the word. *)
Definition flags_from_plain_lines (lines : list string) (c : Component.t) : Prop :=
  (Component.mirror_x c = true ->
   exists line, In line lines /\ is_directive line = false
                /\ contains "MIRRORX" line = true)
  /\ (Component.mirror_y c = true ->
      exists line, In line lines /\ is_directive line = false
                   /\ contains "MIRRORY" line = true)
  /\ (Component.flip c = true ->
      exists line, In line lines /\ is_directive line = false
                   /\ contains "FLIP" line = true).

(** ** Example texts of the HEADER and BOARD sections *)



(** A BOARD section: two segments of the outline and a line of another
    kind. *)
Definition ex_board_section : string :=
  join (String newline "") ["LINE 0 0 10 0"; "LINE 10 0 10 5.5"; "ARC 1 1 2 2 3 3"].

(** ** Example documents *)

Definition lines_text (lines : list string) : string := join (String newline "") lines.



(** ** The exchange of [swap_diode_pins], row by row *)

(** The rows of a component: their indices, in the order of the table. *)
Definition rows_of (rows : list Row.t) (component : string) : list nat :=
  map fst (filter (fun entry => Row.component (snd entry) =? component) (enumerate rows)).

(** The row a row exchanges its coordinates with: the other row of its
    component, when the name of the component starts with "L-D" and the
    component has two rows in the table. *)
Definition partner (rows : list Row.t) (ref : nat) : option nat :=
  match nth_error rows ref with
  | Some row =>
      if startswith (Row.component row) "L-D" then
        match rows_of rows (Row.component row) with
        | [i; j] => Some (if (ref =? i)%nat then j else i)
        | _ => None
        end
      else None
  | None => None
  end.

Definition exchanged_row (rows : list Row.t) (ref : nat) (row : Row.t) : Row.t :=
  match partner rows ref with
  | Some j =>
      match nth_error rows j with
      | Some other => Row.set_xy row (Row.x other) (Row.y other)
      | None => row
      end
  | None => row
  end.

Definition exchanged (rows : list Row.t) : list Row.t :=
  map (fun entry => exchanged_row rows (fst entry) (snd entry)) (enumerate rows).

(** ** Pin names within a shape *)

(** No shape of the table has two pins of the same name. *)
Definition distinct_pin_names (shapes : shapes_t) : Prop :=
  forall shape_name shape_pins,
    dict_get String.eqb shapes shape_name = Some shape_pins ->
    NoDup (map ShapePin.name shape_pins).

(** A document with one shape of two pins and a placed diode. *)
Definition ex_document_diode : string :=
  lines_text
    ["$SHAPES";
     "SHAPE " ++ String dquote ("D" ++ String dquote "");
     "PIN " ++ String dquote ("2" ++ String dquote " PAD 1 0");
     "PIN " ++ String dquote ("1" ++ String dquote " PAD 0 0");
     "$ENDSHAPES";
     "$COMPONENTS";
     "COMPONENT " ++ String dquote ("L-D1" ++ String dquote "");
     "SHAPE " ++ String dquote ("D" ++ String dquote "");
     "PLACE 10 10";
     "COMPONENT " ++ String dquote ("R1" ++ String dquote "");
     "SHAPE " ++ String dquote ("D" ++ String dquote "");
     "PLACE 20 10";
     "$ENDCOMPONENTS"]%string.

(** * Proofs *)

(** ** The resolver, one component at a time *)

Lemma shape_pins_loop_eq signals comp_name comp_x comp_y rotation mirror_x mirror_y
    flip is_diode shape_pins pins diode_pins :
  shape_pins_loop signals comp_name comp_x comp_y rotation mirror_x mirror_y flip
                  is_diode shape_pins pins diode_pins
  = let f := pin_data signals comp_name comp_x comp_y rotation mirror_x mirror_y flip in
    if is_diode then (pins, diode_pins ++ map f shape_pins)
    else (pins ++ map f shape_pins, diode_pins).
Proof.
  unfold shape_pins_loop.
  revert pins diode_pins.
  induction shape_pins as [|sp sps IH]; intros pins diode_pins; cbn.
  - destruct is_diode; now rewrite app_nil_r.
  - destruct is_diode; rewrite IH; cbn; now rewrite <- app_assoc.
Qed.

Lemma component_step_no_shape signals shapes pins comp_name comp_data :
  Component.shape comp_data = None ->
  component_step signals shapes pins (comp_name, comp_data) = Ok pins.
Proof. intros H. unfold component_step. now rewrite H. Qed.

Lemma component_step_unknown_shape signals shapes pins comp_name comp_data shape_name :
  Component.shape comp_data = Some shape_name ->
  dict_get String.eqb shapes shape_name = None ->
  component_step signals shapes pins (comp_name, comp_data) = Ok pins.
Proof. intros H1 H2. unfold component_step. now rewrite H1, H2. Qed.

Lemma component_step_resolved signals shapes pins comp_name comp_data shape_name
    shape_pins comp_x comp_y :
  Component.shape comp_data = Some shape_name ->
  dict_get String.eqb shapes shape_name = Some shape_pins ->
  Component.x comp_data = Some comp_x ->
  Component.y comp_data = Some comp_y ->
  component_step signals shapes pins (comp_name, comp_data)
  = Ok (pins ++
        let computed :=
          map (component_pin_data signals comp_name comp_data comp_x comp_y) shape_pins in
        if is_swapped comp_name (length shape_pins)
        then swap_coordinates (sort_by Pin.pin_name computed)
        else computed).
Proof.
  intros Hs Hd Hx Hy. unfold component_step, is_swapped, component_pin_data.
  rewrite Hs, Hd, Hx, Hy. cbn [getitem bind].
  rewrite shape_pins_loop_eq. cbv zeta.
  destruct (startswith comp_name "L-D") eqn:Hdiode; cbn [andb app].
  - rewrite length_map. now destruct (length shape_pins =? 2)%nat.
  - reflexivity.
Qed.

Lemma component_step_no_placement signals shapes pins comp_name comp_data shape_name
    shape_pins :
  Component.shape comp_data = Some shape_name ->
  dict_get String.eqb shapes shape_name = Some shape_pins ->
  Component.x comp_data = None ->
  component_step signals shapes pins (comp_name, comp_data) = Raise (KeyError "x").
Proof. intros Hs Hd Hx. unfold component_step. now rewrite Hs, Hd, Hx. Qed.

(** ** The transform *)

Lemma rotate_point_spec x y angle_deg :
  _rotate_point x y angle_deg = spec_rotate angle_deg (x, y).
Proof.
  unfold _rotate_point, spec_rotate, radians. cbn [fst snd].
  replace (IZR angle_deg * PI / 180)%R with (IZR angle_deg * (PI / 180))%R by lra.
  reflexivity.
Qed.

Lemma rotate_point_0 x y : _rotate_point x y 0 = (x, y).
Proof.
  unfold _rotate_point, radians.
  replace (0 * (PI / 180))%R with 0%R by lra.
  rewrite cos_0, sin_0. f_equal; lra.
Qed.

Lemma pin_data_position signals comp_name comp_x comp_y rotation mirror_x mirror_y flip sp :
  let p := pin_data signals comp_name comp_x comp_y rotation mirror_x mirror_y flip sp in
  (Pin.x p, Pin.y p)
  = spec_position mirror_x mirror_y rotation (comp_x, comp_y)
                  (ShapePin.x sp, ShapePin.y sp).
Proof.
  unfold pin_data, spec_position, spec_translate, spec_mirror. cbn [fst snd].
  rewrite rotate_point_spec.
  unfold spec_rotate. cbn [fst snd Pin.x Pin.y]. f_equal; lra.
Qed.

Lemma pin_data_identity signals comp_name comp_x comp_y flip sp :
  let p := pin_data signals comp_name comp_x comp_y 0 false false flip sp in
  (Pin.x p, Pin.y p) = ((ShapePin.x sp + comp_x)%R, (ShapePin.y sp + comp_y)%R).
Proof.
  unfold pin_data. rewrite rotate_point_0. cbn. f_equal; lra.
Qed.

(** ** The resolver on the whole component table *)

Lemma component_step_app signals shapes pins entry :
  component_step signals shapes pins entry
  = (l <- component_pins signals shapes entry ;; Ok (pins ++ l)).
Proof.
  destruct entry as [comp_name comp_data]. unfold component_pins.
  destruct (Component.shape comp_data) as [shape_name|] eqn:Hs.
  2:{ rewrite !component_step_no_shape by assumption. cbn. now rewrite app_nil_r. }
  destruct (dict_get String.eqb shapes shape_name) as [shape_pins|] eqn:Hd.
  2:{ rewrite !(component_step_unknown_shape _ _ _ _ _ _ Hs Hd). cbn.
      now rewrite app_nil_r. }
  unfold component_step. rewrite Hs, Hd.
  destruct (Component.x comp_data) as [comp_x|]; [|reflexivity].
  destruct (Component.y comp_data) as [comp_y|]; [|reflexivity].
  cbn [getitem bind]. rewrite !shape_pins_loop_eq. cbv zeta.
  destruct (startswith comp_name "L-D"); cbn [andb app bind].
  - now destruct (length _ =? 2)%nat.
  - reflexivity.
Qed.

Lemma for_each_component_blocks signals shapes components : forall pins out,
  for_each (component_step signals shapes) components pins = Ok out ->
  exists blocks,
    Forall2 (fun entry block => component_pins signals shapes entry = Ok block)
            components blocks
    /\ out = pins ++ concat blocks.
Proof.
  induction components as [|entry components IH]; intros pins out H; cbn in H.
  - injection H as <-. exists []. split; [constructor|]. cbn. now rewrite app_nil_r.
  - rewrite component_step_app in H.
    destruct (component_pins signals shapes entry) as [block|e] eqn:Hb; cbn in H;
      [|discriminate].
    apply IH in H as (blocks & HF & ->).
    exists (block :: blocks). split; [now constructor|].
    cbn. now rewrite app_assoc.
Qed.

Lemma calculate_blocks signals shapes components pins :
  _calculate_pin_positions signals shapes components = Ok pins ->
  exists blocks,
    Forall2 (fun entry block => component_pins signals shapes entry = Ok block)
            components blocks
    /\ pins = concat blocks.
Proof.
  intros H. apply for_each_component_blocks in H as (blocks & HF & ->).
  now exists blocks.
Qed.

Lemma blocks_complete signals shapes components : forall blocks,
  Forall2 (fun entry block => component_pins signals shapes entry = Ok block)
          components blocks ->
  for_each (component_step signals shapes) components [] = Ok (concat blocks).
Proof.
  enough (forall blocks pins,
    Forall2 (fun entry block => component_pins signals shapes entry = Ok block)
            components blocks ->
    for_each (component_step signals shapes) components pins = Ok (pins ++ concat blocks))
    as H by (intros blocks HF; exact (H blocks [] HF)).
  induction components as [|entry components IH]; intros blocks pins HF;
    inversion HF as [|? block ? blocks' Hb HF']; subst; cbn.
  - now rewrite app_nil_r.
  - rewrite component_step_app, Hb. cbn. rewrite IH with (blocks := blocks') by assumption.
    now rewrite app_assoc.
Qed.

(** The block of a component of the table inside the resolved pin list. *)
Lemma calculate_block_of signals shapes components pins entry :
  _calculate_pin_positions signals shapes components = Ok pins ->
  In entry components ->
  exists block before after,
    component_pins signals shapes entry = Ok block
    /\ pins = before ++ block ++ after.
Proof.
  intros H Hin. apply calculate_blocks in H as (blocks & HF & ->).
  apply in_split in Hin as (c1 & c2 & ->).
  apply Forall2_app_inv_l in HF as (b1 & b2 & _ & HF2 & ->).
  inversion HF2 as [|? block ? b2' Hb _]; subst.
  exists block, (concat b1), (concat b2'). split; [assumption|].
  now rewrite concat_app.
Qed.

Lemma component_pins_resolved signals shapes comp_name comp_data shape_name
    shape_pins block :
  Component.shape comp_data = Some shape_name ->
  dict_get String.eqb shapes shape_name = Some shape_pins ->
  component_pins signals shapes (comp_name, comp_data) = Ok block ->
  exists comp_x comp_y,
    Component.x comp_data = Some comp_x /\ Component.y comp_data = Some comp_y
    /\ block =
       let computed :=
         map (component_pin_data signals comp_name comp_data comp_x comp_y) shape_pins in
       if is_swapped comp_name (length shape_pins)
       then swap_coordinates (sort_by Pin.pin_name computed)
       else computed.
Proof.
  intros Hs Hd H. unfold component_pins in H.
  destruct (Component.x comp_data) as [comp_x|] eqn:Hx.
  2:{ unfold component_step in H. rewrite Hs, Hd, Hx in H. discriminate. }
  destruct (Component.y comp_data) as [comp_y|] eqn:Hy.
  2:{ unfold component_step in H. rewrite Hs, Hd, Hx, Hy in H. discriminate. }
  rewrite (component_step_resolved _ _ _ _ _ _ _ _ _ Hs Hd Hx Hy) in H.
  injection H as <-. now exists comp_x, comp_y.
Qed.

(** ** Sorting and the exchange of coordinates *)

Lemma sort_by_two {A : Type} (key : A -> string) (a b : A) :
  sort_by key [a; b] = if String.ltb (key b) (key a) then [b; a] else [a; b].
Proof. reflexivity. Qed.

Lemma sort_insert_perm {A : Type} (key : A -> string) (a : A) (l : list A) :
  Permutation (sort_insert key a l) (a :: l).
Proof.
  induction l as [|b l IH]; cbn; [reflexivity|].
  destruct (String.ltb (key b) (key a)); [|reflexivity].
  rewrite IH. apply perm_swap.
Qed.

Lemma sort_by_perm {A : Type} (key : A -> string) (l : list A) :
  Permutation (sort_by key l) l.
Proof.
  induction l as [|a l IH]; cbn; [reflexivity|].
  rewrite sort_insert_perm. now constructor.
Qed.

Lemma swap_coordinates_fields {B : Type} (f : string -> string -> string -> string -> B)
    (l : list Pin.t) :
  let g := fun p => f (Pin.component p) (Pin.pin_name p) (Pin.layer p) (Pin.signal p) in
  map g (swap_coordinates l) = map g l.
Proof. destruct l as [|p0 [|p1 rest]]; reflexivity. Qed.

(** ** C1: the transform of a pin *)

(** C1, as amended: for every component with a resolvable shape that is not
    a diode-prefixed component with exactly two pins, the resolver emits one
    pin per shape pin, in shape order, whose position is the shape-relative
    offset mirrored, then rotated counter-clockwise by the rotation in
    degrees, then translated by the placement; with rotation 0 and no mirror
    the position is offset plus placement. *)
Theorem C1_position_mirror_rotate_translate signals shapes components pins
    comp_name comp_data shape_name shape_pins :
  _calculate_pin_positions signals shapes components = Ok pins ->
  In (comp_name, comp_data) components ->
  Component.shape comp_data = Some shape_name ->
  dict_get String.eqb shapes shape_name = Some shape_pins ->
  is_swapped comp_name (length shape_pins) = false ->
  exists comp_x comp_y resolved before after,
    Component.x comp_data = Some comp_x /\
    Component.y comp_data = Some comp_y /\
    pins = before ++ resolved ++ after /\
    Forall2
      (fun sp p =>
         Pin.component p = comp_name /\
         Pin.pin_name p = ShapePin.name sp /\
         (Pin.x p, Pin.y p)
         = spec_position (Component.mirror_x comp_data) (Component.mirror_y comp_data)
                         (get_default (Component.rotation comp_data) 0%Z)
                         (comp_x, comp_y) (ShapePin.x sp, ShapePin.y sp) /\
         (get_default (Component.rotation comp_data) 0%Z = 0%Z ->
          Component.mirror_x comp_data = false ->
          Component.mirror_y comp_data = false ->
          (Pin.x p, Pin.y p)
          = ((ShapePin.x sp + comp_x)%R, (ShapePin.y sp + comp_y)%R)))
      shape_pins resolved.
Proof.
  intros Hcalc Hin Hs Hd Hgate.
  destruct (calculate_block_of _ _ _ _ _ Hcalc Hin) as (block & before & after & Hb & ->).
  destruct (component_pins_resolved _ _ _ _ _ _ _ Hs Hd Hb) as (comp_x & comp_y & Hx & Hy & ->).
  cbv zeta. rewrite Hgate.
  exists comp_x, comp_y, (map (component_pin_data signals comp_name comp_data comp_x comp_y) shape_pins),
    before, after.
  repeat split; try assumption.
  clear. induction shape_pins as [|sp sps IH]; cbn [map]; constructor; [|exact IH].
  unfold component_pin_data. repeat split.
  - apply pin_data_position.
  - intros -> -> ->. apply pin_data_identity.
Qed.

(** The transistor "Q1" of the example board: three pins, no exchange. *)
Lemma C1_position_mirror_rotate_translate_witness :
  exists comp_x comp_y resolved before after,
    Component.x (placed 20 5 false "T3") = Some comp_x /\
    Component.y (placed 20 5 false "T3") = Some comp_y /\
    [ pin_data ex_signals "Q1" 20 5 0 false false false (shape_pin "1" 0 0 "TOP");
      pin_data ex_signals "Q1" 20 5 0 false false false (shape_pin "2" 1 0 "TOP");
      pin_data ex_signals "Q1" 20 5 0 false false false (shape_pin "3" 2 0 "TOP") ]
    = before ++ resolved ++ after /\
    Forall2
      (fun sp p =>
         Pin.component p = "Q1" /\
         Pin.pin_name p = ShapePin.name sp /\
         (Pin.x p, Pin.y p)
         = spec_position false false 0%Z (comp_x, comp_y) (ShapePin.x sp, ShapePin.y sp) /\
         (0%Z = 0%Z -> false = false -> false = false ->
          (Pin.x p, Pin.y p)
          = ((ShapePin.x sp + comp_x)%R, (ShapePin.y sp + comp_y)%R)))
      [shape_pin "1" 0 0 "TOP"; shape_pin "2" 1 0 "TOP"; shape_pin "3" 2 0 "TOP"]
      resolved.
Proof.
  apply (C1_position_mirror_rotate_translate
           ex_signals ex_shapes [("Q1", placed 20 5 false "T3")] _
           "Q1" (placed 20 5 false "T3") "T3"
           [shape_pin "1" 0 0 "TOP"; shape_pin "2" 1 0 "TOP"; shape_pin "3" 2 0 "TOP"]).
  - reflexivity.
  - left; reflexivity.
  - reflexivity.
  - reflexivity.
  - reflexivity.
Defined.

Lemma calculate_ex_diode :
  _calculate_pin_positions ex_signals ex_shapes ex_diode
  = Ok [ Pin.mk "L-D1" "1" (10 + 1) (10 + 0) "TOP" "GND";
         Pin.mk "L-D1" "2" (10 + 0) (10 + 0) "BOTTOM" "VCC" ].
Proof.
  unfold _calculate_pin_positions, ex_diode. cbn [for_each].
  rewrite (component_step_resolved ex_signals ex_shapes [] "L-D1" _ "D2"
             [shape_pin "1" 0 0 "TOP"; shape_pin "2" 1 0 "BOTTOM"] 10 10)
    by reflexivity.
  cbn [app map length]. change (is_swapped "L-D1" 2) with true. cbv iota.
  rewrite sort_by_two.
  change (String.ltb _ _) with false. cbv iota.
  unfold swap_coordinates, component_pin_data, pin_data.
  rewrite !rotate_point_0. reflexivity.
Qed.

(** C1, counterexample: the diode "L-D1", rotation 0 and no mirror, placed at
    (10,10) with the pins "1" at offset (0,0) and "2" at (1,0): the resolved
    pin "1" is at (11,10), not at offset plus placement. *)
Lemma C1_counterexample :
  exists pins,
    _calculate_pin_positions ex_signals ex_shapes ex_diode = Ok pins /\
    ~ (forall sp, In sp [shape_pin "1" 0 0 "TOP"; shape_pin "2" 1 0 "BOTTOM"] ->
       exists p, In p pins /\ Pin.pin_name p = ShapePin.name sp /\
                 (Pin.x p, Pin.y p)
                 = ((ShapePin.x sp + 10)%R, (ShapePin.y sp + 10)%R)).
Proof.
  eexists. split; [apply calculate_ex_diode|].
  intros H. destruct (H (shape_pin "1" 0 0 "TOP")) as (p & Hin & Hname & Hpos).
  - now left.
  - destruct Hin as [<-|[<-|[]]]; cbn in Hname, Hpos.
    + injection Hpos as Hx _. lra.
    + discriminate.
Qed.

(** ** C2: the diode rule *)

(** C2: a component whose name starts with "L-D" and whose shape has exactly
    two pins contributes its two pins sorted by pin name, the first carrying
    the coordinates computed for the second and the second those of the
    first, every other field as computed; a diode-prefixed component with
    another number of pins contributes its pins as computed, in shape order. *)
Theorem C2_diode_pins_exchanged signals shapes components pins comp_name comp_data
    shape_name shape_pins :
  _calculate_pin_positions signals shapes components = Ok pins ->
  In (comp_name, comp_data) components ->
  Component.shape comp_data = Some shape_name ->
  dict_get String.eqb shapes shape_name = Some shape_pins ->
  startswith comp_name "L-D" = true ->
  exists comp_x comp_y before after,
    Component.x comp_data = Some comp_x /\
    Component.y comp_data = Some comp_y /\
    let computed := component_pin_data signals comp_name comp_data comp_x comp_y in
    (forall a b, shape_pins = [a; b] ->
       exists p0 p1,
         sort_by Pin.pin_name [computed a; computed b] = [p0; p1] /\
         Permutation [p0; p1] [computed a; computed b] /\
         String.ltb (Pin.pin_name p1) (Pin.pin_name p0) = false /\
         pins = before
                ++ [ Pin.mk (Pin.component p0) (Pin.pin_name p0) (Pin.x p1) (Pin.y p1)
                            (Pin.layer p0) (Pin.signal p0);
                     Pin.mk (Pin.component p1) (Pin.pin_name p1) (Pin.x p0) (Pin.y p0)
                            (Pin.layer p1) (Pin.signal p1) ]
                ++ after) /\
    (length shape_pins <> 2 -> pins = before ++ map computed shape_pins ++ after).
Proof.
  intros Hcalc Hin Hs Hd Hdiode.
  destruct (calculate_block_of _ _ _ _ _ Hcalc Hin) as (block & before & after & Hb & ->).
  destruct (component_pins_resolved _ _ _ _ _ _ _ Hs Hd Hb) as (comp_x & comp_y & Hx & Hy & ->).
  exists comp_x, comp_y, before, after. repeat split; try assumption.
  - intros a b ->. cbv zeta. unfold is_swapped. rewrite Hdiode. cbn [length Nat.eqb andb map].
    rewrite sort_by_two.
    destruct (String.ltb _ _) eqn:Hlt.
    + eexists _, _. split; [reflexivity|]. split; [apply perm_swap|].
      split; [|reflexivity].
      unfold String.ltb in *. rewrite String.compare_antisym.
      destruct (String.compare _ _); cbn; congruence.
    + eexists _, _. split; [reflexivity|]. split; [reflexivity|].
      split; [exact Hlt|reflexivity].
  - intros Hlen. cbv zeta. unfold is_swapped. rewrite Hdiode.
    apply Nat.eqb_neq in Hlen. now rewrite Hlen.
Qed.

(** The diode "L-D1" of the example board. *)
Lemma C2_diode_pins_exchanged_witness :
  exists comp_x comp_y before after,
    Component.x (placed 10 10 false "D2") = Some comp_x /\
    Component.y (placed 10 10 false "D2") = Some comp_y /\
    let computed := component_pin_data ex_signals "L-D1" (placed 10 10 false "D2")
                                       comp_x comp_y in
    (forall a b, [shape_pin "1" 0 0 "TOP"; shape_pin "2" 1 0 "BOTTOM"] = [a; b] ->
       exists p0 p1,
         sort_by Pin.pin_name [computed a; computed b] = [p0; p1] /\
         Permutation [p0; p1] [computed a; computed b] /\
         String.ltb (Pin.pin_name p1) (Pin.pin_name p0) = false /\
         swap_coordinates
           (sort_by Pin.pin_name
              (map (component_pin_data ex_signals "L-D1" (placed 10 10 false "D2") 10 10)
                   [shape_pin "1" 0 0 "TOP"; shape_pin "2" 1 0 "BOTTOM"]))
         = before
           ++ [ Pin.mk (Pin.component p0) (Pin.pin_name p0) (Pin.x p1) (Pin.y p1)
                       (Pin.layer p0) (Pin.signal p0);
                Pin.mk (Pin.component p1) (Pin.pin_name p1) (Pin.x p0) (Pin.y p0)
                       (Pin.layer p1) (Pin.signal p1) ]
           ++ after) /\
    (length [shape_pin "1" 0 0 "TOP"; shape_pin "2" 1 0 "BOTTOM"] <> 2 ->
     swap_coordinates
       (sort_by Pin.pin_name
          (map (component_pin_data ex_signals "L-D1" (placed 10 10 false "D2") 10 10)
               [shape_pin "1" 0 0 "TOP"; shape_pin "2" 1 0 "BOTTOM"]))
     = before ++ map computed [shape_pin "1" 0 0 "TOP"; shape_pin "2" 1 0 "BOTTOM"]
              ++ after).
Proof.
  apply (C2_diode_pins_exchanged ex_signals ex_shapes ex_diode _
           "L-D1" (placed 10 10 false "D2") "D2"
           [shape_pin "1" 0 0 "TOP"; shape_pin "2" 1 0 "BOTTOM"]).
  - reflexivity.
  - left; reflexivity.
  - reflexivity.
  - reflexivity.
  - reflexivity.
Defined.

(** ** C3: the layer of a resolved pin *)

(** C3, counterexample: the flipped component "V1" whose only shape pin is on
    the layer "INNER": the resolved pin is on "TOP", the layer did not pass
    through. *)
Lemma C3_counterexample :
  dict_get String.eqb ex_shapes "VIA" = Some [shape_pin "1" 0 0 "INNER"] /\
  exists p,
    _calculate_pin_positions ex_signals ex_shapes ex_flipped = Ok [p] /\
    Pin.pin_name p = "1" /\ Pin.layer p = "TOP" /\ Pin.layer p <> "INNER".
Proof.
  split; [reflexivity|].
  eexists. split; [reflexivity|]. cbn. repeat split. discriminate.
Qed.

(** C3, as amended: the resolved layer starts from the layer of the shape pin;
    when the flip flag of the component is set, "TOP" becomes "BOTTOM" and
    every other layer string, "BOTTOM" included, becomes "TOP"; when it is not
    set the layer is kept. *)
Theorem C3_layer_flip signals shapes components pins comp_name comp_data
    shape_name shape_pins :
  _calculate_pin_positions signals shapes components = Ok pins ->
  In (comp_name, comp_data) components ->
  Component.shape comp_data = Some shape_name ->
  dict_get String.eqb shapes shape_name = Some shape_pins ->
  exists resolved before after,
    pins = before ++ resolved ++ after /\
    Permutation
      (map (fun p => (Pin.component p, Pin.pin_name p, Pin.layer p)) resolved)
      (map (fun sp =>
              (comp_name, ShapePin.name sp,
               if Component.flip comp_data
               then (if ShapePin.layer sp =? "TOP" then "BOTTOM" else "TOP")
               else ShapePin.layer sp))
           shape_pins).
Proof.
  intros Hcalc Hin Hs Hd.
  destruct (calculate_block_of _ _ _ _ _ Hcalc Hin) as (block & before & after & Hb & ->).
  destruct (component_pins_resolved _ _ _ _ _ _ _ Hs Hd Hb) as (comp_x & comp_y & Hx & Hy & ->).
  eexists _, before, after. split; [reflexivity|]. cbv zeta.
  set (computed := map _ shape_pins).
  assert (Hc : map (fun p => (Pin.component p, Pin.pin_name p, Pin.layer p)) computed
               = map (fun sp =>
                        (comp_name, ShapePin.name sp,
                         if Component.flip comp_data
                         then (if ShapePin.layer sp =? "TOP" then "BOTTOM" else "TOP")
                         else ShapePin.layer sp)) shape_pins).
  { unfold computed. rewrite map_map. reflexivity. }
  rewrite <- Hc.
  destruct (is_swapped comp_name (length shape_pins)); [|reflexivity].
  rewrite (swap_coordinates_fields (fun c n l _ => (c, n, l))).
  apply Permutation_map, sort_by_perm.
Qed.

(** The flipped component "V1" of the example board. *)
Lemma C3_layer_flip_witness :
  exists resolved before after,
    [ pin_data ex_signals "V1" 3 4 0 false false true (shape_pin "1" 0 0 "INNER") ]
    = before ++ resolved ++ after /\
    Permutation
      (map (fun p => (Pin.component p, Pin.pin_name p, Pin.layer p)) resolved)
      (map (fun sp =>
              ("V1", ShapePin.name sp,
               if Component.flip (placed 3 4 true "VIA")
               then (if ShapePin.layer sp =? "TOP" then "BOTTOM" else "TOP")
               else ShapePin.layer sp))
           [shape_pin "1" 0 0 "INNER"]).
Proof.
  apply (C3_layer_flip ex_signals ex_shapes ex_flipped _ "V1" (placed 3 4 true "VIA")
                       "VIA" [shape_pin "1" 0 0 "INNER"]).
  - reflexivity.
  - left; reflexivity.
  - reflexivity.
  - reflexivity.
Defined.

(** ** C4: exceptions of the resolver *)

(** A component without a shape reference, or whose shape is unknown, adds no
    pin and the resolution goes on. *)
Lemma skipped_component_adds_no_pin signals shapes comp_name comp_data :
  (Component.shape comp_data = None \/
   exists shape_name, Component.shape comp_data = Some shape_name /\
                      dict_get String.eqb shapes shape_name = None) ->
  component_pins signals shapes (comp_name, comp_data) = Ok [].
Proof.
  intros [H|(shape_name & H1 & H2)]; unfold component_pins.
  - now apply component_step_no_shape.
  - now apply component_step_unknown_shape with shape_name.
Qed.

(** When every component with a resolvable shape has a placement the
    resolution returns. *)
Lemma placed_components_resolve signals shapes components :
  (forall comp_name comp_data shape_name,
     In (comp_name, comp_data) components ->
     Component.shape comp_data = Some shape_name ->
     dict_get String.eqb shapes shape_name <> None ->
     Component.x comp_data <> None /\ Component.y comp_data <> None) ->
  exists pins, _calculate_pin_positions signals shapes components = Ok pins.
Proof.
  unfold _calculate_pin_positions. generalize (@nil Pin.t).
  induction components as [|[comp_name comp_data] components IH]; intros pins H; cbn [for_each].
  - now exists pins.
  - assert (Hstep : exists pins', component_step signals shapes pins (comp_name, comp_data)
                                  = Ok pins').
    { destruct (Component.shape comp_data) as [shape_name|] eqn:Hs.
      2:{ eexists. now apply component_step_no_shape. }
      destruct (dict_get String.eqb shapes shape_name) as [shape_pins|] eqn:Hd.
      2:{ eexists. now apply component_step_unknown_shape with shape_name. }
      destruct (H comp_name comp_data shape_name) as [Hx Hy];
        [now left|assumption|congruence|].
      destruct (Component.x comp_data) as [comp_x|] eqn:Ex; [|congruence].
      destruct (Component.y comp_data) as [comp_y|] eqn:Ey; [|congruence].
      eexists. eapply component_step_resolved; eassumption. }
    destruct Hstep as [pins' ->]. apply IH.
    intros n d s Hin. apply (H n d s). now right.
Qed.

(** C4, the failing input: the component "U2" names the known shape "D2" and
    has no PLACE line; the resolution raises [KeyError] on its placement and
    the pins of "Q1", resolved before it, are not returned. *)
Theorem C4_unplaced_component_raises :
  _calculate_pin_positions ex_signals ex_shapes ex_unplaced = Raise (KeyError "x").
Proof. reflexivity. Qed.

(** ** C5: the net of a pin *)

Lemma endpoint_in_spec component pin connections :
  endpoint_in component pin connections = true <-> In (component, pin) connections.
Proof.
  unfold endpoint_in. rewrite existsb_exists. split.
  - intros ([c p] & Hin & Heq). unfold pair_eqb in Heq. cbn in Heq.
    apply andb_true_iff in Heq as [H1 H2].
    apply String.eqb_eq in H1, H2. now subst.
  - intros Hin. exists (component, pin). split; [assumption|].
    unfold pair_eqb. cbn. now rewrite !String.eqb_refl.
Qed.




(** ** C6: the netlist summary *)

Lemma netlist_signal_pins_labels pins connections :
  map (fun p => endpoint_label (NetPin.component p) (NetPin.pin p))
      (netlist_signal_pins pins connections)
  = map (fun '(component, pin) => endpoint_label component pin)
        (resolved_endpoints pins connections).
Proof.
  unfold netlist_signal_pins, resolved_endpoints, find_pin_data.
  induction connections as [|[component pin] connections IH]; cbn [flat_map filter map];
    [reflexivity|].
  destruct (find _ pins) as [pin_data|] eqn:Hfind.
  - assert (Hex : existsb (fun p => (Pin.component p =? component)
                                    && (Pin.pin_name p =? pin)) pins = true).
    { apply existsb_exists. exists pin_data. apply find_some in Hfind. exact Hfind. }
    rewrite Hex. cbn. now rewrite IH.
  - assert (Hex : existsb (fun p => (Pin.component p =? component)
                                    && (Pin.pin_name p =? pin)) pins = false).
    { apply not_true_is_false. intros H. apply existsb_exists in H as (p & Hin & Hp).
      apply (find_none _ _ Hfind) in Hin. cbv beta in Hin. congruence. }
    rewrite Hex. cbn. exact IH.
Qed.

(** C6, counterexample: the net "VCC" lists the endpoint ("X9", "1"), for
    which no pin was resolved: its row joins two endpoints and counts two,
    not the three endpoints of the net. *)
Lemma C6_counterexample :
  dict_get String.eqb ex_signals "VCC" = Some [("L-D1", "2"); ("Q1", "1"); ("X9", "1")] /\
  export_netlist_to_csv ex_signals ex_pins
  = [ NetRow.mk "GND" 2 "L-D1:1, Q1:3"; NetRow.mk "VCC" 2 "L-D1:2, Q1:1" ] /\
  ~ (forall net row,
       In (net, row) (combine ex_signals (export_netlist_to_csv ex_signals ex_pins)) ->
       NetRow.pin_count row = length (snd net) /\
       NetRow.components row
       = join ", " (map (fun '(component, pin) => (component ++ ":" ++ pin)%string)
                        (snd net))).
Proof.
  split; [reflexivity|]. split; [reflexivity|].
  intros H.
  destruct (H ("VCC", [("L-D1", "2"); ("Q1", "1"); ("X9", "1")])
              (NetRow.mk "VCC" 2 "L-D1:2, Q1:1")) as [Hcount _].
  - right; left; reflexivity.
  - discriminate Hcount.
Qed.

(** C6, as amended: the netlist summary has exactly one row per net of the
    signal table, in table order; its components field joins with ", " the
    "component:pin" of every endpoint of the net for which a resolved pin
    exists (the other endpoints are left out), and its pin_count is the
    number of those endpoints. *)
Theorem C6_netlist_row_per_net signals pins :
  Forall2
    (fun net row =>
       let endpoints := resolved_endpoints pins (snd net) in
       NetRow.signal row = fst net /\
       NetRow.components row
       = join ", " (map (fun '(component, pin) => (component ++ ":" ++ pin)%string)
                        endpoints) /\
       NetRow.pin_count row = length endpoints)
    signals (export_netlist_to_csv signals pins).
Proof.
  unfold export_netlist_to_csv, netlist. rewrite map_map.
  induction signals as [|[signal_name connections] signals IH]; cbn [map];
    constructor; [|exact IH].
  cbn [fst snd NetRow.signal NetRow.components NetRow.pin_count Net.signal Net.pins
       Net.pin_count].
  repeat split.
  - now rewrite netlist_signal_pins_labels.
  - rewrite <- (length_map (fun p => endpoint_label (NetPin.component p) (NetPin.pin p))).
    rewrite netlist_signal_pins_labels. now rewrite length_map.
Qed.

(** ** Dictionaries of lists *)

Lemma dict_append_keys {V : Type} (d : list (string * list V)) k v :
  forall k', In k' (map fst (dict_append d k v)) <-> k' = k \/ In k' (map fst d).
Proof.
  induction d as [|[k0 vs] d IH]; intros k'; cbn.
  - intuition congruence.
  - destruct (String.eqb_spec k k0) as [->|Hne]; cbn.
    + intuition congruence.
    + rewrite IH. intuition congruence.
Qed.

Lemma dict_append_NoDup {V : Type} (d : list (string * list V)) k v :
  NoDup (map fst d) -> NoDup (map fst (dict_append d k v)).
Proof.
  induction d as [|[k0 vs] d IH]; intros H; cbn.
  - constructor; [intros []|constructor].
  - inversion H as [|? ? Hnin Hnd]; subst.
    destruct (String.eqb_spec k k0) as [->|Hne]; cbn.
    + now constructor.
    + constructor; [|now apply IH].
      rewrite dict_append_keys. intros [->|Hin]; [now apply Hne|now apply Hnin].
Qed.

Lemma dict_append_get {V : Type} (d : list (string * list V)) k v k' :
  dict_get String.eqb (dict_append d k v) k'
  = if k' =? k then Some (get_default (dict_get String.eqb d k) [] ++ [v])
    else dict_get String.eqb d k'.
Proof.
  induction d as [|[k0 vs] d IH]; cbn [dict_append dict_get].
  - now destruct (k' =? k).
  - destruct (String.eqb_spec k k0) as [E|Hne]; cbn [dict_get].
    + subst k0. now destruct (k' =? k).
    + rewrite IH. destruct (String.eqb_spec k' k0) as [E|Hne'].
      * subst k0. destruct (String.eqb_spec k' k) as [E|_]; [now destruct Hne|reflexivity].
      * reflexivity.
Qed.

Lemma dict_get_In {V : Type} (d : list (string * V)) k v :
  dict_get String.eqb d k = Some v -> In (k, v) d.
Proof.
  induction d as [|[k0 v0] d IH]; cbn; [discriminate|].
  destruct (String.eqb_spec k k0) as [->|_].
  - intros [= ->]. now left.
  - intros H. right. now apply IH.
Qed.

Lemma dict_get_None {V : Type} (d : list (string * V)) k :
  dict_get String.eqb d k = None <-> ~ In k (map fst d).
Proof.
  induction d as [|[k0 v0] d IH]; cbn; [tauto|].
  destruct (String.eqb_spec k k0) as [->|Hne].
  - split; [discriminate|]. intros H. exfalso. apply H. now left.
  - rewrite IH. split; [|tauto]. intros H [->|Hin]; [now apply Hne|now apply H].
Qed.

(** ** C8: the connection table *)

Lemma group_by_signal_fold pins : forall d,
  NoDup (map fst d) ->
  let d' :=
    fold_left
      (fun signal_pins pin =>
         let signal := Pin.signal pin in
         if negb (signal =? "unconnected") then dict_append signal_pins signal pin
         else signal_pins)
      pins d in
  NoDup (map fst d') /\
  forall signal,
    dict_get String.eqb d' signal
    = match dict_get String.eqb d signal with
      | Some l =>
          Some (l ++ if signal =? "unconnected" then [] else pins_of_signal signal pins)
      | None =>
          if signal =? "unconnected" then None
          else match pins_of_signal signal pins with
               | [] => None
               | l => Some l
               end
      end.
Proof.
  induction pins as [|p pins IH]; intros d Hd; cbn [fold_left].
  - split; [assumption|]. intros signal. cbn.
    destruct (dict_get String.eqb d signal); [|now destruct (signal =? "unconnected")].
    now destruct (signal =? "unconnected"); rewrite app_nil_r.
  - cbv zeta. destruct (String.eqb_spec (Pin.signal p) "unconnected") as [Hu|Hu]; cbn [negb].
    + destruct (IH d Hd) as [Hnd Hget]. split; [assumption|].
      intros signal. rewrite Hget. unfold pins_of_signal. cbn [filter].
      destruct (String.eqb_spec (Pin.signal p) signal) as [<-|Hne]; [|reflexivity].
      rewrite Hu. reflexivity.
    + destruct (IH (dict_append d (Pin.signal p) p) (dict_append_NoDup _ _ _ Hd))
        as [Hnd Hget].
      split; [assumption|].
      intros signal. rewrite Hget, dict_append_get. unfold pins_of_signal. cbn [filter].
      destruct (String.eqb_spec signal (Pin.signal p)) as [->|Hne].
      * rewrite String.eqb_refl.
        destruct (String.eqb_spec (Pin.signal p) "unconnected") as [E|_]; [now destruct Hu|].
        destruct (dict_get String.eqb d (Pin.signal p)); cbn; [now rewrite <- app_assoc|].
        reflexivity.
      * destruct (String.eqb_spec (Pin.signal p) signal) as [E|_];
          [now destruct Hne|reflexivity].
Qed.

Lemma group_by_signal_spec pins :
  NoDup (map fst (group_by_signal pins)) /\
  forall signal,
    dict_get String.eqb (group_by_signal pins) signal
    = if signal =? "unconnected" then None
      else match pins_of_signal signal pins with
           | [] => None
           | l => Some l
           end.
Proof.
  destruct (group_by_signal_fold pins [] (NoDup_nil _)) as [H1 H2].
  split; [exact H1|]. intros signal. apply H2.
Qed.

Lemma nth_error_flat_map_seq {A B : Type} (g : A -> B) (l : list A) :
  flat_map (fun j => match nth_error l j with Some q => [g q] | None => [] end)
           (seq 0 (length l))
  = map g l.
Proof.
  induction l as [|a l IH]; [reflexivity|].
  cbn [length seq flat_map nth_error app map]. f_equal.
  rewrite <- seq_shift, flat_map_concat_map, map_map, <- flat_map_concat_map.
  exact IH.
Qed.

Lemma signal_connections_pairs signal pins :
  signal_connections signal pins
  = map (fun '(pin1, pin2) => connection signal pin1 pin2) (unordered_pairs pins).
Proof.
  unfold signal_connections, range.
  induction pins as [|a pins IH]; [reflexivity|].
  rewrite Nat.sub_0_r in *.
  cbn [length seq flat_map unordered_pairs]. rewrite map_app, map_map. f_equal.
  - cbn [Nat.add Nat.sub nth_error]. rewrite Nat.sub_0_r.
    rewrite <- seq_shift, flat_map_concat_map, map_map, <- flat_map_concat_map.
    cbn [nth_error]. apply nth_error_flat_map_seq.
  - rewrite <- IH, <- seq_shift, flat_map_concat_map, map_map, <- flat_map_concat_map.
    apply flat_map_ext. intros i.
    cbn [Nat.add Nat.sub nth_error].
    rewrite <- seq_shift, flat_map_concat_map, map_map, <- flat_map_concat_map.
    reflexivity.
Qed.

Lemma unordered_pairs_length {A : Type} (l : list A) :
  length (unordered_pairs l) = length l * (length l - 1) / 2.
Proof.
  induction l as [|a l IH]; [reflexivity|].
  cbn [unordered_pairs length]. rewrite length_app, length_map, IH.
  rewrite Nat.sub_succ, Nat.sub_0_r.
  destruct (length l) as [|n]; [reflexivity|].
  rewrite Nat.sub_succ, Nat.sub_0_r.
  replace (S (S n) * S n) with (S n * n + S n * 2) by lia.
  rewrite Nat.div_add by discriminate. lia.
Qed.

Lemma signal_connections_signal signal pins :
  Forall (fun row => Connection.signal row = signal) (signal_connections signal pins).
Proof.
  rewrite signal_connections_pairs. apply Forall_forall.
  intros row Hin. apply in_map_iff in Hin as ([p q] & <- & _). reflexivity.
Qed.

Lemma filter_all {A : Type} (f : A -> bool) (l : list A) :
  Forall (fun a => f a = true) l -> filter f l = l.
Proof.
  induction 1 as [|a l Ha _ IH]; cbn; [reflexivity|]. now rewrite Ha, IH.
Qed.

Lemma filter_none {A : Type} (f : A -> bool) (l : list A) :
  Forall (fun a => f a = false) l -> filter f l = [].
Proof.
  induction 1 as [|a l Ha _ IH]; cbn; [reflexivity|]. now rewrite Ha, IH.
Qed.

Lemma connections_of_signal (groups : list (string * list Pin.t)) signal :
  NoDup (map fst groups) ->
  filter (fun row => Connection.signal row =? signal)
         (flat_map (fun '(signal, pins) => signal_connections signal pins) groups)
  = match dict_get String.eqb groups signal with
    | Some pins => signal_connections signal pins
    | None => []
    end.
Proof.
  induction groups as [|[k pins] groups IH]; intros Hnd; [reflexivity|].
  inversion Hnd as [|? ? Hnin Hnd']; subst.
  cbn [flat_map dict_get]. rewrite filter_app, IH by assumption.
  destruct (String.eqb_spec signal k) as [->|Hne].
  - rewrite filter_all.
    + apply (proj2 (dict_get_None groups k)) in Hnin. rewrite Hnin. apply app_nil_r.
    + eapply Forall_impl; [|apply signal_connections_signal].
      intros row ->. apply String.eqb_refl.
  - rewrite filter_none; [reflexivity|].
    eapply Forall_impl; [|apply signal_connections_signal].
    intros row ->. now apply String.eqb_neq, not_eq_sym.
Qed.

(** C8: the rows of the connection table that carry a net other than
    "unconnected" are exactly the unordered pairs of the resolved pins
    assigned that net, one row per pair: n pins give n*(n-1)/2 rows; no row
    carries "unconnected". *)
Theorem C8_connection_rows_per_net pins signal :
  let rows :=
    filter (fun row => Connection.signal row =? signal) (export_connections_to_csv pins) in
  let net_pins := pins_of_signal signal pins in
  (signal <> "unconnected" ->
   rows = map (fun '(pin1, pin2) => connection signal pin1 pin2)
              (unordered_pairs net_pins) /\
   length rows = length net_pins * (length net_pins - 1) / 2 /\
   (length net_pins = 4 -> length rows = 6) /\
   (length net_pins = 1 -> length rows = 0)) /\
  (signal = "unconnected" -> rows = []).
Proof.
  cbv zeta. unfold export_connections_to_csv.
  destruct (group_by_signal_spec pins) as [Hnd Hget].
  rewrite connections_of_signal by assumption. rewrite Hget.
  split.
  - intros Hne. apply String.eqb_neq in Hne. rewrite Hne.
    assert (E : match pins_of_signal signal pins with
                | [] => []
                | _ :: _ => signal_connections signal (pins_of_signal signal pins)
                end
                = map (fun '(pin1, pin2) => connection signal pin1 pin2)
                      (unordered_pairs (pins_of_signal signal pins))).
    { destruct (pins_of_signal signal pins) eqn:E; [reflexivity|].
      apply signal_connections_pairs. }
    destruct (pins_of_signal signal pins) as [|p l] eqn:Epins.
    + cbn. repeat split; discriminate.
    + rewrite E. rewrite length_map, unordered_pairs_length.
      repeat split; intros ->; reflexivity.
  - intros ->. reflexivity.
Qed.

(** The net "VCC" of the example pins. *)
Lemma C8_connection_rows_per_net_witness :
  length (filter (fun row => Connection.signal row =? "VCC")
                 (export_connections_to_csv ex_pins))
  = length (pins_of_signal "VCC" ex_pins) * (length (pins_of_signal "VCC" ex_pins) - 1) / 2.
Proof.
  apply (proj1 (C8_connection_rows_per_net ex_pins "VCC")). discriminate.
Defined.

(** ** C9: the PIN line *)

Ltac split_andb :=
  repeat match goal with
         | H : (_ && _)%bool = true |- _ => apply andb_true_iff in H; destruct H
         end.

Ltac by_cases_on_char c :=
  destruct c as [[] [] [] [] [] [] [] []]; try reflexivity; try discriminate.

Lemma space_not_word c : is_space c = true -> is_word c = false.
Proof. by_cases_on_char c. Qed.

Lemma space_not_num c : is_space c = true -> is_num c = false.
Proof. by_cases_on_char c. Qed.

Lemma word_not_space c : is_word c = true -> is_space c = false.
Proof. by_cases_on_char c. Qed.

Lemma num_not_space c : is_num c = true -> is_space c = false.
Proof. by_cases_on_char c. Qed.

Lemma digit_not_space c : is_digit c = true -> is_space c = false.
Proof. by_cases_on_char c. Qed.

Lemma digit_is_word c : is_digit c = true -> is_word c = true.
Proof. by_cases_on_char c. Qed.

Lemma run_inv p s :
  run p s = true -> exists c s', s = String c s' /\ p c = true /\ all_chars p s' = true.
Proof.
  unfold run. destruct s as [|c s']; cbn; [discriminate|].
  intros H. apply andb_true_iff in H as [H1 H2]. now exists c, s'.
Qed.

Lemma span_app p a b :
  all_chars p a = true -> stops p b = true -> span p (a ++ b)%string = (a, b).
Proof.
  intros Ha Hb. induction a as [|c a IH]; cbn in *.
  - destruct b as [|c b]; [reflexivity|]. cbn in Hb |- *.
    apply negb_true_iff in Hb. now rewrite Hb.
  - apply andb_true_iff in Ha as [Hc Ha]. now rewrite Hc, (IH Ha).
Qed.

Lemma many1_app p a b :
  run p a = true -> stops p b = true -> many1 p (a ++ b)%string = Some (a, b).
Proof.
  intros Ha Hb. unfold many1.
  destruct (run_inv _ _ Ha) as (c & a' & -> & Hc & Ha').
  rewrite span_app; [reflexivity| |assumption].
  cbn. now rewrite Hc, Ha'.
Qed.

Lemma spaces1_app ws b :
  run is_space ws = true -> stops is_space b = true -> spaces1 (ws ++ b)%string = Some b.
Proof. intros Ha Hb. unfold spaces1. now rewrite many1_app. Qed.

(** A run of one class stops every class it excludes. *)
Lemma stops_run p q a b :
  (forall c, p c = true -> q c = false) ->
  run p a = true -> stops q (a ++ b)%string = true.
Proof.
  intros Hpq Ha. destruct (run_inv _ _ Ha) as (c & a' & -> & Hc & _).
  cbn. now rewrite (Hpq c Hc).
Qed.

Lemma optional_field_none p s :
  starts_field p s = false -> optional_field p s = (None, s).
Proof.
  unfold starts_field, optional_field, spaces1, many1.
  destruct (span is_space s) as [[|c ws] rest]; cbn; [reflexivity|].
  intros H. destruct rest as [|c' rest']; cbn; [reflexivity|].
  now rewrite H.
Qed.

Lemma optional_field_app p ws g rest :
  (forall c, p c = true -> is_space c = false) ->
  run is_space ws = true -> run p g = true -> stops p rest = true ->
  optional_field p (ws ++ g ++ rest)%string = (Some g, rest).
Proof.
  intros Hp Hws Hg Hrest. unfold optional_field.
  rewrite spaces1_app; [|assumption|now apply stops_run with p].
  now rewrite many1_app.
Qed.

Lemma starts_field_digit_word s :
  starts_field is_word s = false -> starts_field is_digit s = false.
Proof.
  unfold starts_field. destruct (span is_space s) as [[|c ws] [|c' rest]]; try reflexivity.
  intros H. destruct (is_digit c') eqn:E; [|reflexivity].
  apply digit_is_word in E. congruence.
Qed.

Lemma stops_render_trailing t :
  wf_trailing t = true -> stops is_num (render_trailing t) = true.
Proof.
  destruct t as [rest|ws layer rest|ws layer ws' rotation rest]; cbn [wf_trailing render_trailing];
    intros H; split_andb.
  - assumption.
  - now apply stops_run with is_space; [apply space_not_num|].
  - now apply stops_run with is_space; [apply space_not_num|].
Qed.

(** The groups of the PIN pattern on a PIN line. *)
Lemma pin_match_render l :
  PinLine.wf l = true ->
  exists extra,
    pin_match (PinLine.render l)
    = Some (PinGroups.mk (PinLine.name l) (PinLine.pad l) (PinLine.x l) (PinLine.y l)
                         (layer_field (PinLine.tail l)) (rotation_field (PinLine.tail l))
                         extra).
Proof.
  destruct l as [ws1 name ws2 pad ws3 x ws4 y tail].
  unfold PinLine.wf, PinLine.render. cbn [PinLine.ws1 PinLine.name PinLine.ws2 PinLine.pad
    PinLine.ws3 PinLine.x PinLine.ws4 PinLine.y PinLine.tail].
  intros H. split_andb.
  unfold pin_match. cbn [literal append Ascii.eqb Bool.eqb obind].
  rewrite spaces1_app by (assumption || reflexivity). cbn [obind literal].
  rewrite Ascii.eqb_refl. cbn [obind].
  rewrite many1_app by (assumption || reflexivity).
  cbn [obind snd fst literal]. rewrite Ascii.eqb_refl. cbn [obind].
  rewrite spaces1_app by (assumption || (now apply stops_run with is_word; [apply word_not_space|])).
  cbn [obind].
  rewrite many1_app by (assumption || (now apply stops_run with is_space; [apply space_not_word|])).
  cbn [obind snd fst].
  rewrite spaces1_app by (assumption || (now apply stops_run with is_num; [apply num_not_space|])).
  cbn [obind].
  rewrite many1_app by (assumption || (now apply stops_run with is_space; [apply space_not_num|])).
  cbn [obind snd fst].
  rewrite spaces1_app by (assumption || (now apply stops_run with is_num; [apply num_not_space|])).
  cbn [obind].
  rewrite many1_app by (assumption || now apply stops_render_trailing).
  cbn [obind snd fst].
  destruct tail as [rest|ws layer rest|ws layer ws' rotation rest];
    cbn [wf_trailing render_trailing layer_field rotation_field] in *; split_andb.
  - match goal with H : negb _ = true |- _ => apply negb_true_iff in H; rename H into Hf end.
    rewrite (optional_field_none _ _ Hf). cbv beta iota.
    rewrite (optional_field_none _ _ (starts_field_digit_word _ Hf)). cbv beta iota.
    rewrite (optional_field_none _ _ (starts_field_digit_word _ Hf)). cbv beta iota.
    now eexists.
  - match goal with H : negb _ = true |- _ => apply negb_true_iff in H; rename H into Hf end.
    rewrite optional_field_app by (assumption || apply word_not_space). cbv beta iota.
    rewrite (optional_field_none _ _ Hf). cbv beta iota.
    rewrite (optional_field_none _ _ Hf). cbv beta iota.
    now eexists.
  - rewrite optional_field_app
      by (assumption || apply word_not_space
          || (now apply stops_run with is_space; [apply space_not_word|])).
    cbv beta iota.
    rewrite optional_field_app by (assumption || apply digit_not_space). cbv beta iota.
    destruct (optional_field is_digit rest) as [extra s]. now eexists.
Qed.

Lemma shape_match_render l : shape_match (PinLine.render l) = None.
Proof. reflexivity. Qed.




(** ** The three shapes of the end of a PIN line are all there is *)

Lemma span_spec p s :
  s = (fst (span p s) ++ snd (span p s))%string /\
  all_chars p (fst (span p s)) = true /\
  stops p (snd (span p s)) = true.
Proof.
  induction s as [|c s IH]; cbn; [now repeat split|].
  destruct (p c) eqn:E.
  - destruct (span p s) as [a b]. cbn in *. destruct IH as (-> & Ha & Hb).
    repeat split; [now rewrite E, Ha|assumption].
  - cbn. rewrite E. now repeat split.
Qed.

Lemma starts_field_inv p s :
  starts_field p s = true ->
  exists ws g rest,
    s = (ws ++ g ++ rest)%string /\
    run is_space ws = true /\ run p g = true /\ stops p rest = true.
Proof.
  unfold starts_field. intros H.
  destruct (span_spec is_space s) as (Hs & Hws & _).
  destruct (span is_space s) as [ws s']. cbn [fst snd] in *.
  destruct ws as [|w ws]; [discriminate|].
  destruct s' as [|c s'']; [discriminate|].
  destruct (span_spec p (String c s'')) as (Hg & Hall & Hstop).
  exists (String w ws), (fst (span p (String c s''))), (snd (span p (String c s''))).
  split; [now rewrite <- Hg|].
  split; [exact Hws|]. split; [|exact Hstop].
  unfold run. rewrite Hall, andb_true_r. cbn. rewrite H.
  now destruct (span p s'').
Qed.

(** Whatever follows the y coordinate has no layer field, a layer field
    alone, or a layer field and a rotation field. *)
Lemma trailing_exhaustive tail :
  stops is_num tail = true ->
  exists t, wf_trailing t = true /\ render_trailing t = tail.
Proof.
  intros Hstop. destruct (starts_field is_word tail) eqn:E.
  - destruct (starts_field_inv _ _ E) as (ws & layer & rest & -> & Hws & Hl & Hrest).
    destruct (starts_field is_digit rest) eqn:E2.
    + destruct (starts_field_inv _ _ E2) as (ws' & r & rest' & -> & Hws' & Hr & Hrest').
      exists (LayerRotation ws layer ws' r rest'). split; [|reflexivity].
      cbn. now rewrite Hws, Hl, Hws', Hr, Hrest'.
    + exists (LayerOnly ws layer rest). split; [|reflexivity].
      cbn. now rewrite Hws, Hl, Hrest, E2.
  - exists (NoLayer tail). split; [|reflexivity]. cbn. now rewrite Hstop, E.
Qed.

(** The whole of [_parse_shapes] on a small section. *)
Lemma parse_shapes_example :
  exists shapes,
    _parse_shapes ex_section = Ok shapes /\
    shape_table_summary shapes = [("S", [("1", "BOTTOM", 90%Z); ("2", "TOP", 0%Z)])].
Proof. eexists. split; reflexivity. Qed.

(** ** Stores *)

Lemma update_length {A : Type} (l : list A) i f : length (update l i f) = length l.
Proof.
  revert i. induction l as [|a l IH]; intros [|i]; cbn; try reflexivity.
  now rewrite IH.
Qed.

Lemma update_app_l {A : Type} (l1 l2 : list A) i f :
  i < length l1 -> update (l1 ++ l2) i f = update l1 i f ++ l2.
Proof.
  revert i. induction l1 as [|a l1 IH]; intros [|i] H; cbn in *; try lia.
  - reflexivity.
  - rewrite IH by lia. reflexivity.
Qed.

Lemma update_app_r {A : Type} (l1 l2 : list A) i f :
  update (l1 ++ l2) (length l1 + i) f = l1 ++ update l2 i f.
Proof. induction l1 as [|a l1 IH]; cbn; [reflexivity|]. now rewrite IH. Qed.

Lemma nth_error_app_r {A : Type} (l1 l2 : list A) i :
  nth_error (l1 ++ l2) (length l1 + i) = nth_error l2 i.
Proof. induction l1 as [|a l1 IH]; cbn; [reflexivity|exact IH]. Qed.

Lemma enumerate_from_app {A : Type} (l1 l2 : list A) start :
  enumerate_from start (l1 ++ l2)
  = enumerate_from start l1 ++ enumerate_from (start + length l1) l2.
Proof.
  unfold enumerate_from. revert start.
  induction l1 as [|a l1 IH]; intros start; cbn.
  - now rewrite Nat.add_0_r.
  - rewrite IH. now rewrite Nat.add_succ_r.
Qed.

Lemma Forall2_In_r {A B : Type} (P : A -> B -> Prop) (la : list A) (lb : list B) b :
  Forall2 P la lb -> In b lb -> exists a, In a la /\ P a b.
Proof.
  induction 1 as [|a0 b0 la lb H0 _ IH]; intros Hin; [destruct Hin|].
  destruct Hin as [<-|Hin].
  - exists a0. split; [now left|assumption].
  - destruct (IH Hin) as (a & Ha & Hab). exists a. split; [now right|assumption].
Qed.

(** ** The groups of [swap_diode_pins] *)

Lemma group_components_from_app start rows1 rows2 d :
  group_components_from start (rows1 ++ rows2) d
  = group_components_from (start + length rows1) rows2
                          (group_components_from start rows1 d).
Proof.
  unfold group_components_from. now rewrite enumerate_from_app, fold_left_app.
Qed.

Lemma dict_append_frame {V : Type} (d1 d2 : list (string * list V)) k v :
  ~ In k (map fst d1) -> dict_append (d1 ++ d2) k v = d1 ++ dict_append d2 k v.
Proof.
  induction d1 as [|[k0 vs] d1 IH]; intros H; cbn; [reflexivity|].
  destruct (String.eqb_spec k k0) as [->|Hne].
  - exfalso. apply H. now left.
  - rewrite IH; [reflexivity|]. intros Hin. apply H. now right.
Qed.

Lemma group_components_from_frame rows : forall start d1 d2,
  (forall row, In row rows -> ~ In (Row.component row) (map fst d1)) ->
  group_components_from start rows (d1 ++ d2)
  = d1 ++ group_components_from start rows d2.
Proof.
  unfold group_components_from, enumerate_from.
  induction rows as [|row rows IH]; intros start d1 d2 H; cbn; [reflexivity|].
  rewrite dict_append_frame by (apply H; now left).
  apply IH. intros r Hr. apply H. now right.
Qed.

Lemma group_components_from_uniform c rows : forall start l,
  (forall row, In row rows -> Row.component row = c) ->
  group_components_from start rows [(c, l)] = [(c, l ++ seq start (length rows))].
Proof.
  unfold group_components_from, enumerate_from.
  induction rows as [|row rows IH]; intros start l H; cbn.
  - now rewrite app_nil_r.
  - rewrite (H row) by now left. rewrite String.eqb_refl.
    rewrite IH by (intros r Hr; apply H; now right).
    now rewrite <- app_assoc.
Qed.

Lemma group_components_block c block start :
  block <> [] ->
  (forall row, In row block -> Row.component row = c) ->
  group_components_from start block [] = [(c, seq start (length block))].
Proof.
  intros Hne H. destruct block as [|row block]; [now destruct Hne|].
  unfold group_components_from, enumerate_from. cbn.
  rewrite (H row) by now left.
  change (fold_left _ _ _) with (group_components_from (S start) block [(c, [start])]).
  rewrite group_components_from_uniform by (intros r Hr; apply H; now right).
  reflexivity.
Qed.

(** ** One step of [swap_diode_pins] on the rows of one component *)

Lemma swap_step_block before block after c :
  (forall row, In row block -> Row.component row = c) ->
  swap_step (before ++ block ++ after) (c, seq (length before) (length block))
  = before ++ swap_block block ++ after.
Proof.
  intros Hc. unfold swap_step. rewrite length_seq.
  destruct block as [|row0 [|row1 [|row2 block]]];
    try (rewrite andb_false_r; reflexivity).
  cbn [length Nat.eqb]. rewrite andb_true_r.
  unfold swap_block. rewrite (Hc row0) by now left.
  destruct (startswith c "L-D"); [|reflexivity].
  cbn [seq]. rewrite sort_by_two.
  assert (H0 : nth_error (before ++ [row0; row1] ++ after) (length before) = Some row0).
  { rewrite <- (Nat.add_0_r (length before)) at 1. now rewrite nth_error_app_r. }
  assert (H1 : nth_error (before ++ [row0; row1] ++ after) (S (length before)) = Some row1).
  { rewrite <- (Nat.add_1_r (length before)). now rewrite nth_error_app_r. }
  assert (U0 : forall f l, update (before ++ row0 :: l) (length before) f
                           = before ++ f row0 :: l).
  { intros f l. rewrite <- (Nat.add_0_r (length before)) at 1.
    now rewrite update_app_r. }
  assert (U1 : forall f r l, update (before ++ r :: row1 :: l) (S (length before)) f
                             = before ++ r :: f row1 :: l).
  { intros f r l. rewrite <- (Nat.add_1_r (length before)).
    now rewrite update_app_r. }
  destruct (String.ltb _ _); rewrite H0, H1; cbn [app].
  - rewrite U1, U0. reflexivity.
  - rewrite U0, U1. reflexivity.
Qed.

Lemma swap_block_length block : length (swap_block block) = length block.
Proof.
  destruct block as [|row0 [|row1 [|row2 block]]]; try reflexivity.
  cbn. now destruct (startswith _ _).
Qed.

(** The rows of distinct components, component after component:
    [swap_diode_pins] works on each block alone. *)
Lemma swap_diode_pins_from names : forall blocks before,
  NoDup names ->
  Forall2 (fun name block => forall row, In row block -> Row.component row = name)
          names blocks ->
  fold_left swap_step (group_components_from (length before) (concat blocks) [])
            (before ++ concat blocks)
  = before ++ concat (map swap_block blocks).
Proof.
  induction names as [|name names IH]; intros blocks before Hnd HF;
    inversion HF as [|? block ? blocks' Hblock HF']; subst; [reflexivity|].
  inversion Hnd as [|? ? Hnin Hnd']; subst.
  cbn [concat map].
  destruct block as [|row block].
  { cbn [app]. now apply IH. }
  assert (Hne : row :: block <> []) by discriminate.
  remember (row :: block) as B eqn:EB. clear EB.
  rewrite group_components_from_app.
  rewrite (group_components_block name) by assumption.
  change [(name, seq (length before) (length B))]
    with ([(name, seq (length before) (length B))] ++ []).
  rewrite group_components_from_frame.
  2:{ intros r Hr [E|[]]. cbn in E. apply Hnin.
      apply in_concat in Hr as (b & Hb & Hrb).
      destruct (Forall2_In_r _ _ _ _ HF' Hb) as (n & Hn & Hnb).
      rewrite E, (Hnb r Hrb). exact Hn. }
  rewrite <- app_comm_cons, app_nil_l. cbn [fold_left].
  rewrite swap_step_block by assumption.
  rewrite app_assoc.
  rewrite <- (swap_block_length B), <- length_app.
  rewrite IH by assumption.
  now rewrite <- app_assoc.
Qed.

Lemma swap_diode_pins_blocks names blocks :
  NoDup names ->
  Forall2 (fun name block => forall row, In row block -> Row.component row = name)
          names blocks ->
  swap_diode_pins (concat blocks) = concat (map swap_block blocks).
Proof.
  intros Hnd HF. exact (swap_diode_pins_from names blocks [] Hnd HF).
Qed.

(** ** The combined graph table: what the annotation leaves alone *)

Lemma update_map {A B : Type} (g : A -> B) (f : A -> A) (l : list A) i :
  (forall a, g (f a) = g a) -> map g (update l i f) = map g l.
Proof.
  intros H. revert i. induction l as [|a l IH]; intros [|i]; cbn; try reflexivity.
  - now rewrite H.
  - now rewrite IH.
Qed.

Lemma enumerate_from_snd {A : Type} (l : list A) start :
  map snd (enumerate_from start l) = l.
Proof.
  unfold enumerate_from. revert start.
  induction l as [|a l IH]; intros start; cbn; [reflexivity|]. now rewrite IH.
Qed.

Lemma enumerate_from_fst {A : Type} (l : list A) start :
  map fst (enumerate_from start l) = seq start (length l).
Proof.
  unfold enumerate_from. revert start.
  induction l as [|a l IH]; intros start; cbn; [reflexivity|]. now rewrite IH.
Qed.

Lemma annotate_signal_core store signal_pins :
  map HPin_core (annotate_signal store signal_pins) = map HPin_core store.
Proof.
  unfold annotate_signal.
  generalize (enumerate signal_pins) as refs. intros refs. revert store.
  induction refs as [|[i ref1] refs IH]; intros store; cbn [fold_left]; [reflexivity|].
  rewrite IH. now apply update_map.
Qed.

Lemma annotate_signals_core signals pin_lookup : forall store,
  map HPin_core (annotate_signals signals pin_lookup store) = map HPin_core store.
Proof.
  unfold annotate_signals.
  induction signals as [|[signal_name connections_list] signals IH]; intros store;
    cbn [fold_left]; [reflexivity|].
  rewrite IH. destruct (signal_name =? "unconnected"); [reflexivity|].
  apply annotate_signal_core.
Qed.

Lemma export_houdini_core signals pins :
  map HPin_core (export_houdini_csv signals pins) = map HPin_core (init_pins pins).
Proof.
  unfold export_houdini_csv. cbv zeta. rewrite map_map.
  rewrite <- (annotate_signals_core signals (make_pin_lookup (init_pins pins))).
  apply map_ext. intros p. unfold format_ids. now destruct (HPin.connected_ids p).
Qed.

Lemma init_pins_pin pins : map HPin.pin (init_pins pins) = pins.
Proof.
  unfold init_pins, enumerate. rewrite map_map.
  rewrite <- (enumerate_from_snd pins 0) at 2.
  apply map_ext. now intros [i p].
Qed.

Lemma export_houdini_pins signals pins :
  map HPin.pin (export_houdini_csv signals pins) = pins.
Proof.
  rewrite <- (init_pins_pin pins) at 2.
  change HPin.pin with (fun p => fst (fst (HPin_core p))).
  rewrite <- !(map_map HPin_core (fun c => fst (fst c))).
  now rewrite export_houdini_core.
Qed.

(** ** C10: running [swap_diode_pins] on the combined graph table *)

Lemma component_pins_component signals shapes comp_name comp_data block :
  component_pins signals shapes (comp_name, comp_data) = Ok block ->
  forall p, In p block -> Pin.component p = comp_name.
Proof.
  intros H p Hin.
  destruct (Component.shape comp_data) as [shape_name|] eqn:Hs.
  2:{ rewrite skipped_component_adds_no_pin in H by now left.
      injection H as <-. destruct Hin. }
  destruct (dict_get String.eqb shapes shape_name) as [shape_pins|] eqn:Hd.
  2:{ rewrite skipped_component_adds_no_pin in H by (right; now exists shape_name).
      injection H as <-. destruct Hin. }
  destruct (component_pins_resolved _ _ _ _ _ _ _ Hs Hd H) as (cx & cy & _ & _ & ->).
  cbv zeta in Hin.
  assert (Hall : Forall (fun c => c = comp_name)
                   (map Pin.component
                        (map (component_pin_data signals comp_name comp_data cx cy)
                             shape_pins))).
  { rewrite map_map. apply Forall_forall. intros c Hc.
    apply in_map_iff in Hc as (sp & <- & _). reflexivity. }
  destruct (is_swapped comp_name (length shape_pins)).
  - apply (in_map Pin.component) in Hin.
    rewrite (swap_coordinates_fields (fun c _ _ _ => c)) in Hin.
    rewrite Forall_forall in Hall. apply Hall.
    eapply Permutation_in; [|exact Hin].
    apply Permutation_map, sort_by_perm.
  - rewrite Forall_forall in Hall. apply Hall. now apply in_map.
Qed.

Lemma combine_app_same {A B : Type} (l1 l2 : list A) (m1 m2 : list B) :
  length l1 = length m1 -> combine (l1 ++ l2) (m1 ++ m2) = combine l1 m1 ++ combine l2 m2.
Proof.
  revert m1. induction l1 as [|a l1 IH]; intros [|b m1] H; cbn in *; try discriminate.
  - reflexivity.
  - now rewrite IH by lia.
Qed.

Lemma with_coordinates_app str_of_float rows1 rows2 pins1 pins2 :
  length rows1 = length pins1 ->
  with_coordinates str_of_float (rows1 ++ rows2) (pins1 ++ pins2)
  = with_coordinates str_of_float rows1 pins1
    ++ with_coordinates str_of_float rows2 pins2.
Proof.
  intros H. unfold with_coordinates. now rewrite combine_app_same, map_app.
Qed.

Lemma with_coordinates_self str_of_float hpins :
  with_coordinates str_of_float (map (csv_row str_of_float) hpins) (map HPin.pin hpins)
  = map (csv_row str_of_float) hpins.
Proof.
  unfold with_coordinates. induction hpins as [|h hpins IH]; cbn; [reflexivity|].
  now rewrite IH.
Qed.

(** One component: the rows of its pins after [swap_diode_pins] carry the
    coordinates computed for each pin. *)
Lemma swap_block_restores str_of_float signals shapes entry block hpins :
  component_pins signals shapes entry = Ok block ->
  map HPin.pin hpins = block ->
  swap_block (map (csv_row str_of_float) hpins)
  = with_coordinates str_of_float (map (csv_row str_of_float) hpins)
                     (direct_component_pins signals shapes entry)
  /\ map (fun p => (Pin.component p, Pin.pin_name p, Pin.layer p, Pin.signal p))
         (direct_component_pins signals shapes entry)
     = map (fun p => (Pin.component p, Pin.pin_name p, Pin.layer p, Pin.signal p)) block.
Proof.
  destruct entry as [comp_name comp_data]. intros Hb Hpins.
  unfold direct_component_pins.
  destruct (Component.shape comp_data) as [shape_name|] eqn:Hs.
  2:{ rewrite skipped_component_adds_no_pin in Hb by now left.
      injection Hb as <-. destruct hpins; [now split|discriminate]. }
  destruct (dict_get String.eqb shapes shape_name) as [shape_pins|] eqn:Hd.
  2:{ rewrite skipped_component_adds_no_pin in Hb by (right; now exists shape_name).
      injection Hb as <-. destruct hpins; [now split|discriminate]. }
  destruct (component_pins_resolved _ _ _ _ _ _ _ Hs Hd Hb) as (cx & cy & Hx & Hy & Eb).
  rewrite Hx, Hy. cbv zeta in Eb |- *. rewrite length_map.
  fold (is_swapped comp_name (length shape_pins)).
  fold (component_pin_data signals comp_name comp_data cx cy).
  set (computed := map (component_pin_data signals comp_name comp_data cx cy) shape_pins) in *.
  destruct (is_swapped comp_name (length shape_pins)) eqn:Hgate.
  - (* exchanged by the resolver *)
    assert (Hlen : length (sort_by Pin.pin_name computed) = 2).
    { rewrite (Permutation_length (sort_by_perm _ _)). unfold computed.
      rewrite length_map. unfold is_swapped in Hgate.
      apply andb_true_iff in Hgate as [_ Hgate]. now apply Nat.eqb_eq. }
    assert (Hname : forall p, In p (sort_by Pin.pin_name computed) ->
                              Pin.component p = comp_name).
    { intros p Hp. apply (Permutation_in _ (sort_by_perm _ _)) in Hp.
      unfold computed in Hp. apply in_map_iff in Hp as (sp & <- & _). reflexivity. }
    destruct (sort_by Pin.pin_name computed) as [|p0 [|p1 [|p2 l]]]; try discriminate.
    rewrite Eb in Hpins |- *. cbn [swap_coordinates] in Hpins.
    destruct hpins as [|h0 [|h1 [|h2 hpins]]]; try discriminate.
    injection Hpins as E0 E1. split; [|reflexivity].
    cbn [map swap_block]. unfold csv_row at 1. cbn [Row.component].
    rewrite E0. cbn [Pin.set_xy Pin.component].
    rewrite (Hname p0) by now left.
    unfold is_swapped in Hgate. apply andb_true_iff in Hgate as [-> _].
    unfold with_coordinates. cbn [combine map].
    unfold csv_row, Row.set_xy. cbn [Row.x Row.y Row.id Row.z Row.component Row.pin_name
      Row.layer Row.signal Row.connected_to Row.connected_ids].
    rewrite E0, E1. reflexivity.
  - (* not a diode with two pins: the rows stay *)
    rewrite Eb in Hpins |- *. split; [|reflexivity].
    rewrite <- Hpins. rewrite with_coordinates_self.
    assert (Hlen : length hpins = length shape_pins).
    { rewrite <- (length_map HPin.pin), Hpins. unfold computed. now rewrite length_map. }
    destruct hpins as [|h0 [|h1 [|h2 hpins]]]; try reflexivity.
    cbn [map swap_block]. unfold csv_row at 1. cbn [Row.component].
    assert (Hc : Pin.component (HPin.pin h0) = comp_name).
    { apply (component_pins_component _ _ _ _ _ Hb). rewrite Eb, <- Hpins. now left. }
    rewrite Hc. unfold is_swapped in Hgate. cbn in Hlen. rewrite <- Hlen in Hgate.
    cbn in Hgate. rewrite andb_true_r in Hgate. now rewrite Hgate.
Qed.

Lemma split_by_blocks {A B : Type} (f : A -> B) (blocks : list (list B)) :
  forall l, map f l = concat blocks ->
  exists lblocks, l = concat lblocks /\ Forall2 (fun lb b => map f lb = b) lblocks blocks.
Proof.
  induction blocks as [|b blocks IH]; intros l H; cbn in H.
  - apply map_eq_nil in H as ->. exists []. split; [reflexivity|constructor].
  - apply map_eq_app in H as (l1 & l2 & -> & H1 & H2).
    destruct (IH l2 H2) as (lblocks & -> & HF).
    exists (l1 :: lblocks). split; [reflexivity|]. now constructor.
Qed.

Lemma blocks_restore str_of_float signals shapes components : forall blocks hblocks,
  Forall2 (fun entry block => component_pins signals shapes entry = Ok block)
          components blocks ->
  Forall2 (fun hb block => map HPin.pin hb = block) hblocks blocks ->
  let rblocks := map (map (csv_row str_of_float)) hblocks in
  let fields := fun p => (Pin.component p, Pin.pin_name p, Pin.layer p, Pin.signal p) in
  concat (map swap_block rblocks)
  = with_coordinates str_of_float (concat rblocks)
                     (direct_pin_positions signals shapes components)
  /\ map fields (direct_pin_positions signals shapes components)
     = map fields (concat blocks)
  /\ Forall2 (fun name rb => forall row, In row rb -> Row.component row = name)
             (map fst components) rblocks.
Proof.
  cbv zeta. unfold direct_pin_positions.
  induction components as [|entry components IH]; intros blocks hblocks HF HH;
    inversion HF as [|? block ? blocks' Hb HF']; subst;
    inversion HH as [|hb ? hblocks' ? Hh HH']; subst.
  - repeat split. constructor.
  - destruct (IH _ _ HF' HH') as (IH1 & IH2 & IH3).
    destruct (swap_block_restores str_of_float _ _ _ _ hb Hb eq_refl) as [R1 R2].
    cbn [map concat flat_map]. repeat split.
    + rewrite with_coordinates_app.
      * now rewrite R1, IH1.
      * rewrite length_map, <- (length_map HPin.pin).
        rewrite <- (length_map (fun p => (Pin.component p, Pin.pin_name p, Pin.layer p,
                                          Pin.signal p)) (map HPin.pin hb)), <- R2.
        now rewrite length_map.
    + now rewrite !map_app, R2, IH2.
    + constructor; [|exact IH3].
      intros row Hrow. apply in_map_iff in Hrow as (h & <- & Hh).
      destruct entry as [comp_name comp_data]. cbn [fst csv_row Row.component].
      apply (component_pins_component _ _ _ _ _ Hb). now apply in_map.
Qed.

(** C10: the exchange is an involution.  On the combined graph table of a
    resolved board, [swap_diode_pins] leaves every row in place and changes
    nothing but coordinate cells: after it each row carries the coordinates
    computed directly for its own pin (for a diode with two pins those the
    resolver had exchanged, for every other row the ones it already had). *)
Theorem C10_swap_diode_pins_restores str_of_float signals shapes components pins :
  NoDup (map fst components) ->
  _calculate_pin_positions signals shapes components = Ok pins ->
  let rows := map (csv_row str_of_float) (export_houdini_csv signals pins) in
  let direct := direct_pin_positions signals shapes components in
  swap_diode_pins rows = with_coordinates str_of_float rows direct /\
  map (fun p => (Pin.component p, Pin.pin_name p, Pin.layer p, Pin.signal p)) direct
  = map (fun p => (Pin.component p, Pin.pin_name p, Pin.layer p, Pin.signal p)) pins.
Proof.
  intros Hnd Hcalc. cbv zeta.
  apply calculate_blocks in Hcalc as (blocks & HF & ->).
  destruct (split_by_blocks HPin.pin blocks _ (export_houdini_pins signals (concat blocks)))
    as (hblocks & -> & HH).
  destruct (blocks_restore str_of_float _ _ _ _ _ HF HH) as (H1 & H2 & H3).
  split; [|exact H2].
  rewrite concat_map.
  rewrite (swap_diode_pins_blocks (map fst components)) by assumption.
  exact H1.
Qed.

(** The example board: a diode, a transistor and a component without a
    known shape. *)
Lemma C10_swap_diode_pins_restores_witness :
  let rows := map (csv_row ex_str_of_float) (export_houdini_csv ex_signals ex_resolved) in
  let direct := direct_pin_positions ex_signals ex_shapes ex_components in
  swap_diode_pins rows = with_coordinates ex_str_of_float rows direct /\
  map (fun p => (Pin.component p, Pin.pin_name p, Pin.layer p, Pin.signal p)) direct
  = map (fun p => (Pin.component p, Pin.pin_name p, Pin.layer p, Pin.signal p)) ex_resolved.
Proof.
  apply (C10_swap_diode_pins_restores ex_str_of_float ex_signals ex_shapes ex_components
                                      ex_resolved).
  - repeat constructor; cbn; intuition discriminate.
  - reflexivity.
Defined.

(** ** The reference pins and the resolver

    What the resolver emits for a component is the reference block itself,
    or, for a diode with two pins, the reference block with the coordinates of
    its two pins exchanged. *)
Lemma component_pins_direct signals shapes entry block :
  component_pins signals shapes entry = Ok block ->
  block = direct_component_pins signals shapes entry \/
  (startswith (fst entry) "L-D" = true /\
   length block = 2 /\
   block = swap_coordinates (direct_component_pins signals shapes entry)).
Proof.
  destruct entry as [comp_name comp_data]. intros Hb. unfold direct_component_pins.
  destruct (Component.shape comp_data) as [shape_name|] eqn:Hs.
  2:{ rewrite skipped_component_adds_no_pin in Hb by now left.
      injection Hb as <-. now left. }
  destruct (dict_get String.eqb shapes shape_name) as [shape_pins|] eqn:Hd.
  2:{ rewrite skipped_component_adds_no_pin in Hb by (right; now exists shape_name).
      injection Hb as <-. now left. }
  destruct (component_pins_resolved _ _ _ _ _ _ _ Hs Hd Hb) as (cx & cy & Hx & Hy & ->).
  rewrite Hx, Hy. cbv zeta. rewrite length_map.
  fold (is_swapped comp_name (length shape_pins)).
  fold (component_pin_data signals comp_name comp_data cx cy).
  destruct (is_swapped comp_name (length shape_pins)) eqn:Hgate; [right|now left].
  unfold is_swapped in Hgate. apply andb_true_iff in Hgate as [Hdiode Hlen].
  apply Nat.eqb_eq in Hlen. split; [exact Hdiode|]. split; [|reflexivity].
  assert (H : length (sort_by Pin.pin_name
                        (map (component_pin_data signals comp_name comp_data cx cy)
                             shape_pins)) = 2).
  { now rewrite (Permutation_length (sort_by_perm _ _)), length_map. }
  destruct (sort_by _ _) as [|p0 [|p1 [|p2 l]]]; try discriminate. reflexivity.
Qed.

(** ** C7: the combined graph table *)

Lemma pair_eqb_spec a b : pair_eqb a b = true <-> a = b.
Proof.
  destruct a as [a1 a2], b as [b1 b2]. unfold pair_eqb. cbn.
  rewrite andb_true_iff, !String.eqb_eq. split; [intros [-> ->]|intros [= -> ->]]; auto.
Qed.

Lemma pair_eqb_refl a : pair_eqb a a = true.
Proof. now apply pair_eqb_spec. Qed.

Lemma dict_set_get {V : Type} (d : list ((string * string) * V)) k v k' :
  dict_get pair_eqb (dict_set pair_eqb d k v) k'
  = if pair_eqb k' k then Some v else dict_get pair_eqb d k'.
Proof.
  induction d as [|[k0 v0] d IH]; cbn [dict_set dict_get].
  - reflexivity.
  - destruct (pair_eqb k k0) eqn:E; cbn [dict_get].
    + apply pair_eqb_spec in E. subst k0. now destruct (pair_eqb k' k).
    + rewrite IH. destruct (pair_eqb k' k0) eqn:E'; [|reflexivity].
      apply pair_eqb_spec in E'. subst k0.
      destruct (pair_eqb k' k) eqn:E''; [|reflexivity].
      apply pair_eqb_spec in E''. subst k'. rewrite pair_eqb_refl in E. discriminate.
Qed.

(** A dictionary filled by successive assignments with pairwise distinct
    keys holds every assigned value. *)
Lemma dict_fill_get {V : Type} (kvs : list ((string * string) * V)) : forall d,
  NoDup (map fst kvs) ->
  let d' := fold_left (fun d kv => dict_set pair_eqb d (fst kv) (snd kv)) kvs d in
  (forall k v, In (k, v) kvs -> dict_get pair_eqb d' k = Some v) /\
  (forall k, ~ In k (map fst kvs) -> dict_get pair_eqb d' k = dict_get pair_eqb d k).
Proof.
  induction kvs as [|[k0 v0] kvs IH]; intros d Hnd; cbn [fold_left fst snd].
  - split; [intros k v []|reflexivity].
  - inversion Hnd as [|? ? Hnin Hnd']; subst.
    destruct (IH (dict_set pair_eqb d k0 v0) Hnd') as [IH1 IH2].
    split.
    + intros k v [[= -> ->]|Hin]; [|now apply IH1].
      rewrite IH2 by assumption. now rewrite dict_set_get, pair_eqb_refl.
    + intros k Hk. rewrite IH2 by (intros Hin; apply Hk; now right).
      rewrite dict_set_get. destruct (pair_eqb k k0) eqn:E; [|reflexivity].
      apply pair_eqb_spec in E. subst. exfalso. apply Hk. now left.
Qed.

Lemma enumerate_from_In {A : Type} (l : list A) : forall start i a,
  In (i, a) (enumerate_from start l)
  <-> start <= i /\ nth_error l (i - start) = Some a.
Proof.
  unfold enumerate_from.
  induction l as [|b l IH]; intros start i a; cbn [length seq combine In].
  - split; [intros []|]. intros [_ H]. now destruct (i - start).
  - rewrite IH. split.
    + intros [[= <- <-]|[Hle Hn]].
      * split; [lia|]. now rewrite Nat.sub_diag.
      * split; [lia|]. replace (i - start) with (S (i - S start)) by lia. exact Hn.
    + intros [Hle Hn]. destruct (Nat.eq_dec i start) as [->|Hne].
      * left. rewrite Nat.sub_diag in Hn. cbn in Hn. now injection Hn as ->.
      * right. split; [lia|].
        replace (i - start) with (S (i - S start)) in Hn by lia. exact Hn.
Qed.

Lemma enumerate_In {A : Type} (l : list A) i a :
  In (i, a) (enumerate l) <-> nth_error l i = Some a.
Proof.
  unfold enumerate. rewrite enumerate_from_In, Nat.sub_0_r.
  split; [now intros [_ H]|]. intros H. split; [lia|assumption].
Qed.

Lemma init_pins_nth pins i :
  nth_error (init_pins pins) i
  = option_map
      (fun pin => HPin.mk pin i (if Pin.layer pin =? "TOP" then 0.0%R else (-0.1)%R)
                          EmptyList EmptyList)
      (nth_error pins i).
Proof.
  unfold init_pins, enumerate, enumerate_from.
  rewrite nth_error_map.
  destruct (nth_error pins i) as [p|] eqn:E.
  - assert (Hi : i < length pins) by (apply nth_error_Some; congruence).
    assert (H : nth_error (combine (seq 0 (length pins)) pins) i = Some (i, p)).
    { assert (In (i, p) (enumerate pins)) as Hin by now apply enumerate_In.
      unfold enumerate, enumerate_from in Hin.
      apply In_nth_error in Hin as [n Hn].
      assert (n < length (combine (seq 0 (length pins)) pins))
        by (apply nth_error_Some; congruence).
      rewrite length_combine, length_seq, Nat.min_id in H.
      pose proof (nth_error_nth _ _ (0, p) Hn) as Hnth.
      rewrite combine_nth in Hnth by now rewrite length_seq.
      rewrite seq_nth in Hnth by assumption. cbn in Hnth.
      injection Hnth as <- _. exact Hn. }
    now rewrite H.
  - assert (H : nth_error (combine (seq 0 (length pins)) pins) i = None).
    { apply nth_error_None. rewrite length_combine, length_seq, Nat.min_id.
      now apply nth_error_None. }
    now rewrite H.
Qed.

Lemma init_pins_length pins : length (init_pins pins) = length pins.
Proof. rewrite <- (length_map HPin.pin). now rewrite init_pins_pin. Qed.

Lemma pin_lookup_spec pins :
  NoDup (map Pin.key pins) ->
  forall k j,
    dict_get pair_eqb (make_pin_lookup (init_pins pins)) k = Some j
    <-> exists q, nth_error pins j = Some q /\ Pin.key q = k.
Proof.
  intros Hnd k j. unfold make_pin_lookup.
  set (kvs := map (fun ip : nat * HPin.t => (Pin.key (HPin.pin (snd ip)), fst ip))
                  (enumerate (init_pins pins))).
  assert (Hfold : fold_left (fun pin_lookup '(i, p) =>
                               dict_set pair_eqb pin_lookup (Pin.key (HPin.pin p)) i)
                            (enumerate (init_pins pins)) []
                  = fold_left (fun d kv => dict_set pair_eqb d (fst kv) (snd kv)) kvs []).
  { unfold kvs. generalize (@nil ((string * string) * nat)).
    induction (enumerate (init_pins pins)) as [|[i p] l IH]; intros d; cbn; [reflexivity|].
    apply IH. }
  rewrite Hfold.
  assert (Hkeys : map fst kvs = map Pin.key pins).
  { unfold kvs. rewrite map_map. cbn [fst].
    rewrite <- (init_pins_pin pins) at 2. rewrite map_map.
    rewrite <- (enumerate_from_snd (init_pins pins) 0) at 2. now rewrite map_map. }
  assert (Hin : forall k j, In (k, j) kvs
                            <-> exists q, nth_error pins j = Some q /\ Pin.key q = k).
  { intros k' j'. unfold kvs. rewrite in_map_iff. split.
    - intros ([i h] & [= <- <-] & Hih). apply enumerate_In in Hih.
      rewrite init_pins_nth in Hih.
      destruct (nth_error pins i) as [q|]; [|discriminate].
      injection Hih as <-. now exists q.
    - intros (q & Hq & <-).
      exists (j', HPin.mk q j' (if Pin.layer q =? "TOP" then 0.0%R else (-0.1)%R)
                          EmptyList EmptyList).
      split; [reflexivity|]. apply enumerate_In. now rewrite init_pins_nth, Hq. }
  destruct (dict_fill_get kvs [] ltac:(now rewrite Hkeys)) as [Hget Hmiss].
  split.
  - intros H. apply Hin.
    assert (Hdec : forall a b : string * string, {a = b} + {a <> b})
      by (decide equality; apply string_dec).
    destruct (in_dec Hdec k (map fst kvs)) as [Hk|Hk].
    + apply in_map_iff in Hk as ([k' v] & Hfst & Hv). cbn in Hfst. subst k'.
      rewrite (Hget _ _ Hv) in H. now injection H as <-.
    + rewrite (Hmiss _ Hk) in H. discriminate.
  - intros Hq. apply Hget. now apply Hin.
Qed.

Lemma update_nth_same {A : Type} (l : list A) i f :
  nth_error (update l i f) i = option_map f (nth_error l i).
Proof.
  revert i. induction l as [|a l IH]; intros [|i]; cbn; try reflexivity. apply IH.
Qed.

Lemma update_nth_other {A : Type} (l : list A) i j f :
  i <> j -> nth_error (update l i f) j = nth_error l j.
Proof.
  revert i j. induction l as [|a l IH]; intros [|i] [|j] H; cbn; try reflexivity.
  - now destruct H.
  - apply IH. lia.
Qed.

Lemma update_ext {A : Type} (l : list A) i f g :
  (forall a, f a = g a) -> update l i f = update l i g.
Proof.
  intros H. revert i. induction l as [|a l IH]; intros [|i]; cbn; try reflexivity.
  - now rewrite H.
  - now rewrite IH.
Qed.

(** Assignments to pairwise distinct pin objects: each object holds the
    fields assigned to it, the others are untouched. *)
Lemma assign_events_nth events : forall store,
  NoDup (map fst events) ->
  (forall ref v, In (ref, v) events ->
     nth_error (fold_left assign events store) ref
     = option_map (fun pin1 => HPin.set_connected pin1 (fst v) (snd v))
                  (nth_error store ref)) /\
  (forall ref, ~ In ref (map fst events) ->
     nth_error (fold_left assign events store) ref = nth_error store ref).
Proof.
  induction events as [|[ref0 v0] events IH]; intros store Hnd; cbn [fold_left].
  - split; [intros ref v []|reflexivity].
  - inversion Hnd as [|? ? Hnin Hnd']; subst.
    destruct (IH (assign store (ref0, v0)) Hnd') as [IH1 IH2].
    split.
    + intros ref v [[= -> ->]|Hin].
      * rewrite IH2 by assumption. unfold assign. cbn [fst snd]. apply update_nth_same.
      * rewrite (IH1 _ _ Hin). unfold assign. cbn [fst snd].
        rewrite update_nth_other; [reflexivity|].
        intros ->. apply Hnin. apply (in_map fst) in Hin. exact Hin.
    + intros ref Href. rewrite IH2 by (intros Hin; apply Href; now right).
      unfold assign. cbn [fst]. apply update_nth_other.
      intros ->. apply Href. now left.
Qed.

Lemma assign_core_kept pins store event :
  core_kept pins store -> core_kept pins (assign store event).
Proof.
  unfold core_kept, assign. intros <-. now apply update_map.
Qed.

Lemma core_kept_nth pins store ref q :
  core_kept pins store ->
  nth_error pins ref = Some q ->
  exists h, nth_error store ref = Some h /\ HPin.pin h = q /\ HPin.id h = ref.
Proof.
  unfold core_kept. intros Hcore Hq.
  assert (H : nth_error (map HPin_core store) ref
              = nth_error (map HPin_core (init_pins pins)) ref) by now rewrite Hcore.
  rewrite !nth_error_map, init_pins_nth, Hq in H. cbn in H.
  destruct (nth_error store ref) as [h|]; [|discriminate].
  exists h. split; [reflexivity|]. unfold HPin_core in H. cbn in H.
  injection H as H1 H2 _. now split.
Qed.

Lemma flat_map_filter_map {A B : Type} (p : A -> bool) (f : A -> B) (l : list A) :
  flat_map (fun a => if p a then [f a] else []) l = map f (filter p l).
Proof.
  induction l as [|a l IH]; cbn; [reflexivity|].
  destruct (p a); cbn; now rewrite IH.
Qed.

Lemma peer_refs_filter signal_pins i :
  peer_refs signal_pins i
  = map snd (filter (fun jr => negb (i =? fst jr)%nat) (enumerate signal_pins)).
Proof.
  unfold peer_refs. rewrite <- flat_map_filter_map.
  apply flat_map_ext. now intros [j r].
Qed.

(** The peers read from the store are the entries of [signal_pins] at the
    other positions, whatever the annotation has assigned so far. *)
Lemma other_pins_refs pins store signal_pins i :
  core_kept pins store ->
  Forall (fun ref => ref < length pins) signal_pins ->
  map HPin.id (other_pins store signal_pins i) = peer_refs signal_pins i /\
  map pin_label (other_pins store signal_pins i)
  = map (label_at pins) (peer_refs signal_pins i).
Proof.
  intros Hcore Hvalid. unfold other_pins, peer_refs, enumerate.
  generalize 0 as start.
  induction signal_pins as [|ref2 signal_pins IH]; intros start; [now split|].
  inversion Hvalid as [|? ? Href Hvalid']; subst.
  unfold enumerate_from in *. cbn [length seq combine flat_map].
  rewrite !map_app.
  destruct (IH Hvalid' (S start)) as [-> ->].
  destruct (nth_error pins ref2) as [q|] eqn:Hq;
    [|apply nth_error_None in Hq; lia].
  destruct (core_kept_nth _ _ _ _ Hcore Hq) as (h & Hh & Hpin & Hid).
  rewrite Hh. destruct (negb (i =? start)%nat); cbn [map app]; [|now split].
  split; [now rewrite Hid|].
  unfold pin_label, label_at. now rewrite Hpin, Hq.
Qed.

Lemma annotate_signal_events pins signal_pins :
  Forall (fun ref => ref < length pins) signal_pins ->
  forall store,
    core_kept pins store ->
    annotate_signal store signal_pins
    = fold_left assign (signal_events pins signal_pins) store.
Proof.
  intros Hvalid. unfold annotate_signal, signal_events.
  generalize (enumerate signal_pins) as refs.
  induction refs as [|[i ref1] refs IH]; intros store Hcore; cbn [fold_left map];
    [reflexivity|].
  destruct (other_pins_refs pins store signal_pins i Hcore Hvalid) as [Hids Hlabels].
  cbv zeta. rewrite Hids, Hlabels.
  change (update store ref1 _)
    with (assign store
            (ref1, (Str (join "|" (map (label_at pins) (peer_refs signal_pins i))),
                    Str (bracketed (peer_refs signal_pins i))))).
  apply IH. now apply assign_core_kept.
Qed.

Lemma fold_assign_core_kept pins events : forall store,
  core_kept pins store -> core_kept pins (fold_left assign events store).
Proof.
  induction events as [|event events IH]; intros store H; cbn; [assumption|].
  apply IH. now apply assign_core_kept.
Qed.

Lemma lookup_signal_pins_In pin_lookup connections_list ref :
  In ref (lookup_signal_pins pin_lookup connections_list)
  <-> exists key, In key connections_list /\ dict_get pair_eqb pin_lookup key = Some ref.
Proof.
  unfold lookup_signal_pins. rewrite in_flat_map. split.
  - intros (key & Hin & Href). exists key. split; [assumption|].
    destruct (dict_get pair_eqb pin_lookup key) as [r|]; [|destruct Href].
    destruct Href as [->|[]]. reflexivity.
  - intros (key & Hin & Hget). exists key. split; [assumption|].
    rewrite Hget. now left.
Qed.

Lemma lookup_signal_pins_valid pins connections_list :
  NoDup (map Pin.key pins) ->
  Forall (fun ref => ref < length pins)
         (lookup_signal_pins (make_pin_lookup (init_pins pins)) connections_list).
Proof.
  intros Hnd. apply Forall_forall. intros ref Href.
  apply lookup_signal_pins_In in Href as (key & _ & Hget).
  apply (pin_lookup_spec pins Hnd) in Hget as (q & Hq & _).
  apply nth_error_Some. congruence.
Qed.

Lemma annotate_signals_events signals pins :
  NoDup (map Pin.key pins) ->
  forall store,
    core_kept pins store ->
    annotate_signals signals (make_pin_lookup (init_pins pins)) store
    = fold_left assign (annotation_events signals pins) store.
Proof.
  intros Hnd. unfold annotate_signals, annotation_events. cbv zeta.
  induction signals as [|[signal_name connections_list] signals IH]; intros store Hcore;
    cbn [fold_left flat_map]; [reflexivity|].
  rewrite fold_left_app.
  destruct (signal_name =? "unconnected"); cbn [fold_left].
  - now apply IH.
  - rewrite (annotate_signal_events pins)
      by (assumption || now apply lookup_signal_pins_valid).
    apply IH. now apply fold_assign_core_kept.
Qed.

Lemma NoDup_app_inv {A : Type} (l1 l2 : list A) :
  NoDup (l1 ++ l2) ->
  NoDup l1 /\ NoDup l2 /\ (forall a, In a l1 -> ~ In a l2).
Proof.
  induction l1 as [|a l1 IH]; cbn; intros H.
  - split; [constructor|]. split; [assumption|]. intros a [].
  - inversion H as [|? ? Hnin Hnd]; subst.
    destruct (IH Hnd) as (H1 & H2 & H3).
    split; [|split; [assumption|]].
    + constructor; [|assumption]. intros Hin. apply Hnin, in_or_app. now left.
    + intros b [<-|Hb] Hb2.
      * apply Hnin, in_or_app. now right.
      * now apply (H3 b).
Qed.

Lemma NoDup_map_filter {A B : Type} (f : A -> B) (p : A -> bool) (l : list A) :
  NoDup (map f l) -> NoDup (map f (filter p l)).
Proof.
  induction l as [|a l IH]; cbn; intros H; [constructor|].
  inversion H as [|? ? Hnin Hnd]; subst.
  destruct (p a); cbn; [|now apply IH].
  constructor; [|now apply IH].
  intros Hin. apply Hnin. apply in_map_iff in Hin as (b & Hb & Hin).
  apply filter_In in Hin as [Hin _]. apply in_map_iff. now exists b.
Qed.

Lemma dict_unique_value {V : Type} (d : list (string * V)) k v v' :
  NoDup (map fst d) -> In (k, v) d -> In (k, v') d -> v = v'.
Proof.
  induction d as [|[k0 v0] d IH]; cbn; intros Hnd H1 H2; [destruct H1|].
  inversion Hnd as [|? ? Hnin Hnd']; subst.
  destruct H1 as [E1|H1], H2 as [E2|H2].
  - congruence.
  - exfalso. apply Hnin. apply (in_map fst) in H2. cbn in H2. congruence.
  - exfalso. apply Hnin. apply (in_map fst) in H1. cbn in H1. congruence.
  - now apply IH.
Qed.

(** *** The net of a pin when every endpoint is listed once *)

Lemma find_signal_connected signals component pin :
  _find_signal signals component pin <> "unconnected" ->
  exists connections,
    In (_find_signal signals component pin, connections) signals /\
    In (component, pin) connections.
Proof.
  induction signals as [|[name connections] signals IH]; cbn; intros H.
  - now destruct H.
  - destruct (endpoint_in component pin connections) eqn:E.
    + apply endpoint_in_spec in E. exists connections. split; [now left|assumption].
    + destruct (IH H) as (c & Hin & Hc). exists c. split; [now right|assumption].
Qed.

Lemma find_signal_listed signals component pin signal_name connections :
  NoDup (flat_map snd signals) ->
  In (signal_name, connections) signals ->
  In (component, pin) connections ->
  _find_signal signals component pin = signal_name.
Proof.
  induction signals as [|[name0 connections0] signals IH]; cbn [flat_map snd];
    intros Hnd Hin Hc; [destruct Hin|].
  apply NoDup_app_inv in Hnd as (_ & Hnd' & Hdisj).
  cbn [_find_signal]. destruct (endpoint_in component pin connections0) eqn:E.
  - apply endpoint_in_spec in E.
    destruct Hin as [[= -> ->]|Hin]; [reflexivity|].
    exfalso. apply (Hdisj _ E). apply in_flat_map.
    exists (signal_name, connections). now split.
  - destruct Hin as [[= <- <-]|Hin].
    + apply endpoint_in_spec in Hc. congruence.
    + now apply IH.
Qed.

(** *** The pin objects the annotation assigns *)

Lemma signal_events_refs pins signal_pins :
  map fst (signal_events pins signal_pins) = signal_pins.
Proof.
  unfold signal_events, enumerate. rewrite map_map.
  rewrite <- (enumerate_from_snd signal_pins 0) at 2.
  apply map_ext. now intros [i r].
Qed.

Lemma pin_lookup_injective pins key key' ref :
  NoDup (map Pin.key pins) ->
  dict_get pair_eqb (make_pin_lookup (init_pins pins)) key = Some ref ->
  dict_get pair_eqb (make_pin_lookup (init_pins pins)) key' = Some ref ->
  key = key'.
Proof.
  intros Hnd H1 H2.
  apply (pin_lookup_spec pins Hnd) in H1 as (q & Hq & <-).
  apply (pin_lookup_spec pins Hnd) in H2 as (q' & Hq' & <-).
  congruence.
Qed.

Lemma lookup_signal_pins_NoDup pins connections_list :
  NoDup (map Pin.key pins) ->
  NoDup connections_list ->
  NoDup (lookup_signal_pins (make_pin_lookup (init_pins pins)) connections_list).
Proof.
  intros Hnd. induction connections_list as [|key l IH]; intros Hl; [constructor|].
  inversion Hl as [|? ? Hnin Hl']; subst.
  change (lookup_signal_pins ?d (key :: l))
    with ((match dict_get pair_eqb d key with Some ref => [ref] | None => [] end)
          ++ lookup_signal_pins d l).
  destruct (dict_get pair_eqb _ key) as [ref|] eqn:Hget; cbn [app]; [|now apply IH].
  constructor; [|now apply IH].
  intros Hin. apply lookup_signal_pins_In in Hin as (key' & Hkey' & Hget').
  rewrite (pin_lookup_injective _ _ _ _ Hnd Hget Hget') in Hnin. contradiction.
Qed.

Lemma annotation_events_ref signals pins ref :
  In ref (map fst (annotation_events signals pins)) ->
  exists signal_name connections_list key,
    In (signal_name, connections_list) signals /\
    signal_name <> "unconnected" /\
    In key connections_list /\
    dict_get pair_eqb (make_pin_lookup (init_pins pins)) key = Some ref.
Proof.
  unfold annotation_events. cbv zeta. intros H.
  apply in_map_iff in H as ([r v] & Hr & Hin). cbn in Hr. subst r.
  apply in_flat_map in Hin as ([signal_name connections_list] & Hs & Hin).
  destruct (String.eqb_spec signal_name "unconnected") as [_|Hne]; [destruct Hin|].
  apply (in_map fst) in Hin. rewrite signal_events_refs in Hin. cbn [fst] in Hin.
  apply lookup_signal_pins_In in Hin as (key & Hkey & Hget).
  now exists signal_name, connections_list, key.
Qed.

Lemma annotation_events_NoDup signals pins :
  NoDup (map Pin.key pins) ->
  NoDup (flat_map snd signals) ->
  NoDup (map fst (annotation_events signals pins)).
Proof.
  intros Hnd. unfold annotation_events. cbv zeta.
  induction signals as [|[signal_name connections_list] signals IH];
    cbn [flat_map snd]; intros Hs; [constructor|].
  apply NoDup_app_inv in Hs as (H1 & H2 & Hdisj).
  rewrite map_app. apply NoDup_app; [|now apply IH|].
  - destruct (signal_name =? "unconnected"); [constructor|].
    rewrite signal_events_refs. now apply lookup_signal_pins_NoDup.
  - intros ref Href Href'.
    destruct (signal_name =? "unconnected"); [destruct Href|].
    rewrite signal_events_refs in Href.
    apply lookup_signal_pins_In in Href as (key & Hkey & Hget).
    apply (annotation_events_ref signals pins) in Href'
      as (n' & c' & key' & Hin' & _ & Hkey' & Hget').
    rewrite (pin_lookup_injective _ _ _ _ Hnd Hget Hget') in Hkey.
    apply (Hdisj _ Hkey). apply in_flat_map. exists (n', c'). now split.
Qed.

Lemma annotation_events_In signals pins signal_name connections_list i ref :
  In (signal_name, connections_list) signals ->
  signal_name <> "unconnected" ->
  let signal_pins :=
    lookup_signal_pins (make_pin_lookup (init_pins pins)) connections_list in
  nth_error signal_pins i = Some ref ->
  In (ref, (Str (join "|" (map (label_at pins) (peer_refs signal_pins i))),
            Str (bracketed (peer_refs signal_pins i))))
     (annotation_events signals pins).
Proof.
  intros Hin Hne signal_pins Hi. unfold annotation_events. cbv zeta.
  apply in_flat_map. exists (signal_name, connections_list). split; [assumption|].
  apply String.eqb_neq in Hne. rewrite Hne.
  unfold signal_events. apply in_map_iff. exists (i, ref). split; [reflexivity|].
  now apply enumerate_In.
Qed.

Lemma peer_refs_spec signal_pins i ref :
  NoDup signal_pins ->
  nth_error signal_pins i = Some ref ->
  NoDup (peer_refs signal_pins i) /\
  forall j, In j (peer_refs signal_pins i) <-> In j signal_pins /\ j <> ref.
Proof.
  intros Hnd Hi. rewrite peer_refs_filter. split.
  - apply NoDup_map_filter. unfold enumerate. now rewrite enumerate_from_snd.
  - intros j. rewrite in_map_iff. split.
    + intros ([m r] & Hr & Hin). cbn in Hr. subst r.
      apply filter_In in Hin as [Hin Hm]. cbn in Hm.
      apply enumerate_In in Hin. split; [now apply nth_error_In with m|].
      intros ->. apply negb_true_iff, Nat.eqb_neq in Hm. apply Hm.
      apply (proj1 (NoDup_nth_error signal_pins) Hnd).
      * apply nth_error_Some. congruence.
      * congruence.
    + intros [Hin Hne]. apply In_nth_error in Hin as [m Hm].
      exists (m, j). split; [reflexivity|]. apply filter_In. split.
      * now apply enumerate_In.
      * cbn. apply negb_true_iff, Nat.eqb_neq. intros ->. congruence.
Qed.

(** Every pin the resolver returns carries the net [_find_signal] gives its
    component and pin name. *)
Lemma calculate_signals_resolved signals shapes components pins :
  _calculate_pin_positions signals shapes components = Ok pins ->
  forall p, In p pins ->
    Pin.signal p = _find_signal signals (Pin.component p) (Pin.pin_name p).
Proof.
  intros Hcalc p Hp. apply calculate_blocks in Hcalc as (blocks & HF & ->).
  apply in_concat in Hp as (block & Hblock & Hp).
  destruct (Forall2_In_r _ _ _ _ HF Hblock) as ([comp_name comp_data] & _ & Hb).
  destruct (Component.shape comp_data) as [shape_name|] eqn:Hs.
  2:{ rewrite skipped_component_adds_no_pin in Hb by now left.
      injection Hb as <-. destruct Hp. }
  destruct (dict_get String.eqb shapes shape_name) as [shape_pins|] eqn:Hd.
  2:{ rewrite skipped_component_adds_no_pin in Hb by (right; now exists shape_name).
      injection Hb as <-. destruct Hp. }
  destruct (component_pins_resolved _ _ _ _ _ _ _ Hs Hd Hb) as (cx & cy & _ & _ & ->).
  cbv zeta in Hp.
  set (f := fun p => (Pin.signal p,
                      _find_signal signals (Pin.component p) (Pin.pin_name p))).
  enough (Hf : fst (f p) = snd (f p)) by exact Hf.
  assert (Hall : forall q,
            In q (map (component_pin_data signals comp_name comp_data cx cy) shape_pins) ->
            fst (f q) = snd (f q)).
  { intros q Hq. apply in_map_iff in Hq as (sp & <- & _). reflexivity. }
  destruct (is_swapped comp_name (length shape_pins)).
  - apply (in_map f) in Hp.
    rewrite (swap_coordinates_fields
               (fun c n _ s => (s, _find_signal signals c n))) in Hp.
    apply in_map_iff in Hp as (q & <- & Hq). apply Hall.
    eapply Permutation_in; [apply sort_by_perm|exact Hq].
  - now apply Hall.
Qed.

(** C7, counterexample: the endpoint ("R1", "1") is listed in the nets "A"
    and "B".  The pin "R1:1" is resolved to "A", which it shares with "R2:1"
    alone (id 1), yet its row names "R3:1" (id 2), a pin of "B"; and the row of
    "R3:1", alone on "B", names "R1:1". *)
Lemma C7_counterexample :
  (forall p, In p ex_shared_pins ->
     Pin.signal p = _find_signal ex_shared_signals (Pin.component p) (Pin.pin_name p)) /\
  map (fun row => (Pin.signal (HPin.pin row), HPin.id row,
                   HPin.connected_to row, HPin.connected_ids row))
      (export_houdini_csv ex_shared_signals ex_shared_pins)
  = [ ("A", 0, Str "R3:1", Str "[2]");
      ("A", 1, Str "R1:1", Str "[0]");
      ("B", 2, Str "R1:1", Str "[0]") ] /\
  ~ (forall row, nth_error (export_houdini_csv ex_shared_signals ex_shared_pins) 0
                 = Some row ->
       HPin.connected_to row = Str "R2:1" /\ HPin.connected_ids row = Str "[1]").
Proof.
  split; [intros p [<-|[<-|[<-|[]]]]; reflexivity|].
  split; [reflexivity|].
  intros H. destruct (H _ eq_refl) as [Hto _]. discriminate Hto.
Qed.

(** C7, as amended: when every (component, pin name) pair names one resolved
    pin and every endpoint is listed once in the signal table, every pin row of
    the combined graph table carries: an id that is the 0-based index of the
    pin in the pin list; z equal to 0.0 if the layer is "TOP" and -0.1
    otherwise; for a pin on a net, connected_to equal to the pipe-joined
    "component:pin_name" of every other pin sharing its net and connected_ids
    equal to the bracketed comma-joined ids of those same peers (the string
    "[]" when there is none); for an unconnected pin, the empty list as
    connected_to and "[]" as connected_ids. *)
Theorem C7_combined_graph_rows signals pins i p :
  NoDup (map fst signals) ->
  NoDup (flat_map snd signals) ->
  NoDup (map Pin.key pins) ->
  (forall q, In q pins ->
     Pin.signal q = _find_signal signals (Pin.component q) (Pin.pin_name q)) ->
  nth_error pins i = Some p ->
  exists row,
    nth_error (export_houdini_csv signals pins) i = Some row /\
    HPin.pin row = p /\
    HPin.id row = i /\
    HPin.z row = (if Pin.layer p =? "TOP" then 0.0 else -0.1)%R /\
    (Pin.signal p = "unconnected" ->
     HPin.connected_to row = EmptyList /\ HPin.connected_ids row = Str "[]") /\
    (Pin.signal p <> "unconnected" ->
     exists peers,
       NoDup peers /\
       (forall j, In j peers
                  <-> j <> i /\ exists q, nth_error pins j = Some q /\
                                          Pin.signal q = Pin.signal p) /\
       HPin.connected_to row = Str (join "|" (map (label_at pins) peers)) /\
       HPin.connected_ids row
       = Str ("[" ++ join "," (map str_of_nat peers) ++ "]")%string).
Proof.
  intros Hnames Hends Hkeys Hres Hp.
  set (L := make_pin_lookup (init_pins pins)).
  assert (HL : dict_get pair_eqb L (Pin.key p) = Some i).
  { apply (pin_lookup_spec pins Hkeys). now exists p. }
  unfold export_houdini_csv. cbv zeta.
  rewrite (annotate_signals_events signals pins Hkeys) by reflexivity.
  destruct (assign_events_nth (annotation_events signals pins) (init_pins pins)
              (annotation_events_NoDup _ _ Hkeys Hends)) as [Hset Hkeep].
  rewrite nth_error_map.
  destruct (String.eqb_spec (Pin.signal p) "unconnected") as [Hu|Hc].
  - (* no assignment reaches the pin *)
    rewrite Hkeep.
    + rewrite init_pins_nth, Hp. cbn [option_map].
      eexists. split; [reflexivity|]. cbn.
      split; [reflexivity|]. split; [reflexivity|]. split; [reflexivity|]. split.
      * intros _. split; reflexivity.
      * intros Hne. now destruct Hne.
    + intros Href.
      apply annotation_events_ref in Href as (n & c & key & Hin & Hne & Hkey & Hget).
      rewrite (pin_lookup_injective _ _ _ _ Hkeys Hget HL) in Hkey.
      apply Hne. rewrite <- Hu, (Hres p) by now apply nth_error_In with i.
      symmetry. destruct p as [pc pn ? ? ? ?]. cbn in *.
      now apply find_signal_listed with c.
  - (* one assignment, made for the net of the pin *)
    assert (Hin_p : In p pins) by now apply nth_error_In with i.
    pose proof (Hres p Hin_p) as Hsig.
    destruct (find_signal_connected signals (Pin.component p) (Pin.pin_name p))
      as (connections & Hnet & Hkey); [now rewrite <- Hsig|].
    rewrite <- Hsig in Hnet.
    set (signal_pins := lookup_signal_pins L connections).
    assert (Hi : In i signal_pins).
    { apply lookup_signal_pins_In. now exists (Pin.key p). }
    apply In_nth_error in Hi as [m Hm].
    rewrite (Hset _ _ (annotation_events_In _ _ _ _ _ _ Hnet Hc Hm)).
    rewrite init_pins_nth, Hp. cbn [option_map fst snd].
    eexists. split; [reflexivity|]. cbn.
    split; [reflexivity|]. split; [reflexivity|]. split; [reflexivity|].
    split; [intros Hu; now destruct Hc|].
    intros _. exists (peer_refs signal_pins m).
    assert (Hnd : NoDup signal_pins).
    { apply lookup_signal_pins_NoDup; [assumption|].
      clear - Hends Hnet. induction signals as [|[n c] signals IH]; [destruct Hnet|].
      cbn in Hends. apply NoDup_app_inv in Hends as (H1 & H2 & _).
      destruct Hnet as [[= -> ->]|Hnet]; [assumption|now apply IH]. }
    destruct (peer_refs_spec signal_pins m i Hnd Hm) as [Hnd' Hpeers].
    split; [assumption|]. split; [|split; reflexivity].
    intros j. rewrite Hpeers. unfold signal_pins. rewrite lookup_signal_pins_In.
    split.
    + intros [(key & Hk & Hget) Hne]. split; [assumption|].
      apply (pin_lookup_spec pins Hkeys) in Hget as (q & Hq & <-).
      exists q. split; [assumption|].
      rewrite (Hres q) by now apply nth_error_In with j.
      destruct q as [qc qn ? ? ? ?]. cbn in *.
      now apply find_signal_listed with connections.
    + intros [Hne (q & Hq & Hqs)]. split; [|assumption].
      exists (Pin.key q). split.
      * assert (Hin_q : In q pins) by now apply nth_error_In with j.
        pose proof (Hres q Hin_q) as Hsq.
        destruct (find_signal_connected signals (Pin.component q) (Pin.pin_name q))
          as (connections' & Hnet' & Hkey'); [rewrite <- Hsq; congruence|].
        rewrite <- Hsq, Hqs in Hnet'.
        now rewrite (dict_unique_value _ _ _ _ Hnames Hnet Hnet').
      * apply (pin_lookup_spec pins Hkeys). now exists q.
Qed.

(** The first pin of the example pins, on the net "GND". *)
Lemma C7_combined_graph_rows_witness :
  exists row,
    nth_error (export_houdini_csv ex_signals ex_pins) 0 = Some row /\
    HPin.pin row = Pin.mk "L-D1" "1" 11 10 "TOP" "GND" /\
    HPin.id row = 0 /\
    HPin.z row = (if "TOP" =? "TOP" then 0.0 else -0.1)%R /\
    ("GND" = "unconnected" ->
     HPin.connected_to row = EmptyList /\ HPin.connected_ids row = Str "[]") /\
    ("GND" <> "unconnected" ->
     exists peers,
       NoDup peers /\
       (forall j, In j peers
                  <-> j <> 0 /\ exists q, nth_error ex_pins j = Some q /\
                                          Pin.signal q = "GND") /\
       HPin.connected_to row = Str (join "|" (map (label_at ex_pins) peers)) /\
       HPin.connected_ids row
       = Str ("[" ++ join "," (map str_of_nat peers) ++ "]")%string).
Proof.
  apply (C7_combined_graph_rows ex_signals ex_pins 0 (Pin.mk "L-D1" "1" 11 10 "TOP" "GND")).
  - repeat constructor; cbn; intuition discriminate.
  - repeat constructor; cbn; intuition discriminate.
  - repeat constructor; cbn; intuition discriminate.
  - intros q [<-|[<-|[<-|[<-|[<-|[]]]]]]; reflexivity.
  - reflexivity.
Defined.

(** * More on the resolver *)

Lemma swap_coordinates_length l : length (swap_coordinates l) = length l.
Proof. destruct l as [|p0 [|p1 rest]]; reflexivity. Qed.

Lemma component_pins_length signals shapes entry block :
  component_pins signals shapes entry = Ok block ->
  length block = resolved_pin_count shapes entry.
Proof.
  destruct entry as [comp_name comp_data]. unfold resolved_pin_count. cbn [snd].
  intros Hb.
  destruct (Component.shape comp_data) as [shape_name|] eqn:Hs.
  2:{ rewrite skipped_component_adds_no_pin in Hb by now left. now injection Hb as <-. }
  destruct (dict_get String.eqb shapes shape_name) as [shape_pins|] eqn:Hd.
  2:{ rewrite skipped_component_adds_no_pin in Hb by (right; now exists shape_name).
      now injection Hb as <-. }
  destruct (component_pins_resolved _ _ _ _ _ _ _ Hs Hd Hb) as (cx & cy & _ & _ & ->).
  cbv zeta. destruct (is_swapped comp_name (length shape_pins)).
  - now rewrite swap_coordinates_length, (Permutation_length (sort_by_perm _ _)), length_map.
  - apply length_map.
Qed.

(** The resolver returns exactly one pin for each pin of the shape of each
    component whose shape is known, the diode exchange included. *)
Theorem resolver_pin_count signals shapes components pins :
  _calculate_pin_positions signals shapes components = Ok pins ->
  length pins = list_sum (map (resolved_pin_count shapes) components).
Proof.
  intros H. apply calculate_blocks in H as (blocks & HF & ->).
  induction HF as [|entry block components blocks Hb _ IH]; [reflexivity|].
  cbn [concat map list_sum]. rewrite length_app, IH.
  now rewrite (component_pins_length _ _ _ _ Hb).
Qed.

(** The example board: two pins of the diode, three of the transistor, none
    of the component whose shape is unknown. *)
Lemma resolver_pin_count_witness :
  length ex_resolved = list_sum (map (resolved_pin_count ex_shapes) ex_components).
Proof.
  apply (resolver_pin_count ex_signals ex_shapes ex_components ex_resolved).
  reflexivity.
Defined.

(** When no component names a known shape (an empty or missing SHAPES
    section, for one) the resolver returns no pin and raises nothing, even
    for components without a placement. *)
Theorem resolver_without_known_shape signals shapes components :
  (forall comp_name comp_data shape_name,
     In (comp_name, comp_data) components ->
     Component.shape comp_data = Some shape_name ->
     dict_get String.eqb shapes shape_name = None) ->
  _calculate_pin_positions signals shapes components = Ok [].
Proof.
  intros H. unfold _calculate_pin_positions.
  rewrite (blocks_complete signals shapes components
             (map (fun _ : string * Component.t => @nil Pin.t) components)).
  - f_equal. clear. induction components as [|e l IH]; [reflexivity|exact IH].
  - induction components as [|[comp_name comp_data] components IH]; cbn [map];
      constructor.
    + apply skipped_component_adds_no_pin.
      destruct (Component.shape comp_data) as [shape_name|] eqn:Hs; [right|now left].
      exists shape_name. split; [reflexivity|].
      apply (H comp_name comp_data); [now left|assumption].
    + apply IH. intros n c s Hin. apply (H n c s). now right.
Qed.

(** A table with no shape at all and a component without a PLACE line. *)
Lemma resolver_without_known_shape_witness :
  _calculate_pin_positions ex_signals [] ex_unplaced = Ok [].
Proof.
  apply resolver_without_known_shape.
  intros comp_name comp_data shape_name _ _. reflexivity.
Defined.

(** ** The transform keeps distances *)

Lemma pin_data_distance signals comp_name comp_x comp_y rotation mirror_x mirror_y flip sp :
  let p := pin_data signals comp_name comp_x comp_y rotation mirror_x mirror_y flip sp in
  ((Pin.x p - comp_x) * (Pin.x p - comp_x) + (Pin.y p - comp_y) * (Pin.y p - comp_y))%R
  = (ShapePin.x sp * ShapePin.x sp + ShapePin.y sp * ShapePin.y sp)%R.
Proof.
  unfold pin_data, _rotate_point. cbn [Pin.x Pin.y].
  set (c := cos (radians rotation)). set (s := sin (radians rotation)).
  assert (H : (s * s + c * c = 1)%R) by apply sin2_cos2.
  set (u := if mirror_x then (- ShapePin.x sp)%R else ShapePin.x sp).
  set (v := if mirror_y then (- ShapePin.y sp)%R else ShapePin.y sp).
  assert (Hu : (u * u = ShapePin.x sp * ShapePin.x sp)%R)
    by (unfold u; destruct mirror_x; ring).
  assert (Hv : (v * v = ShapePin.y sp * ShapePin.y sp)%R)
    by (unfold v; destruct mirror_y; ring).
  rewrite <- Hu, <- Hv.
  replace ((comp_x + (u * c - v * s) - comp_x) * (comp_x + (u * c - v * s) - comp_x)
           + (comp_y + (u * s + v * c) - comp_y) * (comp_y + (u * s + v * c) - comp_y))%R
    with ((u * u + v * v) * (s * s + c * c))%R by ring.
  rewrite H. ring.
Qed.

Lemma swap_coordinates_position l p :
  In p (swap_coordinates l) -> exists q, In q l /\ Pin.x p = Pin.x q /\ Pin.y p = Pin.y q.
Proof.
  destruct l as [|p0 [|p1 rest]]; cbn; try (intros H; now exists p).
  intros [<-|[<-|H]].
  - exists p1. cbn. auto.
  - exists p0. cbn. auto.
  - exists p. auto.
Qed.

(** Every resolved pin of a component lies as far from the placement of the
    component as a pin of its shape lies from the origin of the shape: mirror
    and rotation keep distances, and the diode exchange moves a pin onto the
    position of another pin of the same component. *)
Theorem resolved_pin_distance signals shapes components pins comp_name comp_data
    shape_name shape_pins :
  _calculate_pin_positions signals shapes components = Ok pins ->
  In (comp_name, comp_data) components ->
  Component.shape comp_data = Some shape_name ->
  dict_get String.eqb shapes shape_name = Some shape_pins ->
  exists comp_x comp_y before block after,
    Component.x comp_data = Some comp_x /\
    Component.y comp_data = Some comp_y /\
    pins = before ++ block ++ after /\
    length block = length shape_pins /\
    forall p, In p block ->
      Pin.component p = comp_name /\
      exists sp, In sp shape_pins /\
        ((Pin.x p - comp_x) * (Pin.x p - comp_x)
         + (Pin.y p - comp_y) * (Pin.y p - comp_y))%R
        = (ShapePin.x sp * ShapePin.x sp + ShapePin.y sp * ShapePin.y sp)%R.
Proof.
  intros Hcalc Hin Hs Hd.
  destruct (calculate_block_of _ _ _ _ _ Hcalc Hin) as (block & before & after & Hb & ->).
  destruct (component_pins_resolved _ _ _ _ _ _ _ Hs Hd Hb) as (cx & cy & Hx & Hy & Eb).
  exists cx, cy, before, block, after. repeat split; try assumption.
  - rewrite (component_pins_length _ _ _ _ Hb). unfold resolved_pin_count. cbn [snd].
    now rewrite Hs, Hd.
  - now apply (component_pins_component _ _ _ _ _ Hb).
  - assert (Hq : exists q,
               In q (map (component_pin_data signals comp_name comp_data cx cy) shape_pins)
               /\ Pin.x p = Pin.x q /\ Pin.y p = Pin.y q).
    { rewrite Eb in H. cbv zeta in H.
      destruct (is_swapped comp_name (length shape_pins)).
      - apply swap_coordinates_position in H as (q & Hq & Hxy).
        exists q. split; [|assumption].
        eapply Permutation_in; [apply sort_by_perm|exact Hq].
      - exists p. auto. }
    destruct Hq as (q & Hq & -> & ->).
    apply in_map_iff in Hq as (sp & <- & Hsp).
    exists sp. split; [assumption|]. apply pin_data_distance.
Qed.

(** The transistor of the example board. *)
Lemma resolved_pin_distance_witness :
  exists comp_x comp_y before block after,
    Component.x (placed 20 5 false "T3") = Some comp_x /\
    Component.y (placed 20 5 false "T3") = Some comp_y /\
    ex_resolved = before ++ block ++ after /\
    length block
    = length [shape_pin "1" 0 0 "TOP"; shape_pin "2" 1 0 "TOP"; shape_pin "3" 2 0 "TOP"] /\
    forall p, In p block ->
      Pin.component p = "Q1" /\
      exists sp,
        In sp [shape_pin "1" 0 0 "TOP"; shape_pin "2" 1 0 "TOP"; shape_pin "3" 2 0 "TOP"] /\
        ((Pin.x p - comp_x) * (Pin.x p - comp_x)
         + (Pin.y p - comp_y) * (Pin.y p - comp_y))%R
        = (ShapePin.x sp * ShapePin.x sp + ShapePin.y sp * ShapePin.y sp)%R.
Proof.
  apply (resolved_pin_distance ex_signals ex_shapes ex_components ex_resolved
           "Q1" (placed 20 5 false "T3") "T3").
  - reflexivity.
  - right; left; reflexivity.
  - reflexivity.
  - reflexivity.
Defined.

(** ** The only exception of the resolver *)

Lemma component_step_raises signals shapes pins entry e :
  component_step signals shapes pins entry = Raise e ->
  (Component.x (snd entry) = None /\ e = KeyError "x") \/
  (Component.x (snd entry) <> None /\ Component.y (snd entry) = None /\ e = KeyError "y").
Proof.
  destruct entry as [comp_name comp_data]. cbn [snd]. intros H.
  destruct (Component.shape comp_data) as [shape_name|] eqn:Hs.
  2:{ rewrite component_step_no_shape in H by assumption. discriminate. }
  destruct (dict_get String.eqb shapes shape_name) as [shape_pins|] eqn:Hd.
  2:{ rewrite (component_step_unknown_shape _ _ _ _ _ _ Hs Hd) in H. discriminate. }
  destruct (Component.x comp_data) as [cx|] eqn:Hx.
  - destruct (Component.y comp_data) as [cy|] eqn:Hy.
    + rewrite (component_step_resolved _ _ _ _ _ _ _ _ _ Hs Hd Hx Hy) in H. discriminate.
    + unfold component_step in H. rewrite Hs, Hd, Hx, Hy in H. cbn in H.
      injection H as <-. right. repeat split. discriminate.
  - unfold component_step in H. rewrite Hs, Hd, Hx in H. cbn in H.
    injection H as <-. now left.
Qed.

(** The loop of the resolver, from any list of pins so far. *)
Lemma for_each_component_step_raises signals shapes components : forall pins e,
  (forall comp_name comp_data,
     In (comp_name, comp_data) components ->
     Component.y comp_data = None -> Component.x comp_data = None) ->
  for_each (component_step signals shapes) components pins = Raise e ->
  e = KeyError "x".
Proof.
  induction components as [|[comp_name comp_data] components IH]; intros pins e Hxy H;
    cbn [for_each] in H; [discriminate|].
  destruct (component_step signals shapes pins (comp_name, comp_data)) as [pins'|e']
    eqn:Hstep.
  - apply (IH pins'); [|assumption]. intros n c Hin. apply (Hxy n c). now right.
  - injection H as <-.
    apply component_step_raises in Hstep as [[_ ->]|(Hx & Hy & _)]; [reflexivity|].
    cbn [snd] in *. exfalso. apply Hx. apply (Hxy comp_name comp_data); [now left|assumption].
Qed.

(** On a component table in which a placement is whole or absent (x and y
    are set together, as the PLACE line does), the one exception the resolver
    can raise is the [KeyError] on "x". *)
Theorem resolver_raises_only_missing_x signals shapes components e :
  (forall comp_name comp_data,
     In (comp_name, comp_data) components ->
     Component.y comp_data = None -> Component.x comp_data = None) ->
  _calculate_pin_positions signals shapes components = Raise e ->
  e = KeyError "x".
Proof. apply for_each_component_step_raises. Qed.

(** The component "U2", without a PLACE line. *)
Lemma resolver_raises_only_missing_x_witness : KeyError "x" = KeyError "x".
Proof.
  apply (resolver_raises_only_missing_x ex_signals ex_shapes ex_unplaced (KeyError "x")).
  - intros comp_name comp_data [[= <- <-]|[[= <- <-]|[]]]; cbn; [discriminate|reflexivity].
  - reflexivity.
Defined.

(** * The shape table builder *)

Lemma for_each_invariant {A S : Type} (body : S -> A -> result S) (I : S -> Prop) :
  (forall s a s', I s -> body s a = Ok s' -> I s') ->
  forall l s s', I s -> for_each body l s = Ok s' -> I s'.
Proof.
  intros Hstep. induction l as [|a l IH]; intros s s' Hs H; cbn in H.
  - now injection H as <-.
  - destruct (body s a) as [s1|e] eqn:E; [|discriminate].
    apply (IH s1); [|assumption]. now apply (Hstep s a).
Qed.

Lemma dict_set_keys {V : Type} (d : list (string * V)) k v :
  forall k', In k' (map fst (dict_set String.eqb d k v)) <-> k' = k \/ In k' (map fst d).
Proof.
  induction d as [|[k0 v0] d IH]; intros k'; cbn.
  - intuition congruence.
  - destruct (String.eqb_spec k k0) as [->|Hne]; cbn.
    + intuition congruence.
    + rewrite IH. intuition congruence.
Qed.

Lemma dict_set_NoDup {V : Type} (d : list (string * V)) k v :
  NoDup (map fst d) -> NoDup (map fst (dict_set String.eqb d k v)).
Proof.
  induction d as [|[k0 v0] d IH]; intros H; cbn.
  - constructor; [intros []|constructor].
  - inversion H as [|? ? Hnin Hnd]; subst.
    destruct (String.eqb_spec k k0) as [->|Hne]; cbn.
    + now constructor.
    + constructor; [|now apply IH].
      rewrite dict_set_keys. intros [->|Hin]; [now apply Hne|now apply Hnin].
Qed.

Lemma dict_set_get_string {V : Type} (d : list (string * V)) k v k' :
  dict_get String.eqb (dict_set String.eqb d k v) k'
  = if k' =? k then Some v else dict_get String.eqb d k'.
Proof.
  induction d as [|[k0 v0] d IH]; cbn [dict_set dict_get].
  - reflexivity.
  - destruct (String.eqb_spec k k0) as [E|Hne]; cbn [dict_get].
    + subst k0. now destruct (k' =? k).
    + rewrite IH. destruct (String.eqb_spec k' k0) as [E|Hne'].
      * subst k0. destruct (String.eqb_spec k' k) as [E|_]; [now destruct Hne|reflexivity].
      * reflexivity.
Qed.

Lemma parse_shapes_line_keys st line st' :
  NoDup (map fst (snd st)) ->
  parse_shapes_line st line = Ok st' ->
  NoDup (map fst (snd st')).
Proof.
  destruct st as [current_shape shapes]. cbn [snd]. intros Hnd H.
  unfold parse_shapes_line in H.
  destruct (line =? ""); [now injection H as <-|].
  destruct (shape_match line) as [name|].
  { injection H as <-. cbn [snd]. now apply dict_set_NoDup. }
  destruct (pin_match line) as [groups|]; [|now injection H as <-].
  destruct current_shape as [shape|]; [|now injection H as <-].
  destruct (float (PinGroups.g2 groups)) as [x|]; [|discriminate].
  destruct (float (PinGroups.g3 groups)) as [y|]; [|discriminate].
  cbn in H. injection H as <-. cbn [snd]. now apply dict_append_NoDup.
Qed.

(** The shape table [_parse_shapes] returns is a dictionary: no shape name
    appears twice in it, however often the section declares a name. *)
Theorem parse_shapes_names_distinct shapes_section shapes :
  _parse_shapes shapes_section = Ok shapes ->
  NoDup (map fst shapes).
Proof.
  unfold _parse_shapes. intros H.
  destruct (for_each parse_shapes_line _ _) as [st|] eqn:E; [|discriminate].
  cbn in H. injection H as <-.
  apply (for_each_invariant parse_shapes_line (fun st => NoDup (map fst (snd st))))
    with (3 := E).
  - intros s a s'. apply parse_shapes_line_keys.
  - constructor.
Qed.

(** The example section. *)
Lemma parse_shapes_names_distinct_witness :
  NoDup (map fst [("S", [ShapePin.mk "1" "PAD" (IZR 0 / IZR (10 ^ 0)) (IZR 0 / IZR (10 ^ 0))
                                     "BOTTOM" 90;
                         ShapePin.mk "2" "PAD" (IZR 15 / IZR (10 ^ 1))
                                     (- (IZR 2 / IZR (10 ^ 0))) "TOP" 0])]).
Proof.
  apply (parse_shapes_names_distinct ex_section). reflexivity.
Defined.

(** A PIN line whose x or y text is not a number (two points, a sign alone,
    a sign inside) stops the whole parse: [float] raises [ValueError] and
    nothing catches it before [parse]. *)
Theorem parse_shapes_line_bad_coordinate l shape shapes e :
  PinLine.wf l = true ->
  float (PinLine.x l) = Raise e \/
  ((exists x, float (PinLine.x l) = Ok x) /\ float (PinLine.y l) = Raise e) ->
  parse_shapes_line (Some shape, shapes) (PinLine.render l) = Raise e.
Proof.
  intros Hwf H. unfold parse_shapes_line.
  change (PinLine.render l =? "") with false. cbv iota.
  rewrite shape_match_render.
  destruct (pin_match_render l Hwf) as [extra ->].
  cbn [PinGroups.g0 PinGroups.g1 PinGroups.g2 PinGroups.g3 PinGroups.g4 PinGroups.g5].
  destruct H as [Hx|[[x Hx] Hy]].
  - now rewrite Hx.
  - now rewrite Hx, Hy.
Qed.

(** The line PIN "1" PAD 1.2.3 0. *)
Lemma parse_shapes_line_bad_coordinate_witness :
  parse_shapes_line (Some "S", [("S", [])]) (PinLine.render ex_bad_line)
  = Raise (ValueError "could not convert string to float").
Proof.
  apply (parse_shapes_line_bad_coordinate ex_bad_line "S" [("S", [])]).
  - reflexivity.
  - left. reflexivity.
Defined.

(** A SHAPE line always opens an empty pin list: when the name was declared
    before, the pins collected for it are dropped; the other shapes keep
    theirs and the order of the table does not change. *)
Theorem shape_line_resets_pins current_shape shapes line name :
  shape_match line = Some name ->
  exists shapes',
    parse_shapes_line (current_shape, shapes) line = Ok (Some name, shapes') /\
    dict_get String.eqb shapes' name = Some [] /\
    (forall other, other <> name ->
       dict_get String.eqb shapes' other = dict_get String.eqb shapes other) /\
    (In name (map fst shapes) -> map fst shapes' = map fst shapes).
Proof.
  intros Hm. exists (dict_set String.eqb shapes name []).
  split; [|split; [|split]].
  - unfold parse_shapes_line. rewrite Hm.
    destruct (String.eqb_spec line "") as [->|_]; [discriminate Hm|reflexivity].
  - now rewrite dict_set_get_string, String.eqb_refl.
  - intros other Hne. rewrite dict_set_get_string.
    apply String.eqb_neq in Hne. now rewrite Hne.
  - clear Hm. induction shapes as [|[k v] shapes IH]; cbn; [intros []|].
    destruct (String.eqb_spec name k) as [->|Hne]; [reflexivity|].
    intros [E|Hin]; [now destruct Hne|]. cbn. now rewrite IH.
Qed.

(** The shape "D2" of the example table declared again. *)
Lemma shape_line_resets_pins_witness :
  exists shapes',
    parse_shapes_line (Some "T3", ex_shapes)
                      ("SHAPE " ++ String dquote ("D2" ++ String dquote ""))%string
    = Ok (Some "D2", shapes') /\
    dict_get String.eqb shapes' "D2" = Some [] /\
    (forall other, other <> "D2" ->
       dict_get String.eqb shapes' other = dict_get String.eqb ex_shapes other) /\
    (In "D2" (map fst ex_shapes) -> map fst shapes' = map fst ex_shapes).
Proof.
  apply (shape_line_resets_pins (Some "T3") ex_shapes). reflexivity.
Defined.

(** * The signal table builder *)

Lemma parse_signals_lines_tagged lines : forall current signals,
  parse_signals_lines lines (current, signals)
  = (match lines with [] => current | _ => fst (parse_signals_lines lines (current, signals)) end,
     fold_left (fun d entry => dict_append d (fst entry) (snd entry))
               (tagged_nodes lines current) signals).
Proof.
  unfold parse_signals_lines.
  induction lines as [|line lines IH]; intros current signals; [reflexivity|].
  cbn [fold_left tagged_nodes]. unfold parse_signals_line at 2 4.
  destruct (line =? "").
  - rewrite IH. cbn [fst snd]. destruct lines; reflexivity.
  - destruct (quoted_match "SIGNAL" line) as [name|].
    + rewrite IH. cbn [fst snd]. destruct lines; reflexivity.
    + destruct (node_match line) as [node|]; [destruct current as [name|]|].
      * rewrite IH. cbn [fst snd fold_left]. destruct lines; reflexivity.
      * rewrite IH. cbn [fst snd]. destruct lines; reflexivity.
      * rewrite IH. cbn [fst snd]. destruct lines; reflexivity.
Qed.

Lemma parse_signals_tagged signals_section signals :
  _parse_signals signals_section signals
  = fold_left (fun d entry => dict_append d (fst entry) (snd entry))
              (tagged_nodes (map strip (split_lines signals_section)) None) signals.
Proof. unfold _parse_signals. now rewrite parse_signals_lines_tagged. Qed.

Lemma tagged_fold_spec {V : Type} (tagged : list (string * V)) : forall d,
  NoDup (map fst d) ->
  (forall name nodes, In (name, nodes) d -> nodes <> []) ->
  let d' := fold_left (fun d entry => dict_append d (fst entry) (snd entry)) tagged d in
  NoDup (map fst d') /\
  (forall name nodes, In (name, nodes) d' -> nodes <> []) /\
  forall name,
    dict_get String.eqb d' name
    = match dict_get String.eqb d name, nodes_of name tagged with
      | None, [] => None
      | o, l => Some (get_default o [] ++ l)
      end.
Proof.
  induction tagged as [|[n node] tagged IH]; intros d Hnd Hne; cbn [fold_left fst snd].
  - split; [assumption|]. split; [assumption|]. intros name. cbn.
    destruct (dict_get String.eqb d name); [now rewrite app_nil_r|reflexivity].
  - destruct (IH (dict_append d n node)) as (H1 & H2 & H3).
    + now apply dict_append_NoDup.
    + intros name nodes Hin. clear - Hin Hne.
      induction d as [|[k vs] d IHd]; cbn in Hin.
      * destruct Hin as [[= <- <-]|[]]. discriminate.
      * destruct (n =? k).
        -- destruct Hin as [[= <- <-]|Hin]; [now destruct vs|].
           apply (Hne name nodes). now right.
        -- destruct Hin as [[= <- <-]|Hin]; [apply (Hne k vs); now left|].
           apply IHd; [|assumption]. intros a b Hab. apply (Hne a b). now right.
    + split; [assumption|]. split; [assumption|].
      intros name. rewrite H3, dict_append_get. unfold nodes_of. cbn [filter fst snd map].
      destruct (String.eqb_spec name n) as [->|Hneq].
      * rewrite String.eqb_refl. cbn [map].
        destruct (dict_get String.eqb d n) as [l|]; cbn [get_default].
        -- cbn. now rewrite <- app_assoc.
        -- cbn. reflexivity.
      * destruct (String.eqb_spec n name) as [E|_]; [now destruct Hneq|].
        reflexivity.
Qed.

(** The signal table holds, for each net name, the nodes read under every
    SIGNAL line of that name, in the order of the lines (a name that comes
    back adds to its list); a net under which no node was read has no entry,
    no entry is empty, and no name appears twice.  A NODE line before the
    first SIGNAL line counts for nothing. *)
Theorem parse_signals_groups_nodes signals_section :
  let signals := _parse_signals signals_section [] in
  let tagged := tagged_nodes (map strip (split_lines signals_section)) None in
  NoDup (map fst signals) /\
  (forall name nodes, In (name, nodes) signals -> nodes <> []) /\
  forall name,
    dict_get String.eqb signals name
    = match nodes_of name tagged with
      | [] => None
      | nodes => Some nodes
      end.
Proof.
  cbv zeta. rewrite parse_signals_tagged.
  destruct (tagged_fold_spec
              (tagged_nodes (map strip (split_lines signals_section)) None) [])
    as (H1 & H2 & H3); [constructor|intros ? ? []|].
  split; [exact H1|]. split; [exact H2|]. intros name. apply H3.
Qed.

(** ** Reading back the text of a signal table *)

Lemma all_chars_app p a b :
  all_chars p (a ++ b)%string = all_chars p a && all_chars p b.
Proof. induction a as [|c a IH]; cbn; [reflexivity|]. now rewrite IH, andb_assoc. Qed.

Lemma all_chars_impl (p q : ascii -> bool) s :
  (forall c, p c = true -> q c = true) -> all_chars p s = true -> all_chars q s = true.
Proof.
  intros H. induction s as [|c s IH]; cbn; [reflexivity|].
  intros Hs. apply andb_true_iff in Hs as [Hc Hs]. now rewrite (H c Hc), IH.
Qed.

Lemma run_impl (p q : ascii -> bool) s :
  (forall c, p c = true -> q c = true) -> run p s = true -> run q s = true.
Proof.
  intros H. unfold run. intros Hs. apply andb_true_iff in Hs as [Hne Hs].
  now rewrite Hne, (all_chars_impl p q s H Hs).
Qed.

Lemma name_char_not_dquote c : is_name_char c = true -> not_dquote c = true.
Proof. unfold is_name_char. intros H. now apply andb_true_iff in H as [H _]. Qed.

Lemma name_char_not_newline c : is_name_char c = true -> not_newline c = true.
Proof. unfold is_name_char. intros H. now apply andb_true_iff in H as [_ H]. Qed.

Lemma split_lines_single s : all_chars not_newline s = true -> split_lines s = [s].
Proof.
  induction s as [|c s IH]; cbn; [reflexivity|].
  intros H. apply andb_true_iff in H as [Hc Hs].
  unfold not_newline, newline in Hc. apply negb_true_iff in Hc. rewrite Hc.
  now rewrite (IH Hs).
Qed.

Lemma split_lines_app s rest :
  all_chars not_newline s = true ->
  split_lines (s ++ String newline rest)%string = s :: split_lines rest.
Proof.
  induction s as [|c s IH]; cbn; [reflexivity|].
  intros H. apply andb_true_iff in H as [Hc Hs].
  unfold not_newline, newline in Hc. apply negb_true_iff in Hc. rewrite Hc.
  now rewrite (IH Hs).
Qed.

Lemma split_lines_join line lines :
  Forall (fun l => all_chars not_newline l = true) (line :: lines) ->
  split_lines (join (String newline "") (line :: lines)) = line :: lines.
Proof.
  revert line. induction lines as [|l lines IH]; intros line H;
    inversion H as [|? ? Hl Hrest]; subst.
  - now apply split_lines_single.
  - change (join (String newline "") (line :: l :: lines))
      with (line ++ String newline (join (String newline "") (l :: lines)))%string.
    rewrite split_lines_app by assumption.
    f_equal. now apply IH.
Qed.

Lemma list_ascii_of_string_app a b :
  list_ascii_of_string (a ++ b) = list_ascii_of_string a ++ list_ascii_of_string b.
Proof. induction a as [|c a IH]; cbn; [reflexivity|]. now rewrite IH. Qed.

(** A text that starts and ends with a character that is not a blank is its
    own [strip()]. *)
Lemma lstrip_cons c l : is_space c = false -> lstrip (c :: l) = c :: l.
Proof. intros H. unfold lstrip. now rewrite H. Qed.

Lemma strip_id c middle d :
  is_space c = false -> is_space d = false ->
  strip (String c (middle ++ String d "")) = String c (middle ++ String d "").
Proof.
  intros Hc Hd. unfold strip. cbn [list_ascii_of_string].
  rewrite (lstrip_cons c _ Hc).
  rewrite list_ascii_of_string_app. cbn [list_ascii_of_string].
  remember (c :: list_ascii_of_string middle) as body eqn:Hbody.
  change (c :: list_ascii_of_string middle ++ [d])
    with ((c :: list_ascii_of_string middle) ++ [d]).
  rewrite <- Hbody, rev_app_distr.
  change (rev [d] ++ rev body) with (d :: rev body).
  rewrite (lstrip_cons d _ Hd).
  change (rev (d :: rev body)) with (rev (rev body) ++ [d]).
  rewrite rev_involutive, Hbody. cbn [app string_of_list_ascii]. f_equal.
  rewrite <- (string_of_list_ascii_of_string (middle ++ String d "")).
  now rewrite list_ascii_of_string_app.
Qed.

Lemma signal_line_strip name : strip (signal_line name) = signal_line name.
Proof.
  unfold signal_line.
  replace ("SIGNAL " ++ String dquote (name ++ String dquote ""))%string
    with (String "S" (("IGNAL " ++ String dquote name) ++ String dquote ""))%string
    by reflexivity.
  now apply strip_id.
Qed.

Lemma append_assoc_string (a b c : string) : ((a ++ b) ++ c = a ++ (b ++ c))%string.
Proof. induction a as [|x a IH]; cbn; [reflexivity|]. now rewrite IH. Qed.

Lemma node_line_strip node : strip (node_line node) = node_line node.
Proof.
  unfold node_line.
  replace ("NODE " ++ String dquote (fst node ++ String dquote (" " ++ String dquote (snd node
             ++ String dquote ""))))%string
    with (String "N" (("ODE " ++ String dquote (fst node ++ String dquote (" "
             ++ String dquote (snd node)))) ++ String dquote ""))%string
    by (cbn [append]; do 6 f_equal; rewrite append_assoc_string; cbn [append];
        do 3 f_equal; now rewrite append_assoc_string).
  now apply strip_id.
Qed.

Lemma quoted_match_signal_line name :
  run is_name_char name = true ->
  quoted_match "SIGNAL" (signal_line name) = Some name.
Proof.
  intros H. apply (run_impl _ _ _ name_char_not_dquote) in H.
  unfold quoted_match, signal_line. cbn [literal append Ascii.eqb Bool.eqb obind].
  change (spaces1 (String " " ?s)) with (spaces1 (" " ++ s)).
  rewrite (spaces1_app " ") by reflexivity. cbn [obind literal].
  rewrite Ascii.eqb_refl. cbn [obind].
  rewrite many1_app by (assumption || reflexivity).
  cbn [obind snd fst literal]. now rewrite Ascii.eqb_refl.
Qed.

Lemma node_match_node_line node :
  run is_name_char (fst node) = true ->
  run is_name_char (snd node) = true ->
  node_match (node_line node) = Some node.
Proof.
  intros H1 H2. apply (run_impl _ _ _ name_char_not_dquote) in H1, H2.
  destruct node as [c p]. cbn [fst snd] in *.
  unfold node_match, node_line. cbn [literal append Ascii.eqb Bool.eqb obind fst snd].
  change (spaces1 (String " " ?s)) with (spaces1 (" " ++ s)).
  rewrite (spaces1_app " ") by reflexivity. cbn [obind literal].
  rewrite Ascii.eqb_refl. cbn [obind].
  rewrite many1_app by (assumption || reflexivity).
  cbn [obind snd fst literal]. rewrite Ascii.eqb_refl. cbn [obind].
  change (spaces1 (String " " ?s)) with (spaces1 (" " ++ s)).
  rewrite (spaces1_app " ") by reflexivity. cbn [obind literal].
  rewrite Ascii.eqb_refl. cbn [obind].
  rewrite many1_app by (assumption || reflexivity).
  cbn [obind snd fst literal]. now rewrite Ascii.eqb_refl.
Qed.

Lemma quoted_match_node_line node : quoted_match "SIGNAL" (node_line node) = None.
Proof. reflexivity. Qed.

Lemma tagged_nodes_node_lines nodes name rest :
  forallb (fun node => run is_name_char (fst node) && run is_name_char (snd node)) nodes
  = true ->
  tagged_nodes (map node_line nodes ++ rest) (Some name)
  = map (pair name) nodes ++ tagged_nodes rest (Some name).
Proof.
  induction nodes as [|node nodes IH]; intros H; [reflexivity|].
  cbn [forallb] in H. apply andb_true_iff in H as [Hn H].
  apply andb_true_iff in Hn as [H1 H2].
  cbn [map app tagged_nodes].
  assert (E : (node_line node =? "") = false) by reflexivity. rewrite E.
  rewrite quoted_match_node_line, (node_match_node_line node H1 H2).
  now rewrite (IH H).
Qed.

Lemma tagged_nodes_render signals : forall current,
  wf_signals signals = true ->
  tagged_nodes (render_signal_lines signals) current
  = flat_map (fun '(name, nodes) => map (pair name) nodes) signals.
Proof.
  induction signals as [|[name nodes] signals IH]; intros current H; [reflexivity|].
  cbn [wf_signals forallb] in H. apply andb_true_iff in H as [Hn H].
  apply andb_true_iff in Hn as [Hn Hnodes]. apply andb_true_iff in Hn as [Hname _].
  cbn [render_signal_lines flat_map app tagged_nodes].
  assert (E : (signal_line name =? "") = false) by reflexivity. rewrite E.
  rewrite (quoted_match_signal_line name Hname).
  rewrite (tagged_nodes_node_lines nodes name _ Hnodes).
  f_equal. now apply IH.
Qed.

(** Grouping the nodes of a table listed net after net gives the table
    back. *)
Lemma group_tagged_table (signals : signals_t) : forall d,
  NoDup (map fst d ++ map fst signals) ->
  (forall name nodes, In (name, nodes) signals -> nodes <> []) ->
  fold_left (fun d entry => dict_append d (fst entry) (snd entry))
            (flat_map (fun '(name, nodes) => map (pair name) nodes) signals) d
  = d ++ signals.
Proof.
  induction signals as [|[name nodes] signals IH]; intros d Hnd Hne; cbn [flat_map].
  - now rewrite app_nil_r.
  - rewrite fold_left_app.
    assert (Hnodes : nodes <> []) by (apply (Hne name); now left).
    assert (Hnew : ~ In name (map fst d)).
    { intros Hin. apply NoDup_app_inv in Hnd as (_ & _ & Hdisj).
      apply (Hdisj name Hin). now left. }
    assert (Hblock : fold_left (fun d entry => dict_append d (fst entry) (snd entry))
                               (map (pair name) nodes) d
                     = d ++ [(name, nodes)]).
    { destruct nodes as [|node nodes]; [now destruct Hnodes|]. cbn [map fold_left fst snd].
      rewrite <- (app_nil_r d) at 1. rewrite dict_append_frame by assumption.
      cbn [dict_append].
      enough (forall l acc,
                fold_left (fun d entry => dict_append d (fst entry) (snd entry))
                          (map (pair name) l) (d ++ [(name, acc)])
                = d ++ [(name, acc ++ l)]) as Hgen by apply (Hgen nodes [node]).
      induction l as [|v l IHl]; intros acc; cbn [map fold_left fst snd].
      - now rewrite app_nil_r.
      - rewrite dict_append_frame by assumption. cbn [dict_append].
        rewrite String.eqb_refl, IHl. now rewrite <- app_assoc. }
    rewrite Hblock, IH.
    + now rewrite <- app_assoc.
    + rewrite map_app. cbn [map fst]. rewrite <- app_assoc. exact Hnd.
    + intros n l Hin. apply (Hne n l). now right.
Qed.

Lemma render_lines_no_newline signals :
  wf_signals signals = true ->
  Forall (fun l => all_chars not_newline l = true) (render_signal_lines signals).
Proof.
  induction signals as [|[name nodes] signals IH]; intros H; [constructor|].
  cbn [wf_signals forallb] in H. apply andb_true_iff in H as [Hn H].
  apply andb_true_iff in Hn as [Hn Hnodes]. apply andb_true_iff in Hn as [Hname _].
  cbn [render_signal_lines flat_map]. rewrite <- app_comm_cons.
  assert (Hrun : forall s, run is_name_char s = true -> all_chars not_newline s = true).
  { intros s Hs. unfold run in Hs. apply andb_true_iff in Hs as [_ Hs].
    exact (all_chars_impl _ _ _ name_char_not_newline Hs). }
  constructor.
  - unfold signal_line. rewrite all_chars_app. cbn [all_chars].
    rewrite all_chars_app, (Hrun name Hname). reflexivity.
  - apply Forall_app. split; [|now apply IH].
    apply Forall_forall. intros l Hl. apply in_map_iff in Hl as (node & <- & Hin).
    rewrite forallb_forall in Hnodes. specialize (Hnodes node Hin).
    apply andb_true_iff in Hnodes as [H1 H2].
    unfold node_line. rewrite all_chars_app. cbn [all_chars].
    rewrite all_chars_app, (Hrun _ H1). cbn [all_chars].
    rewrite all_chars_app. cbn [all_chars andb].
    rewrite all_chars_app, (Hrun _ H2). reflexivity.
Qed.

Lemma render_lines_strip signals :
  map strip (render_signal_lines signals) = render_signal_lines signals.
Proof.
  induction signals as [|[name nodes] signals IH]; [reflexivity|].
  cbn [render_signal_lines flat_map]. rewrite <- app_comm_cons, map_cons, map_app.
  rewrite signal_line_strip. f_equal. f_equal; [|exact IH].
  rewrite map_map. apply map_ext. apply node_line_strip.
Qed.

(** Round trip: a signal table written as a SIGNALS section (a SIGNAL line
    for each net, followed by a NODE line for each of its nodes) is read back
    as it was, names, nodes and order. *)
Theorem parse_signals_of_rendered signals :
  wf_signals signals = true ->
  NoDup (map fst signals) ->
  _parse_signals (render_signals signals) [] = signals.
Proof.
  intros Hwf Hnd. rewrite parse_signals_tagged. unfold render_signals.
  destruct (render_signal_lines signals) as [|line lines] eqn:E.
  - destruct signals as [|[name nodes] signals]; [reflexivity|discriminate E].
  - rewrite split_lines_join by (rewrite <- E; now apply render_lines_no_newline).
    rewrite <- E, render_lines_strip, (tagged_nodes_render signals None Hwf).
    rewrite group_tagged_table; [reflexivity|exact Hnd|].
    intros name nodes Hin Hnil. subst nodes.
    unfold wf_signals in Hwf. rewrite forallb_forall in Hwf.
    specialize (Hwf _ Hin). cbn in Hwf. rewrite andb_false_r in Hwf. discriminate.
Qed.

(** The example table: the nets "GND" and "VCC". *)
Lemma parse_signals_of_rendered_witness :
  _parse_signals (render_signals ex_signals) [] = ex_signals.
Proof.
  apply parse_signals_of_rendered.
  - reflexivity.
  - repeat constructor; cbn; intuition discriminate.
Defined.

(** ** The component table builder *)

Lemma for_each_invariant_In {A S : Type} (body : S -> A -> result S) (I : S -> Prop)
    (l : list A) :
  (forall s a s', In a l -> I s -> body s a = Ok s' -> I s') ->
  forall s s', I s -> for_each body l s = Ok s' -> I s'.
Proof.
  induction l as [|a l IH]; intros Hstep s s' Hs H; cbn in H.
  - now injection H as <-.
  - destruct (body s a) as [s1|e] eqn:E; [|discriminate].
    apply (IH (fun s a s' Hin => Hstep s a s' (or_intror Hin)) s1); [|assumption].
    apply (Hstep s a); [now left|assumption..].
Qed.



Lemma dict_modify_keys {V : Type} (d : list (string * V)) k f d' :
  dict_modify d k f = Ok d' -> map fst d' = map fst d.
Proof.
  revert d'. induction d as [|[k0 v0] d IH]; intros d' H; cbn in H; [discriminate|].
  destruct (k =? k0).
  - now injection H as <-.
  - destruct (dict_modify d k f) as [d1|] eqn:E; [|discriminate].
    cbn in H. injection H as <-. cbn. now rewrite (IH d1).
Qed.

Lemma dict_modify_Forall {V : Type} (P : V -> Prop) (d : list (string * V)) k f d' :
  (forall v, P v -> P (f v)) ->
  Forall (fun entry => P (snd entry)) d ->
  dict_modify d k f = Ok d' ->
  Forall (fun entry => P (snd entry)) d'.
Proof.
  intros Hf. revert d'. induction d as [|[k0 v0] d IH]; intros d' HP H; cbn in H;
    [discriminate|].
  inversion HP as [|? ? Hv Hd]; subst. cbn [snd] in Hv.
  destruct (k =? k0).
  - injection H as <-. constructor; [now apply Hf|assumption].
  - destruct (dict_modify d k f) as [d1|] eqn:E; [|discriminate].
    cbn in H. injection H as <-. constructor; [assumption|now apply IH].
Qed.

Lemma dict_modify_twice {V : Type} (d : list (string * V)) k f g d1 d2 :
  dict_modify d k f = Ok d1 -> dict_modify d1 k g = Ok d2 ->
  dict_modify d k (fun v => g (f v)) = Ok d2.
Proof.
  revert d1 d2. induction d as [|[k0 v0] d IH]; intros d1 d2 H1 H2; cbn in H1;
    [discriminate|]. cbn.
  destruct (k =? k0) eqn:E.
  - injection H1 as <-. cbn in H2. rewrite E in H2. exact H2.
  - destruct (dict_modify d k f) as [d1'|] eqn:E1; [|discriminate].
    cbn in H1. injection H1 as <-. cbn in H2. rewrite E in H2.
    destruct (dict_modify d1' k g) as [d2'|] eqn:E2; [|discriminate].
    cbn in H2. injection H2 as <-. now rewrite (IH d1' d2').
Qed.

Lemma dict_set_Forall {V : Type} (P : V -> Prop) (d : list (string * V)) k v :
  P v -> Forall (fun entry => P (snd entry)) d ->
  Forall (fun entry => P (snd entry)) (dict_set String.eqb d k v).
Proof.
  intros Hv. induction d as [|[k0 v0] d IH]; intros HP; cbn.
  - now repeat constructor.
  - inversion HP; subst. destruct (k =? k0); constructor; auto.
Qed.

Lemma flag_step_cases token set line name components components' :
  flag_step token set line (Some name) components = Ok components' ->
  components' = components \/
  (contains token line = true /\ dict_modify components name set = Ok components').
Proof.
  unfold flag_step. destruct (contains token line); intros H.
  - right. now split.
  - left. now injection H.
Qed.

Lemma flag_step_none token set line components :
  flag_step token set line None components = Ok components.
Proof. reflexivity. Qed.

Lemma parse_components_line_effect current components line current' components' :
  parse_components_line (current, components) line = Ok (current', components') ->
  line_effect line current components current' components'.
Proof.
  unfold parse_components_line.
  destruct (line =? "") eqn:Hblank.
  { intros [= <- <-]. constructor. }
  destruct (quoted_match "COMPONENT" line) as [name|] eqn:Hc.
  { intros [= <- <-]. now constructor. }
  destruct current as [name|].
  2:{ destruct (quoted_match "DEVICE" line), (place_match line) as [[? ?]|],
        (layer_match line), (rot_match line), (quoted_match "SHAPE" line);
        cbn; intros [= <- <-]; constructor. }
  destruct (quoted_match "DEVICE" line) as [device|] eqn:Hd.
  { destruct (dict_modify components name _) as [c'|] eqn:E; cbn; [|discriminate].
    intros [= <- <-]. eapply effect_field; eauto. }
  destruct (place_match line) as [[x y]|] eqn:Hp.
  { destruct (float x) as [vx|]; cbn; [|discriminate].
    destruct (dict_modify components name _) as [c1|] eqn:E1; cbn; [|discriminate].
    destruct (float y) as [vy|]; cbn; [|discriminate].
    destruct (dict_modify c1 name _) as [c2|] eqn:E2; cbn; [|discriminate].
    intros [= <- <-]. eapply effect_field; [reflexivity|exact (dict_modify_twice _ _ _ _ _ _ E1 E2)|].
    right. left. eauto. }
  destruct (layer_match line) as [layer|] eqn:Hl.
  { destruct (dict_modify components name _) as [c'|] eqn:E; cbn; [|discriminate].
    intros [= <- <-]. eapply effect_field; eauto 6. }
  destruct (rot_match line) as [rotation|] eqn:Hr.
  { destruct (dict_modify components name _) as [c'|] eqn:E; cbn; [|discriminate].
    intros [= <- <-]. eapply effect_field; eauto 7. }
  destruct (quoted_match "SHAPE" line) as [shape|] eqn:Hs.
  { destruct (dict_modify components name _) as [c'|] eqn:E; cbn; [|discriminate].
    intros [= <- <-]. eapply effect_field; eauto 8. }
  destruct (flag_step "MIRRORX" ComponentUpdate.set_mirror_x line (Some name) components)
    as [c1|] eqn:E1; cbn [bind]; [|discriminate].
  destruct (flag_step "MIRRORY" ComponentUpdate.set_mirror_y line (Some name) c1)
    as [c2|] eqn:E2; cbn [bind]; [|discriminate].
  destruct (flag_step "FLIP" ComponentUpdate.set_flip line (Some name) c2)
    as [c3|] eqn:E3; cbn [bind]; [|discriminate].
  intros [= <- <-]. eapply effect_flags; eauto.
  unfold is_directive. now rewrite Hc, Hd, Hp, Hl, Hr, Hs.
Qed.

Lemma flag_step_keys token set line current components components' :
  flag_step token set line current components = Ok components' ->
  map fst components' = map fst components.
Proof.
  destruct current as [name|]; [|now intros [= <-]].
  intros H. apply flag_step_cases in H as [->|[_ H]]; [reflexivity|].
  now apply dict_modify_keys in H.
Qed.

Lemma line_effect_keys line current components current' components' :
  line_effect line current components current' components' ->
  (current' = current /\ map fst components' = map fst components)
  \/ (exists name, current' = Some name
                  /\ components' = dict_set String.eqb components name ComponentUpdate.fresh).
Proof.
  intros [|name Hc|name f c' Hcur Hm _|name c1 c2 c' Hcur _ H1 H2 H3].
  - now left.
  - right. eauto.
  - left. split; [reflexivity|]. now apply dict_modify_keys in Hm.
  - left. split; [reflexivity|].
    apply flag_step_keys in H1, H2, H3. congruence.
Qed.

Lemma parse_components_line_ok st line st' :
  components_state_ok st -> parse_components_line st line = Ok st' ->
  components_state_ok st'.
Proof.
  destruct st as [current components], st' as [current' components'].
  intros [Hcur Hnd] H. cbn [fst snd] in *.
  apply parse_components_line_effect, line_effect_keys in H
    as [[-> E]|(name & -> & ->)]; split; cbn [fst snd].
  - now rewrite E.
  - now rewrite E.
  - intros n [= <-]. apply dict_set_keys. now left.
  - now apply dict_set_NoDup.
Qed.


Lemma float_raises s e :
  float s = Raise e -> e = ValueError "could not convert string to float".
Proof.
  unfold float.
  destruct (match s with String "-"%char s' => (true, s') | _ => (false, s) end)
    as [negative body].
  destruct (span is_digit body) as [ip rest].
  destruct (match rest with String "."%char rest' => span is_digit rest'
                          | _ => (EmptyString, rest) end) as [fp rest'].
  destruct ((rest' =? "") && negb ((ip =? "") && (fp =? ""))); [discriminate|].
  now intros [= <-].
Qed.





(** A placement is whole or absent. *)
Lemma for_each_components_line_placement lines st st' :
  Forall (fun entry => Component.x (snd entry) = None <-> Component.y (snd entry) = None)
         (snd st) ->
  for_each parse_components_line lines st = Ok st' ->
  Forall (fun entry => Component.x (snd entry) = None <-> Component.y (snd entry) = None)
         (snd st').
Proof.
  pose (P := fun c => Component.x c = None <-> Component.y c = None).
  intros Hst E.
  apply (for_each_invariant _ (fun st => Forall (fun entry => P (snd entry)) (snd st))
                            ) with (3 := E); [|exact Hst].
  clear. intros [cur comps] line [cur' comps'] HP H. cbn [snd] in *.
  apply parse_components_line_effect in H.
  destruct H as [|name Hc|name f c' Hcur Hm Hf|name c1 c2 c' Hcur _ H1 H2 H3].
  + assumption.
  + apply dict_set_Forall; [|assumption]. unfold P. cbn. tauto.
  + apply (dict_modify_Forall P _ _ _ _) with (3 := Hm); [|assumption].
    intros c Hc. unfold P in *.
    destruct Hf as [[v ->]|[(x & y & ->)|[[v ->]|[[v ->]|[v ->]]]]]; cbn;
      try assumption. split; discriminate.
  + subst cur.
    assert (Hflag : forall token set a b,
               (forall c, P c -> P (set c)) ->
               Forall (fun entry => P (snd entry)) a ->
               flag_step token set line (Some name) a = Ok b ->
               Forall (fun entry => P (snd entry)) b).
    { intros token set a b Hset Ha Hab.
      apply flag_step_cases in Hab as [->|[_ Hab]]; [assumption|].
      now apply (dict_modify_Forall P _ _ _ _ Hset Ha Hab). }
    apply (Hflag _ ComponentUpdate.set_mirror_x _ _ (fun c H => H)) in H1; [|assumption].
    apply (Hflag _ ComponentUpdate.set_mirror_y _ _ (fun c H => H)) in H2; [|assumption].
    apply (Hflag _ ComponentUpdate.set_flip _ _ (fun c H => H)) in H3; assumption.
Qed.

(** The names of the parsed components are distinct, and every component
    has both coordinates or neither. *)
Theorem parse_components_placement_whole components_section components :
  _parse_components components_section [] = Ok components ->
  NoDup (map fst components) /\
  forall comp_name comp_data,
    In (comp_name, comp_data) components ->
    (Component.x comp_data = None <-> Component.y comp_data = None).
Proof.
  intros H. unfold _parse_components in H.
  match type of H with bind ?r _ = _ => destruct r as [st|e'] eqn:E end;
    cbn in H; [|discriminate]. injection H as <-.
  split.
  - apply (for_each_invariant _ components_state_ok parse_components_line_ok) in E;
      [apply E|]. split; [intros name [=]|constructor].
  - apply for_each_components_line_placement in E; [|constructor].
    intros n c Hin. rewrite Forall_forall in E. exact (E (n, c) Hin).
Qed.

(** The placed "U1" and the unplaced "U2". *)
Lemma parse_components_placement_whole_witness :
  exists components,
    _parse_components ex_place_section [] = Ok components /\
    NoDup (map fst components) /\
    forall comp_name comp_data,
      In (comp_name, comp_data) components ->
      (Component.x comp_data = None <-> Component.y comp_data = None).
Proof.
  eexists. split; [reflexivity|].
  apply (parse_components_placement_whole ex_place_section). reflexivity.
Defined.

(** A flag of a parsed component is set only by a line that matches none of
    the six directive patterns and contains the word of the flag: a flag word
    on a directive line (as in a PLACE line followed by MIRRORX) is not
    read. *)
Theorem parse_components_flags_from_plain_lines components_section components :
  _parse_components components_section [] = Ok components ->
  forall comp_name comp_data,
    In (comp_name, comp_data) components ->
    flags_from_plain_lines (map strip (split_lines components_section)) comp_data.
Proof.
  intros H. unfold _parse_components in H.
  match type of H with bind ?r _ = _ => destruct r as [st|e'] eqn:E end;
    cbn in H; [|discriminate]. injection H as <-.
  set (lines := map strip (split_lines components_section)) in *.
  pose (P := flags_from_plain_lines lines).
  enough (HP : Forall (fun entry => P (snd entry)) (snd st)).
  { intros n c Hin. rewrite Forall_forall in HP. exact (HP (n, c) Hin). }
  apply (for_each_invariant_In _ (fun st => Forall (fun entry => P (snd entry)) (snd st)))
    in E; [exact E| |constructor].
  clear E st. intros [cur comps] line [cur' comps'] Hline HP H. cbn [snd] in *.
  apply parse_components_line_effect in H.
  destruct H as [|name Hc|name f c' Hcur Hm Hf|name c1 c2 c' Hcur Hplain H1 H2 H3].
  - assumption.
  - apply dict_set_Forall; [|assumption]. repeat split; cbn; discriminate.
  - apply (dict_modify_Forall P _ _ _ _) with (3 := Hm); [|assumption].
    intros c Hc.
    destruct Hf as [[v ->]|[(x & y & ->)|[[v ->]|[[v ->]|[v ->]]]]]; exact Hc.
  - subst cur.
    assert (Hflag : forall token set a b,
               (contains token line = true -> forall c, P c -> P (set c)) ->
               Forall (fun entry => P (snd entry)) a ->
               flag_step token set line (Some name) a = Ok b ->
               Forall (fun entry => P (snd entry)) b).
    { intros token set a b Hset Ha Hab.
      apply flag_step_cases in Hab as [->|[Htoken Hab]]; [assumption|].
      exact (dict_modify_Forall P _ _ _ _ (Hset Htoken) Ha Hab). }
    assert (F1 : Forall (fun entry => P (snd entry)) c1).
    { apply (Hflag "MIRRORX" ComponentUpdate.set_mirror_x comps c1); [|assumption..].
      intros Htoken c (Hx & Hy & Hf). repeat split; [|exact Hy|exact Hf].
      intros _. exists line. auto. }
    assert (F2 : Forall (fun entry => P (snd entry)) c2).
    { apply (Hflag "MIRRORY" ComponentUpdate.set_mirror_y c1 c2); [|assumption..].
      intros Htoken c (Hx & Hy & Hf). repeat split; [exact Hx| |exact Hf].
      intros _. exists line. auto. }
    apply (Hflag "FLIP" ComponentUpdate.set_flip c2 c'); [|assumption..].
    intros Htoken c (Hx & Hy & Hf). repeat split; [exact Hx|exact Hy|].
    intros _. exists line. auto.
Qed.

(** The component "U1" of the example: its DEVICE line holds FLIP and its
    LAYER line MIRRORX, and MIRRORY has a line of its own. *)
Lemma parse_components_flags_from_plain_lines_witness :
  exists components,
    _parse_components ex_flag_section [] = Ok components /\
    forall comp_name comp_data,
      In (comp_name, comp_data) components ->
      flags_from_plain_lines (map strip (split_lines ex_flag_section)) comp_data.
Proof.
  eexists. split; [reflexivity|].
  apply (parse_components_flags_from_plain_lines ex_flag_section). reflexivity.
Defined.

(** ** The section extractor *)

Lemma find_sub_eq pat s :
  find_sub pat s =
  match literal pat s with
  | Some rest => Some (EmptyString, rest)
  | None =>
      match s with
      | EmptyString => None
      | String c s' =>
          match find_sub pat s' with
          | Some (before, after) => Some (String c before, after)
          | None => None
          end
      end
  end.
Proof. now destruct s. Qed.

Lemma literal_app pat rest : literal pat (pat ++ rest)%string = Some rest.
Proof. induction pat as [|c pat IH]; cbn; [reflexivity|]. now rewrite Ascii.eqb_refl. Qed.


(** A match that starts in [a] and is not inside [a] runs over its end. *)
Lemma literal_straddle pat a b rest :
  literal pat (a ++ b)%string = Some rest ->
  (exists rest', literal pat a = Some rest') \/
  (exists p c b', pat = (a ++ String c p)%string /\ b = String c b').
Proof.
  revert a. induction pat as [|x pat IH]; intros a H; [left; cbn; eauto|].
  destruct a as [|y a].
  - right. cbn in H. destruct b as [|c b']; [discriminate|].
    destruct (Ascii.eqb_spec x c) as [->|]; [|discriminate].
    exists pat, c, b'. now split.
  - cbn in H |- *. destruct (Ascii.eqb_spec x y) as [->|]; [|discriminate].
    destruct (IH a H) as [Hin|(p & c & b' & -> & ->)]; [now left|].
    right. exists p, c, b'. now split.
Qed.

Lemma word_not_dollar c : is_word c = true -> c <> "$"%char.
Proof. intros H ->. discriminate H. Qed.

Lemma all_chars_In p a c b :
  all_chars p (a ++ String c b)%string = true -> p c = true.
Proof.
  rewrite all_chars_app. cbn. intros H.
  apply andb_true_iff in H as [_ H]. now apply andb_true_iff in H as [H _].
Qed.

Lemma contains_cons pat c s :
  contains pat (String c s) = false ->
  literal pat (String c s) = None /\ contains pat s = false.
Proof.
  unfold contains. rewrite (find_sub_eq pat (String c s)).
  destruct (literal pat (String c s)); [discriminate|].
  destruct (find_sub pat s) as [[? ?]|]; [discriminate|]. now split.
Qed.

(** The first occurrence of a marker, a dollar sign and a word, after a text
    that does not contain it. *)
Lemma find_sub_at_marker marker pre rest :
  all_chars is_word marker = true ->
  contains (String "$" marker) pre = false ->
  find_sub (String "$" marker) (pre ++ String "$" marker ++ rest)%string
  = Some (pre, rest).
Proof.
  intros Hword. induction pre as [|c pre IH]; intros Hpre.
  - rewrite find_sub_eq.
    change ("" ++ String "$" marker ++ rest)%string
      with (String "$" marker ++ rest)%string.
    now rewrite literal_app.
  - apply contains_cons in Hpre as [Hhere Hpre].
    rewrite find_sub_eq.
    destruct (literal (String "$" marker) (String c pre ++ String "$" marker ++ rest)%string)
      as [r|] eqn:E.
    + exfalso. apply literal_straddle in E as [[r' E]|(p & x & b' & Hpat & Hb)].
      * congruence.
      * cbn in Hpat, Hb. injection Hpat as Hc Hm. injection Hb as Hx _.
        subst marker x. apply all_chars_In in Hword. discriminate Hword.
    + change (String c pre ++ String "$" marker ++ rest)%string
        with (String c (pre ++ String "$" marker ++ rest))%string.
      cbv beta iota. now rewrite (IH Hpre).
Qed.

(** The extractor on a document: the text between the first start marker and
    the first end marker after it, stripped. *)
Theorem extract_section_between pre start_marker body end_marker post :
  all_chars is_word start_marker = true ->
  all_chars is_word end_marker = true ->
  contains (String "$" start_marker) pre = false ->
  contains (String "$" end_marker) body = false ->
  _extract_section
    (pre ++ String "$" start_marker ++ body ++ String "$" end_marker ++ post)%string
    start_marker end_marker
  = strip body.
Proof.
  intros Hs He Hpre Hbody. unfold _extract_section.
  rewrite (find_sub_at_marker start_marker pre _ Hs Hpre).
  now rewrite (find_sub_at_marker end_marker body post He Hbody).
Qed.

(** The SHAPES section of a document that starts with a header. *)
Lemma extract_section_between_witness :
  _extract_section
    ("$HEADER UNITS MM $ENDHEADER " ++ String "$" "SHAPES" ++ " SHAPE S "
       ++ String "$" "ENDSHAPES" ++ " $SIGNALS")%string
    "SHAPES" "ENDSHAPES"
  = strip " SHAPE S ".
Proof.
  apply (extract_section_between "$HEADER UNITS MM $ENDHEADER " "SHAPES" " SHAPE S "
                                 "ENDSHAPES" " $SIGNALS"); reflexivity.
Defined.




(** ** The header and the board outline *)







Lemma parse_board_line_cases board_outline line :
  (matched (line_match line) = false /\ parse_board_line board_outline line = Ok board_outline)
  \/ (matched (line_match line) = true /\
      ((exists seg, parse_board_line board_outline line = Ok (board_outline ++ [seg]))
       \/ parse_board_line board_outline line
          = Raise (ValueError "could not convert string to float"))).
Proof.
  unfold parse_board_line.
  destruct (line =? "") eqn:Hblank.
  { apply String.eqb_eq in Hblank. subst line. left. now split. }
  destruct (line_match line) as [[[[a b] c] d]|]; [right|left; now split].
  split; [reflexivity|].
  destruct (float a) as [x1|e1] eqn:E1; [|right; cbn; now rewrite (float_raises _ _ E1)].
  destruct (float b) as [y1|e2] eqn:E2; [|right; cbn; now rewrite (float_raises _ _ E2)].
  destruct (float c) as [x2|e3] eqn:E3; [|right; cbn; now rewrite (float_raises _ _ E3)].
  destruct (float d) as [y2|e4] eqn:E4; [|right; cbn; now rewrite (float_raises _ _ E4)].
  left. cbn. eauto.
Qed.

Lemma for_each_board_appends lines : forall board_outline board_outline',
  for_each parse_board_line lines board_outline = Ok board_outline' ->
  exists segments,
    board_outline' = board_outline ++ segments /\
    length segments = length (filter (fun line => matched (line_match line)) lines).
Proof.
  induction lines as [|line lines IH]; intros o o' H; cbn in H.
  - injection H as <-. exists []. now rewrite app_nil_r.
  - cbn [filter].
    destruct (parse_board_line_cases o line) as [[Hm E]|[Hm [[seg E]|E]]];
      rewrite E in H; rewrite Hm; [| |discriminate].
    + now apply IH.
    + destruct (IH _ _ H) as (segs & -> & Hlen).
      exists (seg :: segs). rewrite <- app_assoc. split; [reflexivity|].
      cbn. now rewrite Hlen.
Qed.

(** The board outline only grows, by one segment for each line that matches
    the LINE pattern; every other line is passed over. *)
Theorem parse_board_appends board_section board_outline board_outline' :
  _parse_board board_section board_outline = Ok board_outline' ->
  exists segments,
    board_outline' = board_outline ++ segments /\
    length segments
    = length (filter (fun line => matched (line_match line))
                     (map strip (split_lines board_section))).
Proof. apply for_each_board_appends. Qed.

(** The example section: two LINE lines and an ARC line. *)
Lemma parse_board_appends_witness :
  exists board_outline,
    _parse_board ex_board_section [] = Ok board_outline /\
    exists segments,
      board_outline = [] ++ segments /\
      length segments
      = length (filter (fun line => matched (line_match line))
                       (map strip (split_lines ex_board_section))).
Proof.
  eexists. split; [reflexivity|].
  apply (parse_board_appends ex_board_section []). reflexivity.
Defined.

(** ** The whole of [parse] *)











(** ** [swap_diode_pins] on any table *)

Lemma rows_of_In rows component k :
  In k (rows_of rows component)
  <-> exists row, nth_error rows k = Some row /\ Row.component row = component.
Proof.
  unfold rows_of. rewrite in_map_iff. split.
  - intros ([i row] & <- & Hin). apply filter_In in Hin as [Hin Hc].
    apply enumerate_In in Hin. apply String.eqb_eq in Hc. now exists row.
  - intros (row & Hk & Hc). exists (k, row). split; [reflexivity|].
    apply filter_In. split; [now apply enumerate_In|].
    cbn. now apply String.eqb_eq.
Qed.

Lemma rows_of_NoDup rows component : NoDup (rows_of rows component).
Proof.
  unfold rows_of. apply NoDup_map_filter. unfold enumerate.
  rewrite enumerate_from_fst. apply seq_NoDup.
Qed.

Lemma fold_left_map_list {A B C : Type} (f : A -> B -> A) (g : C -> B) (l : list C) :
  forall a, fold_left f (map g l) a = fold_left (fun a c => f a (g c)) l a.
Proof. induction l as [|c l IH]; intros a; cbn; [reflexivity|apply IH]. Qed.

Lemma nodes_of_tagged_rows rows component :
  nodes_of component (map (fun entry => (Row.component (snd entry), fst entry))
                          (enumerate rows))
  = rows_of rows component.
Proof.
  unfold nodes_of, rows_of. induction (enumerate rows) as [|[i row] l IH]; cbn;
    [reflexivity|].
  destruct (Row.component row =? component); cbn; now rewrite IH.
Qed.

(** The groups [swap_diode_pins] builds. *)
Lemma group_by_component_spec rows :
  NoDup (map fst (group_by_component rows)) /\
  forall component,
    dict_get String.eqb (group_by_component rows) component
    = match rows_of rows component with
      | [] => None
      | refs => Some refs
      end.
Proof.
  assert (E : group_by_component rows
              = fold_left (fun d entry => dict_append d (fst entry) (snd entry))
                          (map (fun entry => (Row.component (snd entry), fst entry))
                               (enumerate rows)) []).
  { unfold group_by_component, group_components_from. rewrite fold_left_map_list.
    unfold enumerate. generalize (@nil (string * list nat)).
    induction (enumerate_from 0 rows) as [|[i row] l IH]; intros d; [reflexivity|].
    cbn [fold_left fst snd]. apply IH. }
  rewrite E.
  destruct (tagged_fold_spec
              (map (fun entry => (Row.component (snd entry), fst entry)) (enumerate rows))
              []) as (H1 & _ & H3); [constructor|intros ? ? []|].
  split; [exact H1|]. intros component.
  rewrite H3, nodes_of_tagged_rows. reflexivity.
Qed.

Lemma nth_error_enumerate_from {A : Type} (l : list A) : forall start k,
  nth_error (enumerate_from start l) k = option_map (pair (start + k)) (nth_error l k).
Proof.
  unfold enumerate_from.
  induction l as [|a l IH]; intros start [|k]; cbn; try reflexivity.
  - now rewrite Nat.add_0_r.
  - rewrite IH. now rewrite Nat.add_succ_r.
Qed.

Lemma nth_error_exchanged rows k :
  nth_error (exchanged rows) k = option_map (exchanged_row rows k) (nth_error rows k).
Proof.
  unfold exchanged, enumerate. rewrite nth_error_map, nth_error_enumerate_from.
  now destruct (nth_error rows k).
Qed.

Lemma partner_of rows k row :
  nth_error rows k = Some row ->
  partner rows k
  = if startswith (Row.component row) "L-D" then
      match rows_of rows (Row.component row) with
      | [i; j] => Some (if (k =? i)%nat then j else i)
      | _ => None
      end
    else None.
Proof. intros H. unfold partner. now rewrite H. Qed.

Lemma update_twice_nth {A : Type} (l : list A) i j f g k :
  i <> j ->
  nth_error (update (update l i f) j g) k
  = if (k =? i)%nat then option_map f (nth_error l i)
    else if (k =? j)%nat then option_map g (nth_error l j)
         else nth_error l k.
Proof.
  intros Hij. destruct (Nat.eqb_spec k i) as [->|Hki].
  - rewrite update_nth_other by congruence. apply update_nth_same.
  - destruct (Nat.eqb_spec k j) as [->|Hkj].
    + rewrite update_nth_same. now rewrite update_nth_other.
    + rewrite !update_nth_other by congruence. reflexivity.
Qed.

(** One iteration: the rows of the component get their final cells, the
    other rows are not touched. *)
Lemma swap_step_exchanges rows table component :
  (forall k row, nth_error rows k = Some row -> Row.component row = component ->
                 nth_error table k = Some row) ->
  forall k,
    (In k (rows_of rows component) ->
     nth_error (swap_step table (component, rows_of rows component)) k
     = nth_error (exchanged rows) k)
    /\ (~ In k (rows_of rows component) ->
        nth_error (swap_step table (component, rows_of rows component)) k
        = nth_error table k).
Proof.
  intros Htable k.
  assert (Hkeep : In k (rows_of rows component) ->
                  partner rows k = None -> nth_error table k = nth_error (exchanged rows) k).
  { intros Hin Hp. apply rows_of_In in Hin as (row & Hk & Hc).
    rewrite nth_error_exchanged, Hk, (Htable k row Hk Hc). cbn.
    unfold exchanged_row. now rewrite Hp. }
  assert (Hpartner : forall row, nth_error rows k = Some row ->
                                 Row.component row = component ->
                                 partner rows k
                                 = if startswith component "L-D" then
                                     match rows_of rows component with
                                     | [i; j] => Some (if (k =? i)%nat then j else i)
                                     | _ => None
                                     end
                                   else None).
  { intros row Hk Hc. rewrite (partner_of rows k row Hk). now rewrite Hc. }
  pose proof (rows_of_NoDup rows component) as Hnd.
  pose proof (fun i => proj1 (rows_of_In rows component i)) as Hrows.
  unfold swap_step.
  destruct (startswith component "L-D") eqn:Hd; cbn [andb].
  2:{ split; [|reflexivity]. intros Hin. apply Hkeep; [assumption|].
      apply rows_of_In in Hin as (row & Hk & Hc). now rewrite (Hpartner row Hk Hc). }
  destruct (rows_of rows component) as [|i [|j [|l refs]]] eqn:Hrefs; cbn [length Nat.eqb].
  1,2,4: split; [|reflexivity]; intros Hin; apply Hkeep; [assumption|];
    destruct (Hrows k Hin) as (row & Hk & Hc); now rewrite (Hpartner row Hk Hc).
  destruct (Hrows i (or_introl eq_refl)) as (ri & Hi & Hci).
  destruct (Hrows j (or_intror (or_introl eq_refl))) as (rj & Hj & Hcj).
  assert (Hij : i <> j).
  { inversion Hnd as [|? ? Hnin _]; subst. intros ->. apply Hnin. now left. }
  pose proof (Htable i ri Hi Hci) as Hti. pose proof (Htable j rj Hj Hcj) as Htj.
  assert (Hresult : forall refs',
             refs' = [i; j] \/ refs' = [j; i] ->
             nth_error
               match refs' with
               | ref0 :: ref1 :: _ =>
                   match nth_error table ref0, nth_error table ref1 with
                   | Some pin0, Some pin1 =>
                       let '(x1, y1) := (Row.x pin0, Row.y pin0) in
                       let '(x2, y2) := (Row.x pin1, Row.y pin1) in
                       update (update table ref0 (fun r => Row.set_xy r x2 y2))
                              ref1 (fun r => Row.set_xy r x1 y1)
                   | _, _ => table
                   end
               | _ => table
               end k
             = if (k =? i)%nat then Some (Row.set_xy ri (Row.x rj) (Row.y rj))
               else if (k =? j)%nat then Some (Row.set_xy rj (Row.x ri) (Row.y ri))
                    else nth_error table k).
  { intros refs' [->| ->]; rewrite Hti, Htj; cbv zeta beta iota.
    - rewrite update_twice_nth by assumption. now rewrite Hti, Htj.
    - rewrite update_twice_nth by congruence. rewrite Hti, Htj. cbn [option_map].
      destruct (Nat.eqb_spec k j) as [->|_]; [|reflexivity].
      destruct (Nat.eqb_spec j i) as [E|_]; [now destruct Hij|reflexivity]. }
  rewrite sort_by_two.
  rewrite (Hresult (if String.ltb (row_pin_name table j) (row_pin_name table i)
                    then [j; i] else [i; j]))
    by (destruct (String.ltb _ _); auto).
  split.
  - intros Hin. rewrite nth_error_exchanged. unfold exchanged_row.
    destruct Hin as [<-|[<-|[]]].
    + rewrite Nat.eqb_refl, Hi. cbn [option_map].
      rewrite (Hpartner ri Hi Hci), Nat.eqb_refl, Hj. reflexivity.
    + destruct (Nat.eqb_spec j i) as [E|_]; [now destruct Hij|].
      rewrite Nat.eqb_refl, Hj. cbn [option_map].
      rewrite (Hpartner rj Hj Hcj).
      destruct (Nat.eqb_spec j i) as [E|_]; [now destruct Hij|].
      now rewrite Hi.
  - intros Hnin.
    destruct (Nat.eqb_spec k i) as [->|_]; [exfalso; apply Hnin; now left|].
    destruct (Nat.eqb_spec k j) as [->|_]; [exfalso; apply Hnin; right; now left|].
    reflexivity.
Qed.

Lemma swap_step_length table entry : length (swap_step table entry) = length table.
Proof.
  destruct entry as [component refs]. unfold swap_step.
  destruct (startswith component "L-D" && (length refs =? 2)%nat); [|reflexivity].
  destruct (sort_by (row_pin_name table) refs) as [|ref0 [|ref1 l]]; try reflexivity.
  destruct (nth_error table ref0), (nth_error table ref1); try reflexivity.
  cbv zeta beta iota. now rewrite !update_length.
Qed.

Lemma fold_swap_step_length groups : forall table,
  length (fold_left swap_step groups table) = length table.
Proof.
  induction groups as [|g groups IH]; intros table; cbn; [reflexivity|].
  now rewrite IH, swap_step_length.
Qed.

(** The loop over the groups, from a table that still holds the rows of the
    groups to come. *)
Lemma fold_swap_step_exchanges rows groups : forall table,
  NoDup (map fst groups) ->
  (forall component refs, In (component, refs) groups -> refs = rows_of rows component) ->
  (forall k row, nth_error rows k = Some row ->
                 In (Row.component row) (map fst groups) ->
                 nth_error table k = Some row) ->
  forall k row,
    nth_error rows k = Some row ->
    (In (Row.component row) (map fst groups) ->
     nth_error (fold_left swap_step groups table) k = nth_error (exchanged rows) k)
    /\ (~ In (Row.component row) (map fst groups) ->
        nth_error (fold_left swap_step groups table) k = nth_error table k).
Proof.
  induction groups as [|[component refs] groups IH]; intros table Hnd Hrefs Htable k row Hk.
  - split; [intros []|reflexivity].
  - cbn [map fst] in Hnd. inversion Hnd as [|? ? Hnin Hnd']; subst.
    cbn [fold_left].
    rewrite (Hrefs component refs (or_introl eq_refl)).
    assert (Hstep := swap_step_exchanges rows table component
                       (fun k row Hk Hc => Htable k row Hk (or_introl (eq_sym Hc)))).
    assert (Hother : forall k row, nth_error rows k = Some row ->
                                   Row.component row <> component ->
                                   nth_error (swap_step table
                                                (component, rows_of rows component)) k
                                   = nth_error table k).
    { intros k' row' Hk' Hc'. apply (Hstep k'). intros Hin.
      apply rows_of_In in Hin as (r & Hr & Hcr). congruence. }
    destruct (IH (swap_step table (component, rows_of rows component)) Hnd'
                 (fun c r Hin => Hrefs c r (or_intror Hin))) with (k := k) (row := row)
      as [Hin' Hout']; [|assumption|].
    { intros k' row' Hk' Hin. rewrite (Hother k' row' Hk').
      - apply (Htable k' row' Hk'). now right.
      - intros E. apply Hnin. now rewrite <- E. }
    cbn [map fst In]. split.
    + intros [E|Hin]; [|now apply Hin'].
      rewrite Hout' by (intros Hin; apply Hnin; now rewrite E).
      apply (Hstep k). apply rows_of_In. exists row. now split.
    + intros Hnot. rewrite Hout' by tauto.
      apply (Hother k row Hk). intros E. apply Hnot. now left.
Qed.

Lemma swap_diode_pins_exchanged rows : swap_diode_pins rows = exchanged rows.
Proof.
  destruct (group_by_component_spec rows) as [Hnd Hget].
  apply nth_error_ext. intros k. unfold swap_diode_pins.
  destruct (nth_error rows k) as [row|] eqn:Hk.
  - apply (fold_swap_step_exchanges rows (group_by_component rows) rows Hnd) with (row := row);
      try assumption.
    + intros component refs Hin.
      assert (Hg : dict_get String.eqb (group_by_component rows) component = Some refs).
      { destruct (dict_get String.eqb (group_by_component rows) component) as [refs'|] eqn:E.
        - apply dict_get_In in E. f_equal.
          exact (dict_unique_value _ _ _ _ Hnd E Hin).
        - apply dict_get_None in E. exfalso. apply E.
          apply in_map_iff. now exists (component, refs). }
      rewrite Hget in Hg. destruct (rows_of rows component); [discriminate|].
      now injection Hg.
    + intros k' row' Hk' _. exact Hk'.
    + assert (Hin : In k (rows_of rows (Row.component row)))
        by (apply rows_of_In; now exists row).
      specialize (Hget (Row.component row)).
      destruct (rows_of rows (Row.component row)) as [|a l]; [destruct Hin|].
      apply dict_get_In in Hget. apply in_map_iff.
      now exists (Row.component row, a :: l).
  - apply nth_error_None in Hk.
    rewrite (proj2 (nth_error_None _ _)) by (rewrite fold_swap_step_length; exact Hk).
    symmetry. apply nth_error_None. unfold exchanged.
    rewrite length_map. unfold enumerate, enumerate_from.
    rewrite length_combine, length_seq. lia.
Qed.
Lemma exchanged_row_cells rows k row :
  Row.set_xy (exchanged_row rows k row) "" "" = Row.set_xy row "" "".
Proof.
  unfold exchanged_row. destruct (partner rows k) as [j|]; [|reflexivity].
  now destruct (nth_error rows j).
Qed.

Lemma exchanged_row_component rows k row :
  Row.component (exchanged_row rows k row) = Row.component row.
Proof.
  unfold exchanged_row. destruct (partner rows k) as [j|]; [|reflexivity].
  now destruct (nth_error rows j).
Qed.

Lemma exchanged_components rows :
  map Row.component (exchanged rows) = map Row.component rows.
Proof.
  unfold exchanged. rewrite map_map.
  rewrite <- (enumerate_from_snd rows 0) at 2. rewrite map_map.
  apply map_ext. intros [i row]. apply exchanged_row_component.
Qed.

Lemma rows_of_components rows1 rows2 component :
  map Row.component rows1 = map Row.component rows2 ->
  rows_of rows1 component = rows_of rows2 component.
Proof.
  unfold rows_of, enumerate, enumerate_from. generalize 0.
  revert rows2. induction rows1 as [|r1 rows1 IH]; intros [|r2 rows2] start H;
    try discriminate; [reflexivity|].
  cbn in H. injection H as Hc H. cbn. rewrite Hc.
  destruct (Row.component r2 =? component); cbn; now rewrite (IH rows2 (S start) H).
Qed.

Lemma partner_components rows1 rows2 k :
  map Row.component rows1 = map Row.component rows2 ->
  partner rows1 k = partner rows2 k.
Proof.
  intros H. unfold partner.
  assert (Hk : option_map Row.component (nth_error rows1 k)
               = option_map Row.component (nth_error rows2 k))
    by (rewrite <- !nth_error_map; now rewrite H).
  destruct (nth_error rows1 k) as [r1|], (nth_error rows2 k) as [r2|];
    try discriminate; [|reflexivity].
  injection Hk as ->. now rewrite (rows_of_components rows1 rows2 _ H).
Qed.

(** The partner of a row has the row as its partner. *)
Lemma partner_symmetric rows k j :
  partner rows k = Some j ->
  exists row other,
    nth_error rows k = Some row /\ nth_error rows j = Some other /\
    partner rows j = Some k.
Proof.
  intros Hp. destruct (nth_error rows k) as [row|] eqn:Hk;
    [|unfold partner in Hp; now rewrite Hk in Hp].
  rewrite (partner_of rows k row Hk) in Hp.
  destruct (startswith (Row.component row) "L-D") eqn:Hd; [|discriminate].
  pose proof (rows_of_NoDup rows (Row.component row)) as Hnd.
  pose proof (fun i => proj1 (rows_of_In rows (Row.component row) i)) as Hrows.
  assert (Hin : In k (rows_of rows (Row.component row)))
    by (apply rows_of_In; now exists row).
  destruct (rows_of rows (Row.component row)) as [|a [|b [|c l]]] eqn:Hrefs;
    try discriminate.
  assert (Hab : a <> b).
  { inversion Hnd as [|? ? Hnin _]; subst. intros ->. apply Hnin. now left. }
  destruct (Hrows a (or_introl eq_refl)) as (ra & Ha & Hca).
  destruct (Hrows b (or_intror (or_introl eq_refl))) as (rb & Hb & Hcb).
  injection Hp as <-. exists row.
  destruct Hin as [<-|[<-|[]]].
  - rewrite Nat.eqb_refl. exists rb. repeat split; try assumption.
    rewrite (partner_of rows b rb Hb), Hcb, Hd, Hrefs.
    destruct (Nat.eqb_spec b a) as [E|_]; [now destruct Hab|reflexivity].
  - destruct (Nat.eqb_spec b a) as [E|_]; [now destruct Hab|].
    exists ra. repeat split; try assumption.
    rewrite (partner_of rows a ra Ha), Hca, Hd, Hrefs. now rewrite Nat.eqb_refl.
Qed.

Lemma exchanged_exchanged rows : exchanged (exchanged rows) = rows.
Proof.
  apply nth_error_ext. intros k. rewrite !nth_error_exchanged.
  destruct (nth_error rows k) as [row|] eqn:Hk; [|reflexivity].
  cbn [option_map]. f_equal.
  assert (Hsame : partner (exchanged rows) k = partner rows k)
    by apply (partner_components _ _ k (exchanged_components rows)).
  destruct (partner rows k) as [j|] eqn:Hp.
  - destruct (partner_symmetric rows k j Hp) as (row' & other & Hk' & Hj & Hpj).
    rewrite Hk in Hk'. injection Hk' as <-.
    assert (E1 : exchanged_row rows k row = Row.set_xy row (Row.x other) (Row.y other))
      by (unfold exchanged_row; now rewrite Hp, Hj).
    assert (E2 : exchanged_row rows j other = Row.set_xy other (Row.x row) (Row.y row))
      by (unfold exchanged_row; now rewrite Hpj, Hk).
    rewrite E1. unfold exchanged_row. rewrite Hsame, nth_error_exchanged, Hj.
    cbn [option_map]. rewrite E2. now destruct row.
  - assert (E1 : exchanged_row rows k row = row)
      by (unfold exchanged_row; now rewrite Hp).
    rewrite E1. unfold exchanged_row. now rewrite Hsame.
Qed.

(** [swap_diode_pins] row by row, on any table: a row takes the coordinate
    cells of the other row of its component when the name of the component
    starts with "L-D" and the component has two rows in the table, wherever
    they are; every other row is kept. *)
Theorem swap_diode_pins_row rows k :
  nth_error (swap_diode_pins rows) k
  = option_map (exchanged_row rows k) (nth_error rows k).
Proof. rewrite swap_diode_pins_exchanged. apply nth_error_exchanged. Qed.

(** [swap_diode_pins] keeps the rows, their order and every cell but the two
    coordinate cells. *)
Theorem swap_diode_pins_keeps_cells rows :
  map (fun row => Row.set_xy row "" "") (swap_diode_pins rows)
  = map (fun row => Row.set_xy row "" "") rows.
Proof.
  rewrite swap_diode_pins_exchanged. unfold exchanged. rewrite map_map.
  rewrite <- (enumerate_from_snd rows 0) at 2. rewrite map_map.
  apply map_ext. intros [i row]. apply exchanged_row_cells.
Qed.

(** [swap_diode_pins] is an involution on every table: run on its own
    output it gives the input back. *)
Theorem swap_diode_pins_involutive rows :
  swap_diode_pins (swap_diode_pins rows) = rows.
Proof. rewrite !swap_diode_pins_exchanged. apply exchanged_exchanged. Qed.

(** ** The rows of the combined graph table, whatever the nets *)

(** The combined graph table has one row for each pin, in the order of the
    pins: the row at position [i] carries the pin as it was, the id [i] and
    the depth 0.0 on the layer TOP, -0.1 on every other layer.  No net
    changes any of this. *)
Theorem export_houdini_row signals pins i :
  option_map HPin_core (nth_error (export_houdini_csv signals pins) i)
  = option_map
      (fun pin => (pin, i, if Pin.layer pin =? "TOP" then 0.0%R else (-0.1)%R))
      (nth_error pins i).
Proof.
  rewrite <- nth_error_map, export_houdini_core, nth_error_map, init_pins_nth.
  now destruct (nth_error pins i).
Qed.

(** ** The keys of the resolved pins *)

Lemma component_pins_keys signals shapes comp_name comp_data block :
  distinct_pin_names shapes ->
  component_pins signals shapes (comp_name, comp_data) = Ok block ->
  NoDup (map Pin.key block).
Proof.
  intros Hnames H.
  destruct (Component.shape comp_data) as [shape_name|] eqn:Hs.
  2:{ rewrite skipped_component_adds_no_pin in H by now left.
      injection H as <-. constructor. }
  destruct (dict_get String.eqb shapes shape_name) as [shape_pins|] eqn:Hd.
  2:{ rewrite skipped_component_adds_no_pin in H by (right; now exists shape_name).
      injection H as <-. constructor. }
  destruct (component_pins_resolved _ _ _ _ _ _ _ Hs Hd H) as (cx & cy & _ & _ & ->).
  cbv zeta.
  assert (Hcomputed : NoDup (map Pin.key
                       (map (component_pin_data signals comp_name comp_data cx cy)
                            shape_pins))).
  { rewrite map_map. specialize (Hnames shape_name shape_pins Hd).
    clear - Hnames. induction shape_pins as [|sp l IH]; cbn; [constructor|].
    inversion Hnames as [|? ? Hnin Hnd]; subst.
    constructor; [|now apply IH].
    intros Hin. apply Hnin. apply in_map_iff in Hin as (sp' & E & Hin).
    unfold component_pin_data, pin_data, Pin.key in E. cbn in E.
    injection E as E. rewrite <- E. now apply in_map. }
  destruct (is_swapped comp_name (length shape_pins)); [|exact Hcomputed].
  change Pin.key with (fun p => (fun c n (_ _ : string) => (c, n))
                                  (Pin.component p) (Pin.pin_name p)
                                  (Pin.layer p) (Pin.signal p)).
  rewrite (swap_coordinates_fields (fun c n (_ _ : string) => (c, n))).
  eapply Permutation_NoDup; [|exact Hcomputed].
  apply Permutation_map. symmetry. apply sort_by_perm.
Qed.

Lemma blocks_keys signals shapes components : forall blocks,
  distinct_pin_names shapes ->
  NoDup (map fst components) ->
  Forall2 (fun entry block => component_pins signals shapes entry = Ok block)
          components blocks ->
  NoDup (map Pin.key (concat blocks))
  /\ forall p, In p (concat blocks) -> In (Pin.component p) (map fst components).
Proof.
  induction components as [|[comp_name comp_data] components IH]; intros blocks Hnames Hnd HF;
    inversion HF as [|? block ? blocks' Hb HF']; subst; cbn [concat].
  - split; [constructor|intros p []].
  - cbn [map fst] in Hnd. inversion Hnd as [|? ? Hnin Hnd']; subst.
    destruct (IH blocks' Hnames Hnd' HF') as [IH1 IH2].
    pose proof (component_pins_component _ _ _ _ _ Hb) as Hcomp.
    split.
    + rewrite map_app. apply NoDup_app.
      * exact (component_pins_keys _ _ _ _ _ Hnames Hb).
      * exact IH1.
      * intros key Hin1 Hin2.
        apply in_map_iff in Hin1 as (p1 & <- & Hp1).
        apply in_map_iff in Hin2 as (p2 & E & Hp2).
        apply Hnin. rewrite <- (Hcomp p1 Hp1).
        unfold Pin.key in E. injection E as <- _. now apply IH2.
    + intros p Hin. apply in_app_or in Hin as [Hin|Hin]; cbn [map fst].
      * left. symmetry. now apply Hcomp.
      * right. now apply IH2.
Qed.

(** When the components have distinct names and no shape has two pins of
    the same name, the resolved pins have distinct keys: no two of them agree
    on component and pin name. *)
Theorem resolved_pin_keys_distinct signals shapes components pins :
  NoDup (map fst components) ->
  distinct_pin_names shapes ->
  _calculate_pin_positions signals shapes components = Ok pins ->
  NoDup (map Pin.key pins).
Proof.
  intros Hnd Hnames H. apply calculate_blocks in H as (blocks & HF & ->).
  apply (blocks_keys signals shapes components blocks Hnames Hnd HF).
Qed.

(** The example board. *)
Lemma resolved_pin_keys_distinct_witness : NoDup (map Pin.key ex_resolved).
Proof.
  apply (resolved_pin_keys_distinct ex_signals ex_shapes ex_components).
  - repeat constructor; cbn; intuition discriminate.
  - intros shape_name shape_pins H. cbn in H.
    repeat match type of H with
           | (if ?b then _ else _) = _ => destruct b
           end; try discriminate; injection H as <-;
      repeat constructor; cbn; intuition discriminate.
  - reflexivity.
Defined.

(** On a parsed document the names of the components are distinct, so the
    keys of the pins are distinct as soon as no shape of the document has
    two pins of the same name. *)
Theorem parse_pin_keys_distinct content parser :
  parse content = Ok parser ->
  distinct_pin_names (Parser.shapes parser) ->
  NoDup (map Pin.key (Parser.pins parser)).
Proof.
  unfold parse.
  destruct (_parse_board (_extract_section content "BOARD" "ENDBOARD") [])
    as [board_outline|eb]; cbn [bind]; [|discriminate].
  destruct (_parse_shapes (_extract_section content "SHAPES" "ENDSHAPES"))
    as [shapes|es]; cbn [bind]; [|discriminate].
  destruct (_parse_components (_extract_section content "COMPONENTS" "ENDCOMPONENTS") [])
    as [components|ec] eqn:Ec; cbn [bind]; [|discriminate].
  destruct (_calculate_pin_positions
              (_parse_signals (_extract_section content "SIGNALS" "ENDSIGNALS") [])
              shapes components) as [pins|ep] eqn:Ep; cbn [bind]; [|discriminate].
  intros [= <-] Hnames. cbn [Parser.pins Parser.shapes] in *.
  apply calculate_blocks in Ep as (blocks & HF & ->).
  refine (proj1 (blocks_keys _ shapes components blocks Hnames _ HF)).
  unfold _parse_components in Ec.
  match type of Ec with bind ?r _ = _ => destruct r as [st|e'] eqn:E end;
    cbn in Ec; [|discriminate]. injection Ec as <-.
  apply (for_each_invariant _ components_state_ok parse_components_line_ok) in E;
    [apply E|]. split; [intros name [=]|constructor].
Qed.
(** The example document: the diode "L-D1" and the resistor "R1", of the
    same shape. *)
Lemma parse_pin_keys_distinct_witness :
  exists parser,
    parse ex_document_diode = Ok parser /\ NoDup (map Pin.key (Parser.pins parser)).
Proof.
  eexists. split; [reflexivity|].
  apply (parse_pin_keys_distinct ex_document_diode); [reflexivity|].
  intros shape_name shape_pins H.
  match type of H with
  | dict_get _ ?shapes _ = _ =>
      let v := eval cbv -[IZR Rdiv Ropp Rplus Rmult Rminus cos sin PI] in shapes in
      change shapes with v in H
  end.
  cbn [dict_get] in H. destruct (shape_name =? "D"); [|discriminate].
  injection H as <-. repeat constructor; cbn; intuition discriminate.
Defined.
